(** * wretched: sizing protocol, invalidation, text rendering and overlay
  placement of the terminal UI toolkit, as a shallow embedding.

  Sources embedded here:
  - the [View] base class: the wrapped [naturalSize] and [render],
    [invalidateSize], the [theme] getter (in
    [src/lib/components/Collapsible.ts], after the [Collapsible] class);
  - [Text] ([src/lib/components/Text.ts]);
  - [Accordion] and [AccordionSection]
    ([src/lib/components/Accordion.ts]);
  - [DropdownSelector.render] (in [src/lib/components/Accordion.ts],
    after the accordion).

  Geometry, viewport, themes, styles, events, the Unicode helpers and
  [Container] are not among the sources; what the code above needs of
  them is either taken as a parameter or modelled from the specification,
  and says so.

  JavaScript numbers that hold cell counts are modelled as [Z]. *)

From Stdlib Require Import ZArith Bool Lia Ascii String.
From stdpp Require Import base option list gmap strings pretty.

Local Open Scope Z_scope.

(** ** Geometry *)

(** Modelled from the spec: [lib/geometry.ts] is not part of the sources.
  A [Size] holds two integers that its constructor keeps [>= 0]; [grow],
  [shrink] and [max] build new sizes through the constructor.  The
  "mutable copy" has the same two fields, and assignments to them are
  plain field updates ([setWidth], [setHeight]). *)
Module Size.
Record t := mk { width : Z; height : Z }.

Definition new (w h : Z) : t := mk (Z.max 0 w) (Z.max 0 h).
Definition zero : t := new 0 0.
Definition grow (s : t) (w h : Z) : t := new (width s + w) (height s + h).
Definition shrink (s : t) (w h : Z) : t := new (width s - w) (height s - h).
Definition max (s o : t) : t :=
  new (Z.max (width s) (width o)) (Z.max (height s) (height o)).
Definition mutableCopy (s : t) : t := s.

Definition setWidth (w : Z) (s : t) : t := mk w (height s).
Definition setHeight (h : Z) (s : t) : t := mk (width s) h.

Definition valid (s : t) : Prop := 0 <= width s /\ 0 <= height s.

#[global] Instance eq_dec : EqDecision t.
Proof. solve_decision. Defined.
End Size.

(** Modelled from the spec: [Point] and [Rect] of [lib/geometry.ts]. *)
Module Point.
Record t := mk { x : Z; y : Z }.
Definition zero : t := mk 0 0.
Definition offset (p : t) (dx dy : Z) : t := mk (x p + dx) (y p + dy).
End Point.

Module Rect.
Record t := mk { origin : Point.t; size : Size.t }.
Definition minX (r : t) : Z := Point.x (origin r).
Definition minY (r : t) : Z := Point.y (origin r).
Definition maxX (r : t) : Z := Point.x (origin r) + Size.width (size r).
Definition maxY (r : t) : Z := Point.y (origin r) + Size.height (size r).
Definition isEmpty (r : t) : bool :=
  (Size.width (size r) =? 0) || (Size.height (size r) =? 0).
End Rect.

(** ** The theme chain *)

(** Modelled from the spec: [lib/Theme.ts] is not part of the sources.  A
  theme is a value object; [plain] is the process-wide default,
  [named p] the theme registered for purpose [p]. *)
Module Theme.
Inductive t := plain | named (purpose : string).
End Theme.

(** ** The viewport, as far as views read it *)

(** Modelled from the spec: [lib/Viewport.ts] is not part of the sources.
  A viewport carries the content size a view may paint into, the visible
  (clipped) part of it and the rectangle its parent occupies; it is empty
  when nothing of it is visible. *)
Module Viewport.
Record t := mk {
  contentSize : Size.t;
  visibleRect : Rect.t;
  parentRect : Rect.t;
}.
Definition isEmpty (viewport : t) : bool := Rect.isEmpty (visibleRect viewport).
End Viewport.

(** ** View.ts *)

Module Props.
Inductive Dimension := Num (n : Z) | Fill | Natural.

Record Edges := mkEdges { top : Z; right : Z; bottom : Z; left : Z }.

(** [padding?: number | Partial<Edges>] *)
Inductive Padding :=
| PadNum (n : Z)
| PadEdges (top right bottom left : option Z).

Record t := mk {
  theme : option Theme.t;
  x : option Z;
  y : option Z;
  width : option Dimension;
  height : option Dimension;
  minWidth : option Z;
  minHeight : option Z;
  maxWidth : option Z;
  maxHeight : option Z;
  padding : option Padding;
  debug : option bool;
}.

(** [{}], the constructor's default argument. *)
Definition empty : t :=
  mk None None None None None None None None None None None.
End Props.

Module View.
Import Props.

(** [toEdges]: a falsy argument ([undefined] or the number 0) gives
    [undefined]. *)
Definition toEdges (edges : option Padding) : option Edges :=
  match edges with
  | None => None
  | Some (PadNum n) => if n =? 0 then None else Some (mkEdges n n n n)
  | Some (PadEdges t r b l) =>
      Some (mkEdges (default 0 t) (default 0 r) (default 0 b) (default 0 l))
  end.

(** [cacheKey]: the template string [`${size.width}x${size.height}`]. *)
Definition cacheKey (size : Size.t) : string :=
  pretty (Size.width size) +:+ "x" +:+ pretty (Size.height size).

Local Unset Elimination Schemes.

(** The fields of the abstract class.  The parent back-reference makes a
    view carry its chain of ancestors; an update reaching an ancestor
    through [parent] is returned as part of the updated view.  The chain
    is finite: views form a tree, no view is its own ancestor. *)
Inductive t := mk {
  parent : option t;
  debug : bool;
  theme : option Theme.t;                    (* #theme *)
  prevSizeCache : gmap string Size.t;        (* #prevSizeCache *)
  viewportContentSize : Size.t;              (* #viewportContentSize *)
  renderedContentSize : Size.t;              (* #renderedContentSize *)
  invalidateParent : bool;                   (* #invalidateParent *)
  x : option Z;
  y : option Z;
  width : option Dimension;
  height : option Dimension;
  minWidth : option Z;
  minHeight : option Z;
  maxWidth : option Z;
  maxHeight : option Z;
  padding : option Edges;
}.

Local Set Elimination Schemes.

Definition set_parent (p : option t) (v : t) : t :=
  mk p (debug v) (theme v) (prevSizeCache v) (viewportContentSize v)
     (renderedContentSize v) (invalidateParent v) (x v) (y v) (width v)
     (height v) (minWidth v) (minHeight v) (maxWidth v) (maxHeight v)
     (padding v).
Definition set_prevSizeCache (c : gmap string Size.t) (v : t) : t :=
  mk (parent v) (debug v) (theme v) c (viewportContentSize v)
     (renderedContentSize v) (invalidateParent v) (x v) (y v) (width v)
     (height v) (minWidth v) (minHeight v) (maxWidth v) (maxHeight v)
     (padding v).
Definition set_viewportContentSize (s : Size.t) (v : t) : t :=
  mk (parent v) (debug v) (theme v) (prevSizeCache v) s
     (renderedContentSize v) (invalidateParent v) (x v) (y v) (width v)
     (height v) (minWidth v) (minHeight v) (maxWidth v) (maxHeight v)
     (padding v).
Definition set_renderedContentSize (s : Size.t) (v : t) : t :=
  mk (parent v) (debug v) (theme v) (prevSizeCache v)
     (viewportContentSize v) s (invalidateParent v) (x v) (y v) (width v)
     (height v) (minWidth v) (minHeight v) (maxWidth v) (maxHeight v)
     (padding v).
Definition set_invalidateParent (b : bool) (v : t) : t :=
  mk (parent v) (debug v) (theme v) (prevSizeCache v)
     (viewportContentSize v) (renderedContentSize v) b (x v) (y v)
     (width v) (height v) (minWidth v) (minHeight v) (maxWidth v)
     (maxHeight v) (padding v).

(** The constructor; [Theme[theme]] for a purpose string is [named]. *)
Definition new (props : Props.t) : t :=
  mk None (default false (Props.debug props)) (Props.theme props)
     ∅ Size.zero Size.zero true
     (Props.x props) (Props.y props) (Props.width props)
     (Props.height props) (Props.minWidth props) (Props.minHeight props)
     (Props.maxWidth props) (Props.maxHeight props)
     (toEdges (Props.padding props)).

(** [get theme()]: [this.#theme ?? this.parent?.theme ?? Theme.plain]. *)
Fixpoint get_theme (v : t) : Theme.t :=
  match v with
  | mk p _ th _ _ _ _ _ _ _ _ _ _ _ _ _ =>
      match th with
      | Some own => own
      | None =>
          match p with
          | Some up => get_theme up
          | None => Theme.plain
          end
      end
  end.

(** [invalidateSize]. *)
Fixpoint invalidateSize (v : t) : t :=
  match v with
  | mk p d th _ vcs rcs ip x y w h mnw mnh mxw mxh pad =>
      let p' :=
        if ip then
          match p with
          | Some up => Some (invalidateSize up)
          | None => None
          end
        else p in
      mk p' d th ∅ vcs rcs ip x y w h mnw mnh mxw mxh pad
  end.
(** JavaScript truthiness of an optional number, and [n ?? 0]. *)
Definition truthy (n : option Z) : bool :=
  match n with
  | Some n => negb (n =? 0)
  | None => false
  end.
Definition orZero (n : option Z) : Z := default 0 n.

(** *** [#restrictSize]

  Its body runs with two pieces of state in scope: the memo cell of the
  local [calcSize] closure and the view ([_calcSize] may call the wrapped
  [naturalSize], which writes the size cache). *)
Definition Calc (A : Type) : Type :=
  option Size.t * t -> A * (option Size.t * t).
Definition ret {A : Type} (a : A) : Calc A := fun s => (a, s).
Definition bind {A B : Type} (m : Calc A) (k : A -> Calc B) : Calc B :=
  fun s => let '(a, s') := m s in k a s'.
Definition this : Calc t := fun s => (snd s, s).

Notation "x <- m ;; k" := (bind m (fun x => k))
  (at level 100, m at next level, right associativity).

(** [const calcSize = () => (memo ??= _calcSize())] *)
Definition calcSize (_calcSize : t -> Size.t * t) : Calc Size.t :=
  fun s =>
    match fst s with
    | Some memo => (memo, s)
    | None => let '(size, v) := _calcSize (snd s) in (size, (Some size, v))
    end.

Inductive Prefer := grow | shrink.

(** [#toDimension] *)
Definition toDimension (dim : Dimension) (available : Z) (natural : Calc Z)
  : Calc Z :=
  match dim with
  | Fill => ret available
  | Natural => natural
  | Num n => ret n
  end.

Definition restrictWidth (self : t) (availableSize : Size.t)
  (calc : Calc Size.t) (size : Size.t) : Calc Size.t :=
  match width self with
  | Some w =>
      wd <- toDimension w (Size.width availableSize)
              (c <- calc;; ret (Size.width c));;
      ret (Size.setWidth wd size)
  | None =>
      let size :=
        match minWidth self with
        | Some m => Size.setWidth (Z.max m (Size.width size)) size
        | None => size
        end in
      let size :=
        match maxWidth self with
        | Some m => Size.setWidth (Z.min m (Size.width size)) size
        | None => size
        end in
      ret size
  end.

Definition restrictHeight (self : t) (availableSize : Size.t)
  (calc : Calc Size.t) (size : Size.t) : Calc Size.t :=
  match height self with
  | Some h =>
      hd <- toDimension h (Size.height availableSize)
              (c <- calc;; ret (Size.height c));;
      ret (Size.setHeight hd size)
  | None =>
      let size :=
        match minHeight self with
        | Some m => Size.setHeight (Z.max m (Size.height size)) size
        | None => size
        end in
      let size :=
        match maxHeight self with
        | Some m => Size.setHeight (Z.min m (Size.height size)) size
        | None => size
        end in
      ret size
  end.

Definition restrictSize (_calcSize : t -> Size.t * t)
  (availableSize : Size.t) (prefer : Prefer) (v : t) : Size.t * t :=
  let calc := calcSize _calcSize in
  let body : Calc Size.t :=
    self <- this;;
    match width self, height self with
    | Some w, Some h =>
        (* shortcut for explicit or 'fill' on both width & height *)
        wd <- toDimension w (Size.width availableSize)
                (c <- calc;; ret (Size.width c));;
        hd <- toDimension h (Size.height availableSize)
                (c <- calc;; ret (Size.height c));;
        ret (Size.mutableCopy (Size.new wd hd))
    | _, _ =>
        base <- match prefer with
                | shrink => calc
                | grow => ret availableSize
                end;;
        size <- restrictWidth self availableSize calc (Size.mutableCopy base);;
        restrictHeight self availableSize calc size
    end in
  let '(size, (_, v')) := body (None, v) in
  (size, v').

(** *** [#naturalSizeWrap]

  [naturalSize] is the subclass method the constructor bound: a function of
  the available size (and of the subclass's own fields, which the closure
  has captured).  The parameter [availableSize] is reassigned when the view
  has an offset, as in the source. *)
Definition naturalSizeWrap (naturalSize : Size.t -> Size.t) (v : t)
  (availableSize : Size.t) : Size.t * t :=
  match prevSizeCache v !! cacheKey availableSize with
  | Some cached => (cached, v)
  | None =>
      let availableSize :=
        if truthy (x v) || truthy (y v)
        then Size.shrink availableSize (orZero (x v)) (orZero (y v))
        else availableSize in
      let '(size, v) :=
        restrictSize
          (fun v =>
             let size := naturalSize availableSize in
             let size :=
               match padding v with
               | Some p => Size.grow size (left p + right p) (top p + bottom p)
               | None => size
               end in
             (size, v))
          availableSize shrink v in
      let size :=
        if truthy (x v)
        then Size.setWidth (Size.width size + orZero (x v)) size
        else size in
      let size :=
        if truthy (y v)
        then Size.setHeight (Size.height size + orZero (y v)) size
        else size in
      (size, set_prevSizeCache (<[cacheKey availableSize := size]> (prevSizeCache v)) v)
  end.

(** [get contentSize()] *)
Definition contentSize (v : t) : Size.t := renderedContentSize v.

(** *** [#renderWrap]

  The size-change detection of the wrapper (its first statement). *)
Definition detectResize (v : t) (viewport : Viewport.t) : t :=
  if negb (Size.width (viewportContentSize v)
             =? Size.width (Viewport.contentSize viewport))
     || negb (Size.height (viewportContentSize v)
                =? Size.height (Viewport.contentSize viewport))
  then
    let v := set_invalidateParent false v in
    let v := invalidateSize v in
    set_invalidateParent true v
  else v.

(** The wrapper up to its last statement: the result is the rectangle that
  is handed to [viewport._render(this, rect, render)] and the view as it is
  at that call. *)
Definition renderWrap (naturalSize : Size.t -> Size.t) (v : t)
  (viewport : Viewport.t) : Rect.t * t :=
  let v := detectResize v viewport in
  let v := set_viewportContentSize (Viewport.contentSize viewport) v in
  let contentSize := Size.mutableCopy (Viewport.contentSize viewport) in
  let '(origin, contentSize) :=
    if truthy (x v) || truthy (y v)
    then
      let origin := Point.mk (orZero (x v)) (orZero (y v)) in
      (origin,
       Size.mk (Size.width contentSize - Point.x origin)
               (Size.height contentSize - Point.y origin))
    else (Point.zero, contentSize) in
  let '(origin, contentSize) :=
    match padding v with
    | Some p =>
        (Point.offset origin (left p) (top p),
         Size.mk (Size.width contentSize - (left p + right p))
                 (Size.height contentSize - (top p + bottom p)))
    | None => (origin, contentSize)
    end in
  let '(rendered, v) :=
    restrictSize (fun v => naturalSizeWrap naturalSize v contentSize)
                 contentSize grow v in
  let v := set_renderedContentSize rendered v in
  (Rect.mk origin (renderedContentSize v), v).

(** The ancestors of a view, nearest first. *)
Fixpoint ancestors (v : t) : list t :=
  match v with
  | mk p _ _ _ _ _ _ _ _ _ _ _ _ _ _ _ =>
      match p with
      | Some up => up :: ancestors up
      | None => []
      end
  end.
End View.

(** ** components/Text.ts *)

Module Text.

Inductive Alignment := left | center | right.

(** [~~n] on an integer: the value reduced to a signed 32-bit integer. *)
Definition toInt32 (n : Z) : Z := (n + 2 ^ 31) mod 2 ^ 32 - 2 ^ 31.

(** [~~(a / b)] for integers [a] and [b]: the quotient truncated towards
  zero; a division by zero gives [Infinity] or [NaN], which [~~] turns
  into 0.  No case raises an exception. *)
Definition truncDiv (a b : Z) : Z :=
  if b =? 0 then 0 else toInt32 (Z.quot a b).

Definition newline : ascii := "010"%char.

(** [s.split('\n')] *)
Fixpoint split (s : string) : list string :=
  match s with
  | EmptyString => [EmptyString]
  | String c rest =>
      if Ascii.eqb c newline then EmptyString :: split rest
      else
        match split rest with
        | line :: more => String c line :: more
        | [] => [String c EmptyString]
        end
  end.

(** [lines.join('\n')] *)
Fixpoint join (lines : list string) : string :=
  match lines with
  | [] => EmptyString
  | [line] => line
  | line :: more => line +:+ String newline (join more)
  end.

(** [char.match(/\s/)], on the ASCII white space characters. *)
Definition isSpaceChar (c : ascii) : bool :=
  match c with
  | " "%char | "009"%char | "010"%char | "011"%char | "012"%char
  | "013"%char => true
  | _ => false
  end.
Fixpoint matchesSpace (char : string) : bool :=
  match char with
  | EmptyString => false
  | String c rest => isSpaceChar c || matchesSpace rest
  end.

(** One call of [viewport.write(char, point)], with the pen in force when
  it is made. *)
Record Write (Style : Type) := mkWrite {
  written : string;
  position : Point.t;
  styled : Style;
}.
Arguments mkWrite {Style}.
Arguments written {Style}.
Arguments position {Style}.
Arguments styled {Style}.

Section WithExternals.
(** [lib/sys] ([unicode]), [lib/Style], [lib/Theme] and [./fonts] are not
  part of the sources: the functions [Text] calls from them are taken as
  they come. *)
Context {Style : Type}.
Context (lineWidth : string -> Z).                 (* unicode.lineWidth *)
Context (charWidth : string -> Z).                 (* unicode.charWidth *)
Context (printableChars : string -> list string).  (* unicode.printableChars *)
Context (fromSGR : string -> Style).               (* Style.fromSGR *)
Context (merge : Style -> option Style -> Style).  (* style.merge(other) *)
Context (themeText : Theme.t -> Style).            (* theme.text() *)
Context (FONTS : string -> option (ascii -> option string)).

Record Props := mkProps {
  p_view : Props.t;
  p_text : option string;
  p_lines : option (list string);
  p_style : option Style;
  p_alignment : option Alignment;
  p_wrap : option bool;
  p_font : option string;
}.

Record t := mk {
  base : View.t;                 (* the fields of the superclass *)
  style : option Style;          (* #style *)
  text : string;                 (* #text *)
  lines : list (string * Z);     (* #lines *)
  alignment : Alignment;         (* #alignment *)
  wrap : bool;                   (* #wrap *)
  font : string;                 (* #font *)
}.

(** [[...line].map(c => fontMap.get(c) ?? c).join('')] *)
Fixpoint mapFont (fontMap : ascii -> option string) (line : string) : string :=
  match line with
  | EmptyString => EmptyString
  | String c rest =>
      default (String c EmptyString) (fontMap c) +:+ mapFont fontMap rest
  end.

(** [#updateLines] *)
Definition updateLines (text_ : option string) (lines_ : option (list string))
  (font_ : option string) (this : t) : t :=
  let font' := default "default" font_ in
  let fontMap :=
    match font_ with
    | Some f => if String.eqb f "" then None else FONTS f
    | None => None
    end in
  let '(text', lines') :=
    match text_, lines_ with
    | Some tx, _ => (tx, if String.eqb tx "" then [] else split tx)
    | None, Some ls => (join ls, ls)
    | None, None => ("", [])
    end in
  let measured :=
    map (fun line =>
           let line :=
             match fontMap with
             | Some fm => mapFont fm line
             | None => line
             end in
           (line, lineWidth line))
        lines' in
  mk (View.invalidateSize (base this)) (style this) text' measured
     (alignment this) (wrap this) font'.

(** [#update] *)
Definition update_ (props : Props) (this : t) : t :=
  let this :=
    mk (base this) (p_style props) (text this) (lines this)
       (default left (p_alignment props)) (default false (p_wrap props))
       (font this) in
  updateLines (p_text props) (p_lines props) (p_font props) this.

(** The constructor: [super(props)], the field initialisers, [#update]. *)
Definition new (props : Props) : t :=
  update_ props (mk (View.new (p_view props)) None "" [] left false "default").

(** [set text(value)] *)
Definition set_text (value : string) (this : t) : t :=
  if String.eqb (text this) value then this
  else updateLines (Some value) (Some (split value)) (Some (font this)) this.

(** [set font(value)] *)
Definition set_font (value : string) (this : t) : t :=
  if String.eqb (font this) value then this
  else updateLines (Some (text this)) None (Some value) this.

(** [naturalSize]: the reduction over [#lines], from a mutable copy of
  [Size.zero]. *)
Definition naturalSize (this : t) (available : Size.t) : Size.t :=
  foldl
    (fun size '(_, width) =>
       if wrap this then
         let lineHeight := 1 + truncDiv width (Size.width available) in
         let size := Size.setWidth (Size.width available) size in
         Size.setHeight (Size.height size + lineHeight) size
       else
         let size := Size.setWidth (Z.max (Size.width size) width) size in
         Size.setHeight (Size.height size + 1) size)
    (Size.mutableCopy Size.zero) (lines this).

(** The method the constructor installs over [naturalSize]. *)
Definition wrappedNaturalSize (this : t) (available : Size.t) : Size.t * t :=
  let '(size, base') := View.naturalSizeWrap (naturalSize this) (base this) available in
  (size,
   mk base' (style this) (text this) (lines this) (alignment this)
      (wrap this) (font this)).

(** *** [render]

  The state of the two loops: the pen of [usingPen], the mutable [point],
  [didWrap], and the calls of [viewport.write] made so far. *)
Record Pass := mkPass {
  pen : Style;
  point : Point.t;
  didWrap : bool;
  writes : list (Write Style);
}.

(** The body of [for (const char of unicode.printableChars(line))]. *)
Definition renderChar (this : t) (viewport : Viewport.t) (st : Pass)
  (char : string) : Pass :=
  let width := charWidth char in
  if width =? 0 then
    (* pen.replacePen(Style.fromSGR(char)); continue *)
    mkPass (fromSGR char) (point st) (didWrap st) (writes st)
  else
    let st :=
      if wrap this
         && (Size.width (Viewport.contentSize viewport) <=? Point.x (point st))
      then mkPass (pen st) (Point.mk 0 (Point.y (point st) + 1)) true (writes st)
      else st in
    if didWrap st && matchesSpace char then st
    else
      let st := mkPass (pen st) (point st) false (writes st) in
      let st :=
        if (Rect.minX (Viewport.visibleRect viewport) <=? Point.x (point st))
           && (Point.x (point st) + width - 1
                 <? Rect.maxX (Viewport.visibleRect viewport))
        then mkPass (pen st) (point st) (didWrap st)
               (writes st ++ [mkWrite char (point st) (pen st)])
        else st in
      mkPass (pen st) (Point.mk (Point.x (point st) + width) (Point.y (point st)))
        (didWrap st) (writes st).

(** The body of [for (const [line, width] of lines)]. *)
Definition renderLine (this : t) (viewport : Viewport.t) (st : Pass)
  (entry : string * Z) : Pass :=
  let '(line, width) := entry in
  if String.eqb line "" then
    mkPass (pen st) (Point.mk (Point.x (point st)) (Point.y (point st) + 1))
      (didWrap st) (writes st)
  else
    let cw := Size.width (Viewport.contentSize viewport) in
    let offsetX :=
      match alignment this with
      | left => 0
      | center => truncDiv (cw - width) 2
      | right => cw - width
      end in
    let st := mkPass (pen st) (Point.mk offsetX (Point.y (point st))) false (writes st) in
    let st := foldl (renderChar this viewport) st (printableChars line) in
    mkPass (pen st) (Point.mk (Point.x (point st)) (Point.y (point st) + 1))
      (didWrap st) (writes st).

(** [render]: the calls of [viewport.write] it makes, in order. *)
Definition render (this : t) (viewport : Viewport.t) : list (Write Style) :=
  if Viewport.isEmpty viewport then []
  else
    let style := merge (themeText (View.get_theme (base this))) (style this) in
    let st := mkPass style (Point.mk 0 0) false [] in
    writes (foldl (renderLine this viewport) st (lines this)).
End WithExternals.
End Text.

(** ** Painting through a viewport *)

(** Modelled from the spec: [lib/Viewport.ts] is not part of the sources.
  [write(text, point, style)] paints the characters of [text] from [point]
  to the right, one cell each, and drops every cell that is outside
  [visibleRect]; [clipped(rect, body)] runs [body] in a nested viewport
  whose origin is moved by [rect.origin], whose content size is
  [rect.size] and whose visible part is what [rect] and the current
  visible part have in common.  The screen is a map from absolute cell
  positions to a character and its style. *)
Module Painting.
Section WithStyle.
Context {Style : Type}.

Definition contains (r : Rect.t) (p : Point.t) : bool :=
  (Rect.minX r <=? Point.x p) && (Point.x p <? Rect.maxX r)
  && (Rect.minY r <=? Point.y p) && (Point.y p <? Rect.maxY r).

Definition intersection (r o : Rect.t) : Rect.t :=
  let minX := Z.max (Rect.minX r) (Rect.minX o) in
  let minY := Z.max (Rect.minY r) (Rect.minY o) in
  let maxX := Z.min (Rect.maxX r) (Rect.maxX o) in
  let maxY := Z.min (Rect.maxY r) (Rect.maxY o) in
  Rect.mk (Point.mk minX minY) (Size.new (maxX - minX) (maxY - minY)).

(** A viewport in use: the absolute position of its origin and the
  values views read from it. *)
Record Frame := mkFrame {
  offset : Point.t;
  viewport : Viewport.t;
}.

Definition Screen : Type := gmap (Z * Z) (ascii * Style).

Fixpoint writeCells (f : Frame) (text : string) (point : Point.t)
  (style : Style) (screen : Screen) : Screen :=
  match text with
  | EmptyString => screen
  | String c rest =>
      let screen :=
        if contains (Viewport.visibleRect (viewport f)) point
        then <[(Point.x (offset f) + Point.x point,
                Point.y (offset f) + Point.y point) := (c, style)]> screen
        else screen in
      writeCells f rest (Point.offset point 1 0) style screen
  end.

Definition nested (f : Frame) (rect : Rect.t) : Frame :=
  let visible := intersection rect (Viewport.visibleRect (viewport f)) in
  let dx := Point.x (Rect.origin rect) in
  let dy := Point.y (Rect.origin rect) in
  mkFrame
    (Point.offset (offset f) dx dy)
    (Viewport.mk (Rect.size rect)
       (Rect.mk (Point.offset (Rect.origin visible) (- dx) (- dy))
          (Rect.size visible))
       (Viewport.parentRect (viewport f))).

Local Unset Elimination Schemes.

(** What the [render] of a view asks of its viewport. *)
Inductive Paint :=
| write (text : string) (point : Point.t) (style : Style)
| clipped (rect : Rect.t) (body : list Paint).

Local Set Elimination Schemes.

Fixpoint paint (f : Frame) (p : Paint) (screen : Screen) : Screen :=
  match p with
  | write text point style => writeCells f text point style screen
  | clipped rect body =>
      let inner := nested f rect in
      (fix each (body : list Paint) (screen : Screen) : Screen :=
         match body with
         | [] => screen
         | p :: more => each more (paint inner p screen)
         end) body screen
  end.

Definition paintAll (f : Frame) (body : list Paint) (screen : Screen) : Screen :=
  foldl (fun screen p => paint f p screen) screen body.

(** The calls [Text.render] makes, as painting requests. *)
Definition ofWrites (ws : list (Text.Write Style)) : list Paint :=
  map (fun w => write (Text.written w) (Text.position w) (Text.styled w)) ws.
End WithStyle.
End Painting.

(** ** components/Dropdown.ts: [DropdownSelector.render] *)

Module DropdownSelector.
Inductive Placement := above | below.

Section Render.
(** [naturalSize] is what [this.naturalSize(viewport.contentSize)]
  returned. *)
Context (naturalSize : Size.t) (viewport : Viewport.t).

Definition natural : Size.t :=
  Size.max naturalSize (Viewport.contentSize viewport).

Definition fitsBelow : bool :=
  Rect.maxY (Viewport.parentRect viewport) + Size.height natural
    <? Size.height (Viewport.contentSize viewport).

Definition fitsAbove : bool :=
  Size.height natural <=? Rect.minY (Viewport.parentRect viewport).

Definition spaceBelow : Z :=
  Size.height (Viewport.contentSize viewport)
    - Rect.maxY (Viewport.parentRect viewport) + 1.

Definition spaceAbove : Z := Rect.minY (Viewport.parentRect viewport) + 1.

(** [placement] and [height] as they stand after the [if] chain. *)
Definition place : Placement * Z :=
  if negb fitsBelow && negb fitsAbove then
    if spaceBelow <? spaceAbove
    then (above, spaceAbove)
    else (below, spaceBelow)
  else if fitsBelow then (below, Size.height natural)
  else (above, Size.height natural).

Definition placement : Placement := fst place.

(** The rectangle handed to [viewport.clipped]. *)
Definition rect : Rect.t :=
  let '(placement, height) := place in
  let parentRect := Viewport.parentRect viewport in
  let width := Size.width (Rect.size parentRect) in
  let x := Z.max 0 (Z.max (Rect.maxX parentRect - width) (Rect.minX parentRect)) in
  let y :=
    match placement with
    | below => Rect.maxY parentRect
    | above => Rect.minY parentRect - height
    end in
  Rect.mk (Point.mk x y) (Size.new width height).
End Render.
End DropdownSelector.

(** ** components/Accordion.ts *)

Module Accordion.

(** Modelled from the spec: [lib/events.ts] is not part of the sources.
  A mouse event is of one of the kinds the dispatcher delivers;
  [isMouseClicked] recognises the click. *)
Inductive MouseEvent := enter | exit | move | press | release | click.
Definition isMouseClicked (event : MouseEvent) : bool :=
  match event with
  | click => true
  | _ => false
  end.

(** What a section's public [onClick] field can hold: the accordion's
  bound [#sectionDidChange], or a callback the application installed
  (which the model gives no access to the sections). *)
Inductive Callback := boundSectionDidChange | installed (k : nat).

(** The fields of an [AccordionSection] that [isOpen] bookkeeping reads
  or writes. *)
Record Section := mkSection {
  isOpen : bool;                   (* #isOpen *)
  onClick : option Callback;
}.

(** A child of the accordion: a section object, or any other view. *)
Inductive Child := section (id : nat) | view (id : nat).

(** The accordion together with the section objects that exist; a
  section is referred to by its identity [id]. *)
Record World := mkWorld {
  heap : gmap nat Section;
  multiple : bool;                 (* #multiple *)
  children : list Child;           (* Container's children *)
}.

Definition set_heap (h : gmap nat Section) (w : World) : World :=
  mkWorld h (multiple w) (children w).
Definition set_children (c : list Child) (w : World) : World :=
  mkWorld (heap w) (multiple w) c.

(** [new Accordion(props)], without children, in a world where the
  sections of [h] exist. *)
Definition new (h : gmap nat Section) (multiple_ : option bool) : World :=
  mkWorld h (default false multiple_) [].

(** [get sections()] *)
Definition sections (w : World) : list nat :=
  omap (fun c => match c with section id => Some id | view _ => None end)
       (children w).

(** [for (const x of xs) body], where [body] may fail to return. *)
Fixpoint forEach {A S : Type} (body : A -> S -> option S) (xs : list A) (s : S)
  : option S :=
  match xs with
  | [] => Some s
  | x :: more =>
      match body x s with
      | Some s' => forEach body more s'
      | None => None
      end
  end.

(** The [isOpen] setter of a section and [#sectionDidChange] of the
  accordion call each other through [onClick]; [fuel] bounds the depth of
  these calls. *)
Fixpoint set_isOpen (fuel : nat) (id : nat) (value : bool) (w : World)
  : option World :=
  match fuel with
  | O => None
  | S fuel =>
      match heap w !! id with
      | None => Some w
      | Some s =>
          if Bool.eqb (isOpen s) value then Some w
          else
            let w := set_heap (<[id := mkSection value (onClick s)]> (heap w)) w in
            match onClick s with
            | Some boundSectionDidChange => sectionDidChange fuel id value w
            | Some (installed _) => Some w
            | None => Some w
            end
      end
  end
with sectionDidChange (fuel : nat) (toggleSection : nat) (isOpen_ : bool)
  (w : World) : option World :=
  match fuel with
  | O => None
  | S fuel =>
      if multiple w || negb isOpen_ then Some w
      else
        forEach
          (fun section w =>
             if Nat.eqb toggleSection section then Some w
             else set_isOpen fuel section false w  (* section.close() *))
          (sections w) w
  end.

(** [this.onClick?.(this, value)] *)
Definition callOnClick (fuel : nat) (id : nat) (value : bool) (w : World)
  : option World :=
  match heap w !! id with
  | Some {| onClick := Some boundSectionDidChange |} =>
      sectionDidChange fuel id value w
  | _ => Some w
  end.

(** [AccordionSection.receiveMouse]; what [super.receiveMouse] does is
  outside of the fields kept here. *)
Definition receiveMouse (fuel : nat) (id : nat) (event : MouseEvent)
  (w : World) : option World :=
  if isMouseClicked event then
    match heap w !! id with
    | None => Some w
    | Some s =>
        let value := negb (isOpen s) in
        let w := set_heap (<[id := mkSection value (onClick s)]> (heap w)) w in
        callOnClick fuel id value w
    end
  else Some w.

Section WithContainer.
(** [Container.add] ([lib/Container.ts]) is not part of the sources: it is
  taken as it comes, as a function on the list of children. *)
Context (add : list Child -> Child -> list Child).

(** [addSection(section)] *)
Definition addSection (fuel : nat) (id : nat) (w : World) : option World :=
  match heap w !! id with
  | None => Some w
  | Some s =>
      let w := set_heap (<[id := mkSection (isOpen s) (Some boundSectionDidChange)]> (heap w)) w in
      match
        if negb (multiple w) && isOpen s
        then forEach (fun section w => set_isOpen fuel section false w)
               (sections w) w
        else Some w
      with
      | Some w => Some (set_children (add (children w) (section id)) w)
      | None => None
      end
  end.

(** [addSection(title, view)]: [AccordionSection.create] makes a new
  section object, closed and without [onClick]. *)
Definition addTitled (fuel : nat) (w : World) : option World :=
  let id := fresh (dom (heap w)) in
  addSection fuel id (set_heap (<[id := mkSection false None]> (heap w)) w).

(** What happens to an accordion and its sections. *)
Inductive Op :=
| opAddTitled (title : string)
| opAddSection (id : nat)
| opReceiveMouse (id : nat) (event : MouseEvent).

Definition step (fuel : nat) (op : Op) (w : World) : option World :=
  match op with
  | opAddTitled _ => addTitled fuel w
  | opAddSection id => addSection fuel id w
  | opReceiveMouse id event => receiveMouse fuel id event w
  end.

Definition run (fuel : nat) (ops : list Op) (w : World) : option World :=
  forEach (step fuel) ops w.
End WithContainer.
End Accordion.

(** ** Stand-ins for the absent collaborators, for running the model

  A terminal that knows ASCII only: every character is one cell wide,
  an escape sequence [ESC ... m] is one zero-width "character", a style is
  the escape sequence that selected it, and there are no fonts. *)
Module Sample.
Definition Style : Type := string.

Definition ESC : ascii := "027"%char.

Fixpoint chars (pending : option string) (s : string) : list string :=
  match s with
  | EmptyString =>
      match pending with
      | Some e => [e]
      | None => []
      end
  | String c rest =>
      match pending with
      | Some e =>
          if Ascii.eqb c "m"%char
          then (e +:+ String c EmptyString) :: chars None rest
          else chars (Some (e +:+ String c EmptyString)) rest
      | None =>
          if Ascii.eqb c ESC
          then chars (Some (String c EmptyString)) rest
          else String c EmptyString :: chars None rest
      end
  end.

Definition printableChars (line : string) : list string := chars None line.

Definition charWidth (char : string) : Z :=
  match char with
  | EmptyString => 0
  | String c _ => if Ascii.eqb c ESC then 0 else 1
  end.

Definition lineWidth (line : string) : Z :=
  foldr (fun char total => charWidth char + total) 0 (printableChars line).

Definition fromSGR (char : string) : Style := char.
Definition merge (style : Style) (other : option Style) : Style :=
  default style other.
Definition themeText (theme : Theme.t) : Style := EmptyString.
Definition FONTS (font : string) : option (ascii -> option string) := None.

(** [new Text({text, x})] on this terminal. *)
Definition text (value : string) (x : option Z) : Text.t (Style := Style) :=
  Text.new lineWidth FONTS
    (Text.mkProps
       (Props.mk None x None None None None None None None None None)
       (Some value) None None None None None).
End Sample.

(** ** Properties of the view base class *)

Module ViewFacts.
Import Props View.

(** Induction along the parent chain. *)
Lemma view_chain_ind (P : View.t -> Prop)
  (Hroot : forall v, parent v = None -> P v)
  (Hstep : forall v up, parent v = Some up -> P up -> P v) :
  forall v, P v.
Proof.
  fix IH 1. intros [[up|] d th c vcs rcs ip vx vy w h mnw mnh mxw mxh pad].
  - apply (Hstep _ up); [reflexivity | apply IH].
  - apply Hroot. reflexivity.
Qed.

(** Theme resolution in the specification's words: the first override met when
  walking a chain of views upwards. *)
Fixpoint firstOverride (chain : list View.t) : option Theme.t :=
  match chain with
  | [] => None
  | v :: up =>
      match theme v with
      | Some own => Some own
      | None => firstOverride up
      end
  end.

Lemma get_theme_unfold v :
  get_theme v =
    match theme v with
    | Some own => own
    | None =>
        match parent v with
        | Some up => get_theme up
        | None => Theme.plain
        end
    end.
Proof. destruct v; reflexivity. Qed.

Lemma ancestors_unfold v :
  ancestors v =
    match parent v with
    | Some up => up :: ancestors up
    | None => []
    end.
Proof. destruct v; reflexivity. Qed.

Lemma get_theme_firstOverride v :
  get_theme v = default Theme.plain (firstOverride (v :: ancestors v)).
Proof.
  induction v as [v Hp | v up Hp IH] using view_chain_ind;
    rewrite get_theme_unfold, ancestors_unfold, Hp; simpl.
  - destruct (theme v); reflexivity.
  - destruct (theme v); [reflexivity | exact IH].
Qed.

Lemma firstOverride_skip pre rest :
  Forall (fun u => theme u = None) pre ->
  firstOverride (pre ++ rest) = firstOverride rest.
Proof.
  induction 1 as [| u pre Hu _ IH]; simpl; [reflexivity |].
  rewrite Hu. exact IH.
Qed.

(** C9.  The theme accessor returns the view's own override when it has
  one; otherwise the override of the nearest ancestor that has one (every
  view between the two has none); otherwise, when no view of the chain has
  an override, the process-wide plain theme. *)
Theorem theme_accessor_resolution (v : View.t) :
  (forall own, theme v = Some own -> get_theme v = own) /\
  (forall pre a post own,
      theme v = None ->
      ancestors v = pre ++ a :: post ->
      Forall (fun u => theme u = None) pre ->
      theme a = Some own ->
      get_theme v = own) /\
  (theme v = None ->
   Forall (fun u => theme u = None) (ancestors v) ->
   get_theme v = Theme.plain).
Proof.
  rewrite get_theme_firstOverride. simpl. repeat split.
  - intros own ->. reflexivity.
  - intros pre a post own -> -> Hpre Ha.
    rewrite firstOverride_skip by assumption. simpl. rewrite Ha. reflexivity.
  - intros -> Hall.
    rewrite <- (app_nil_r (ancestors v)).
    rewrite firstOverride_skip by assumption. reflexivity.
Qed.

(** A chain of three views: the root carries an override, the two views
  below it do not. *)
Definition themedRoot : View.t :=
  View.new (Props.mk (Some (Theme.named "primary")) None None None None
              None None None None None None).
Definition themedMiddle : View.t :=
  set_parent (Some themedRoot) (View.new Props.empty).
Definition themedLeaf : View.t :=
  set_parent (Some themedMiddle) (View.new Props.empty).

Lemma theme_accessor_resolution_witness :
  get_theme themedLeaf = Theme.named "primary".
Proof.
  apply (proj1 (proj2 (theme_accessor_resolution themedLeaf))
           [themedMiddle] themedRoot []).
  - reflexivity.
  - reflexivity.
  - repeat constructor.
  - reflexivity.
Defined.

(** *** [invalidateSize] *)

Lemma invalidateSize_unfold v :
  invalidateSize v =
    set_parent
      (if invalidateParent v
       then match parent v with
            | Some up => Some (invalidateSize up)
            | None => None
            end
       else parent v)
      (set_prevSizeCache ∅ v).
Proof. destruct v; reflexivity. Qed.

Lemma invalidateSize_idempotent v :
  invalidateSize (invalidateSize v) = invalidateSize v.
Proof.
  induction v as [v Hp | v up Hp IH] using view_chain_ind;
    destruct v as [p d th c vcs rcs ip vx vy w h mnw mnh mxw mxh pad];
    simpl in Hp; subst p; simpl.
  - destruct ip; reflexivity.
  - destruct ip; simpl; [rewrite IH |]; reflexivity.
Qed.

(** The caches along the chain, the view's own first. *)
Definition chainCaches (v : View.t) : list (gmap string Size.t) :=
  map prevSizeCache (v :: ancestors v).

(** C5.  [invalidateSize] empties the view's whole size cache; when the
  suppression flag allows it, the parent is invalidated as well (and left
  alone otherwise); no other field of the view changes; and a second call
  right after the first changes nothing, on the view or on its ancestors. *)
Theorem invalidateSize_clears_and_propagates (v : View.t) :
  prevSizeCache (invalidateSize v) = ∅ /\
  parent (invalidateSize v) =
    (if invalidateParent v then invalidateSize <$> parent v else parent v) /\
  set_parent (parent v) (set_prevSizeCache (prevSizeCache v) (invalidateSize v))
    = v /\
  invalidateSize (invalidateSize v) = invalidateSize v.
Proof.
  split; [| split; [| split]].
  - destruct v; reflexivity.
  - destruct v as [[up|] d th c vcs rcs ip vx vy w h mnw mnh mxw mxh pad];
      destruct ip; reflexivity.
  - destruct v; reflexivity.
  - apply invalidateSize_idempotent.
Qed.
(** When every view of the chain has its flag up (the state outside of the
  wrapper's size-change detection), one call empties every cache up to the
  root. *)
Lemma invalidateSize_clears_chain v :
  Forall (fun u => invalidateParent u = true) (v :: ancestors v) ->
  Forall (fun c => c = ∅) (chainCaches (invalidateSize v)).
Proof.
  unfold chainCaches.
  induction v as [v Hp | v up Hp IH] using view_chain_ind; intros Hall;
    rewrite invalidateSize_unfold, Hp;
    inversion Hall as [| ? ? Hip Hup]; subst; rewrite Hip.
  - simpl. repeat constructor.
  - rewrite ancestors_unfold, Hp in Hup.
    simpl. constructor; [reflexivity |].
    exact (IH Hup).
Qed.

(** *** What [#restrictSize] does to the view

  The memo cell makes [_calcSize] run at most once. *)
Lemma restrictSize_state f a p v :
  snd (restrictSize f a p v) = v \/ snd (restrictSize f a p v) = snd (f v).
Proof.
  unfold restrictSize, restrictWidth, restrictHeight, toDimension, calcSize,
    bind, ret, this; simpl.
  destruct (width v) as [[w| |]|], (height v) as [[h| |]|], p; simpl;
    destruct (f v) as [c v'] eqn:Hf; simpl; auto.
Qed.

Lemma set_prevSizeCache_parent c v : parent (set_prevSizeCache c v) = parent v.
Proof. reflexivity. Qed.

(** The wrapped [naturalSize] writes the cache of the view and nothing
  else. *)
Lemma naturalSizeWrap_state n v a :
  exists c, snd (naturalSizeWrap n v a) = set_prevSizeCache c v.
Proof.
  unfold naturalSizeWrap.
  destruct (prevSizeCache v !! cacheKey a) as [cached|].
  - exists (prevSizeCache v). destruct v; reflexivity.
  - match goal with
    | |- context [restrictSize ?f ?a' ?p v] =>
        pose proof (restrictSize_state f a' p v) as Hst;
        destruct (restrictSize f a' p v) as [size v'] eqn:Hr
    end.
    simpl in Hst. assert (v' = v) as -> by (destruct Hst; assumption).
    eexists. reflexivity.
Qed.

Lemma naturalSizeWrap_parent n v a :
  parent (snd (naturalSizeWrap n v a)) = parent v.
Proof. destruct (naturalSizeWrap_state n v a) as [c ->]. reflexivity. Qed.

Lemma detectResize_changed v viewport :
  viewportContentSize v <> Viewport.contentSize viewport ->
  detectResize v viewport =
    set_invalidateParent true (set_prevSizeCache ∅ v).
Proof.
  intros Hne. unfold detectResize.
  destruct (negb (Size.width (viewportContentSize v)
                    =? Size.width (Viewport.contentSize viewport))
            || negb (Size.height (viewportContentSize v)
                       =? Size.height (Viewport.contentSize viewport)))
    eqn:Hcmp.
  - destruct v; reflexivity.
  - exfalso. apply Hne.
    apply orb_false_iff in Hcmp as [Hw Hh].
    apply negb_false_iff, Z.eqb_eq in Hw, Hh.
    destruct (viewportContentSize v), (Viewport.contentSize viewport).
    simpl in *. congruence.
Qed.

Lemma renderWrap_parent n v viewport :
  parent (snd (renderWrap n v viewport)) = parent (detectResize v viewport).
Proof.
  unfold renderWrap.
  set (v1 := set_viewportContentSize _ (detectResize v viewport)).
  destruct (if truthy (x v1) || truthy (y v1) then _ else _) as [o1 c1].
  destruct (match padding v1 with Some _ => _ | None => _ end) as [o2 c2].
  pose proof (restrictSize_state
                (fun v0 => naturalSizeWrap n v0 c2) c2 grow v1) as Hst.
  destruct (restrictSize _ c2 grow v1) as [rendered v2]. simpl in *.
  destruct Hst as [-> | ->]; [reflexivity |].
  rewrite naturalSizeWrap_parent. reflexivity.
Qed.

(** C4.  When the wrapped [render] sees a viewport whose content size
  differs from the one recorded on the previous frame, its size-change
  detection empties the view's own cache, leaves the parent (hence the
  parent's cache) as it was and ends with the suppression flag up again;
  the whole wrapper leaves the parent as it was, and nothing of the old
  cache takes part in the rest of the wrapper. *)
Theorem render_resize_invalidates_self_only
  (n : Size.t -> Size.t) (v : View.t) (viewport : Viewport.t) :
  viewportContentSize v <> Viewport.contentSize viewport ->
  prevSizeCache (detectResize v viewport) = ∅ /\
  parent (detectResize v viewport) = parent v /\
  invalidateParent (detectResize v viewport) = true /\
  parent (snd (renderWrap n v viewport)) = parent v /\
  renderWrap n v viewport = renderWrap n (set_prevSizeCache ∅ v) viewport.
Proof.
  intros Hne.
  pose proof (detectResize_changed v viewport Hne) as Hd.
  repeat split.
  - rewrite Hd. reflexivity.
  - rewrite Hd. destruct v; reflexivity.
  - rewrite Hd. reflexivity.
  - rewrite renderWrap_parent, Hd. destruct v; reflexivity.
  - unfold renderWrap. rewrite Hd.
    rewrite (detectResize_changed (set_prevSizeCache ∅ v) viewport)
      by (destruct v; exact Hne).
    destruct v; reflexivity.
Qed.
Definition resizedParent : View.t :=
  set_prevSizeCache {[ "10x5" := Size.new 10 5 ]} (View.new Props.empty).
Definition resizedChild : View.t :=
  set_prevSizeCache {[ "0x0" := Size.new 3 1 ]}
    (set_parent (Some resizedParent) (View.new Props.empty)).
Definition resizedViewport : Viewport.t :=
  Viewport.mk (Size.new 10 5)
    (Rect.mk Point.zero (Size.new 10 5)) (Rect.mk Point.zero (Size.new 10 5)).

Lemma render_resize_invalidates_self_only_witness :
  prevSizeCache (detectResize resizedChild resizedViewport) = ∅ /\
  parent (detectResize resizedChild resizedViewport) = Some resizedParent /\
  invalidateParent (detectResize resizedChild resizedViewport) = true /\
  parent (snd (renderWrap (fun _ => Size.new 3 1) resizedChild resizedViewport))
    = Some resizedParent /\
  renderWrap (fun _ => Size.new 3 1) resizedChild resizedViewport
    = renderWrap (fun _ => Size.new 3 1)
        (set_prevSizeCache ∅ resizedChild) resizedViewport.
Proof.
  apply (render_resize_invalidates_self_only
           (fun _ => Size.new 3 1) resizedChild resizedViewport).
  vm_compute. discriminate.
Defined.

(** *** Histories of a view

  What a program does to a view through the base class, in the order it
  does it.  The subclass method bound at a call may differ from call to call
  (the subclass's own fields may have changed in between). *)
Inductive Call :=
| callNaturalSize (n : Size.t -> Size.t) (availableSize : Size.t)
| callRender (n : Size.t -> Size.t) (viewport : Viewport.t)
| callInvalidateSize
| assignParent (p : option View.t).

Definition perform (v : View.t) (c : Call) : View.t :=
  match c with
  | callNaturalSize n a => snd (naturalSizeWrap n v a)
  | callRender n viewport => snd (renderWrap n v viewport)
  | callInvalidateSize => invalidateSize v
  | assignParent p => set_parent p v
  end.

Definition after (calls : list Call) (v : View.t) : View.t :=
  foldl perform v calls.

(** The fields the constructor sets and nothing assigns afterwards. *)
Definition layout (v : View.t) :=
  (x v, y v, width v, height v,
   (minWidth v, minHeight v, maxWidth v, maxHeight v), padding v).

Lemma layout_fields v v' :
  layout v = layout v' ->
  x v = x v' /\ y v = y v' /\ width v = width v' /\ height v = height v'.
Proof. unfold layout. intros [=]. auto. Qed.

Lemma layout_invalidateSize v : layout (invalidateSize v) = layout v.
Proof. destruct v; reflexivity. Qed.

Lemma layout_detectResize v viewport :
  layout (detectResize v viewport) = layout v.
Proof.
  unfold detectResize. destruct (_ || _); [| reflexivity].
  destruct v; reflexivity.
Qed.

Lemma layout_naturalSizeWrap n v a :
  layout (snd (naturalSizeWrap n v a)) = layout v.
Proof. destruct (naturalSizeWrap_state n v a) as [c ->]. reflexivity. Qed.

Lemma renderWrap_state n v viewport :
  exists c r,
    snd (renderWrap n v viewport) =
      set_renderedContentSize r
        (set_prevSizeCache c
           (set_viewportContentSize (Viewport.contentSize viewport)
              (detectResize v viewport))).
Proof.
  unfold renderWrap.
  set (v1 := set_viewportContentSize _ (detectResize v viewport)).
  destruct (if truthy (x v1) || truthy (y v1) then _ else _) as [o1 c1].
  destruct (match padding v1 with Some _ => _ | None => _ end) as [o2 c2].
  pose proof (restrictSize_state
                (fun v0 => naturalSizeWrap n v0 c2) c2 grow v1) as Hst.
  destruct (restrictSize _ c2 grow v1) as [rendered v2]. simpl in *.
  destruct Hst as [-> | ->].
  - exists (prevSizeCache v1), rendered. destruct v1; reflexivity.
  - destruct (naturalSizeWrap_state n v1 c2) as [c ->].
    exists c, rendered. reflexivity.
Qed.

Lemma layout_renderWrap n v viewport :
  layout (snd (renderWrap n v viewport)) = layout v.
Proof.
  destruct (renderWrap_state n v viewport) as (c & r & ->).
  rewrite <- (layout_detectResize v viewport). reflexivity.
Qed.

Lemma layout_perform v c : layout (perform v c) = layout v.
Proof.
  destruct c; simpl.
  - apply layout_naturalSizeWrap.
  - apply layout_renderWrap.
  - apply layout_invalidateSize.
  - reflexivity.
Qed.

Lemma layout_after calls v : layout (after calls v) = layout v.
Proof.
  revert v. induction calls as [| c calls IH]; intros v; [reflexivity |].
  unfold after in *. simpl. rewrite IH. apply layout_perform.
Qed.
(** *** The size cache along a history *)

(** The value of the reassigned parameter [availableSize] of the wrapped
  [naturalSize]. *)
Definition effectiveSize (v : View.t) (availableSize : Size.t) : Size.t :=
  if truthy (x v) || truthy (y v)
  then Size.shrink availableSize (orZero (x v)) (orZero (y v))
  else availableSize.

Lemma naturalSizeWrap_hit n v a cached :
  prevSizeCache v !! cacheKey a = Some cached ->
  naturalSizeWrap n v a = (cached, v).
Proof. intros H. unfold naturalSizeWrap. rewrite H. reflexivity. Qed.

Lemma naturalSizeWrap_miss n v a :
  prevSizeCache v !! cacheKey a = None ->
  snd (naturalSizeWrap n v a) =
    set_prevSizeCache
      (<[cacheKey (effectiveSize v a) := fst (naturalSizeWrap n v a)]>
         (prevSizeCache v)) v.
Proof.
  intros H. unfold naturalSizeWrap, effectiveSize. rewrite H.
  match goal with
  | |- context [restrictSize ?f ?a' ?p v] =>
      pose proof (restrictSize_state f a' p v) as Hst;
      destruct (restrictSize f a' p v) as [size v'] eqn:Hr
  end.
  simpl in Hst. assert (v' = v) as -> by (destruct Hst; assumption).
  reflexivity.
Qed.

Section CacheInvariant.
Context (L : option Z * option Z * option Dimension * option Dimension
               * (option Z * option Z * option Z * option Z) * option Edges).
Context (P : string -> Size.t -> Prop).

(** Every computed result satisfies [P] at the key it is stored under. *)
Hypothesis computed_ok :
  forall n v a,
    layout v = L ->
    prevSizeCache v !! cacheKey a = None ->
    P (cacheKey (effectiveSize v a)) (fst (naturalSizeWrap n v a)).

Lemma cache_ok_naturalSizeWrap n v a :
  layout v = L ->
  map_Forall P (prevSizeCache v) ->
  map_Forall P (prevSizeCache (snd (naturalSizeWrap n v a))).
Proof.
  intros HL Hinv.
  destruct (prevSizeCache v !! cacheKey a) as [cached|] eqn:Hlook.
  - rewrite (naturalSizeWrap_hit _ _ _ _ Hlook). exact Hinv.
  - rewrite (naturalSizeWrap_miss _ _ _ Hlook). simpl.
    apply map_Forall_insert_2; [| exact Hinv].
    apply computed_ok; assumption.
Qed.

Lemma cache_ok_detectResize v viewport :
  map_Forall P (prevSizeCache v) ->
  map_Forall P (prevSizeCache (detectResize v viewport)).
Proof.
  intros Hinv. unfold detectResize. destruct (_ || _); [| exact Hinv].
  destruct v; simpl. apply map_Forall_empty.
Qed.

Lemma cache_ok_renderWrap n v viewport :
  layout v = L ->
  map_Forall P (prevSizeCache v) ->
  map_Forall P (prevSizeCache (snd (renderWrap n v viewport))).
Proof.
  intros HL Hinv. unfold renderWrap.
  pose proof (cache_ok_detectResize v viewport Hinv) as Hinv1.
  pose proof (layout_detectResize v viewport) as HL1.
  set (v1 := set_viewportContentSize _ (detectResize v viewport)).
  assert (map_Forall P (prevSizeCache v1)) as Hv1 by exact Hinv1.
  assert (layout v1 = L) as HLv1 by (rewrite <- HL, <- HL1; reflexivity).
  destruct (if truthy (x v1) || truthy (y v1) then _ else _) as [o1 c1].
  destruct (match padding v1 with Some _ => _ | None => _ end) as [o2 c2].
  pose proof (restrictSize_state
                (fun v0 => naturalSizeWrap n v0 c2) c2 grow v1) as Hst.
  destruct (restrictSize _ c2 grow v1) as [rendered v2]. simpl in *.
  destruct Hst as [-> | ->]; [exact Hv1 |].
  apply cache_ok_naturalSizeWrap; assumption.
Qed.

Lemma cache_ok_perform v c :
  layout v = L ->
  map_Forall P (prevSizeCache v) ->
  map_Forall P (prevSizeCache (perform v c)).
Proof.
  intros HL Hinv. destruct c; simpl.
  - apply cache_ok_naturalSizeWrap; assumption.
  - apply cache_ok_renderWrap; assumption.
  - destruct v; simpl. apply map_Forall_empty.
  - exact Hinv.
Qed.

Lemma cache_ok_after calls v :
  layout v = L ->
  map_Forall P (prevSizeCache v) ->
  map_Forall P (prevSizeCache (after calls v)).
Proof.
  revert v. induction calls as [| c calls IH]; intros v HL Hinv; [exact Hinv |].
  unfold after in *. simpl. apply IH.
  - rewrite layout_perform. exact HL.
  - apply cache_ok_perform; assumption.
Qed.
End CacheInvariant.
(** *** Explicit width and height *)

(** [size.width += this.#x] and [size.height += this.#y], each done only
  for a truthy offset. *)
Definition addOffset (dx dy : option Z) (size : Size.t) : Size.t :=
  let size :=
    if truthy dx then Size.setWidth (Size.width size + orZero dx) size
    else size in
  if truthy dy then Size.setHeight (Size.height size + orZero dy) size
  else size.

Lemma truthy_false_orZero o : truthy o = false -> orZero o = 0.
Proof.
  destruct o as [n|]; simpl; [| reflexivity].
  intros H. apply negb_false_iff, Z.eqb_eq in H. exact H.
Qed.

Lemma addOffset_sum dx dy size :
  addOffset dx dy size =
    Size.mk (Size.width size + orZero dx) (Size.height size + orZero dy).
Proof.
  unfold addOffset.
  destruct (truthy dx) eqn:Hx, (truthy dy) eqn:Hy; destruct size as [w h];
    simpl; rewrite ?(truthy_false_orZero _ Hx), ?(truthy_false_orZero _ Hy),
             ?Z.add_0_r; reflexivity.
Qed.

Lemma explicit_computed n v a W H :
  width v = Some (Num W) ->
  height v = Some (Num H) ->
  prevSizeCache v !! cacheKey a = None ->
  fst (naturalSizeWrap n v a) = addOffset (x v) (y v) (Size.new W H).
Proof.
  intros Hw Hh Hmiss. unfold naturalSizeWrap. rewrite Hmiss.
  unfold restrictSize, bind, this, ret. simpl. rewrite Hw, Hh. simpl.
  reflexivity.
Qed.

(** C2 (amended).  For a view constructed with explicit numeric width [W]
  and height [H], at any point of its history and for every available
  size, the wrapped [naturalSize] returns [Size(W, H)] with the view's [x]
  offset added to the width and its [y] offset added to the height, so
  [Size(W, H)] itself for a view without offset; neither the available size
  nor the min/max properties take part. *)
Theorem explicit_size_fast_path
  (props : Props.t) (W H : Z) (calls : list Call)
  (n : Size.t -> Size.t) (A : Size.t) :
  Props.width props = Some (Num W) ->
  Props.height props = Some (Num H) ->
  fst (naturalSizeWrap n (after calls (View.new props)) A)
    = addOffset (Props.x props) (Props.y props) (Size.new W H) /\
  (truthy (Props.x props) = false ->
   truthy (Props.y props) = false ->
   fst (naturalSizeWrap n (after calls (View.new props)) A) = Size.new W H).
Proof.
  intros Hw Hh.
  set (v0 := View.new props).
  set (expected := addOffset (Props.x props) (Props.y props) (Size.new W H)).
  assert (layout (after calls v0) = layout v0) as HL by apply layout_after.
  assert (map_Forall (fun _ s => s = expected)
            (prevSizeCache (after calls v0))) as Hinv.
  { apply (cache_ok_after (layout v0)); [| reflexivity | apply map_Forall_empty].
    intros n' v a HLv Hmiss.
    assert (width v = Some (Num W) /\ height v = Some (Num H)
            /\ x v = Props.x props /\ y v = Props.y props) as (Hvw & Hvh & Hx & Hy).
    { destruct (layout_fields v v0 HLv) as (Hx & Hy & Hvw & Hvh).
      rewrite Hx, Hy, Hvw, Hvh. auto. }
    rewrite (explicit_computed _ _ _ W H Hvw Hvh Hmiss), Hx, Hy. reflexivity. }
  assert (fst (naturalSizeWrap n (after calls v0) A) = expected) as Hres.
  { destruct (prevSizeCache (after calls v0) !! cacheKey A) as [cached|] eqn:Hlook.
    - rewrite (naturalSizeWrap_hit _ _ _ _ Hlook). simpl.
      exact (Hinv _ _ Hlook).
    - assert (width (after calls v0) = Some (Num W)
              /\ height (after calls v0) = Some (Num H)
              /\ x (after calls v0) = Props.x props
              /\ y (after calls v0) = Props.y props) as (Hvw & Hvh & Hx & Hy).
      { destruct (layout_fields _ _ HL) as (Hx & Hy & Hvw & Hvh).
        rewrite Hx, Hy, Hvw, Hvh. auto. }
      rewrite (explicit_computed _ _ _ W H Hvw Hvh Hlook), Hx, Hy. reflexivity. }
  split; [exact Hres |].
  intros Hx Hy. rewrite Hres. unfold expected, addOffset.
  rewrite Hx, Hy. reflexivity.
Qed.

Definition pinnedProps : Props.t :=
  Props.mk None (Some 2) None (Some (Num 5)) (Some (Num 5))
    None None None None None None.

Lemma explicit_size_fast_path_witness :
  fst (naturalSizeWrap (fun a => a)
         (after [callNaturalSize (fun a => a) (Size.new 10 10)]
            (View.new pinnedProps))
         (Size.new 3 3))
    = addOffset (Some 2) None (Size.new 5 5).
Proof.
  apply (explicit_size_fast_path pinnedProps 5 5
           [callNaturalSize (fun a => a) (Size.new 10 10)]
           (fun a => a) (Size.new 3 3)); reflexivity.
Defined.

(** C2 as the specification states it, "returns [Size(W, H)]" for every
  view with explicit width and height, fails for a view with an offset:
  [x = 2], [width = 5], [height = 5] gives [7 x 5]. *)
Lemma explicit_size_offset_counterexample :
  ~ (forall (props : Props.t) (W H : Z) (n : Size.t -> Size.t) (A : Size.t),
        Props.width props = Some (Num W) ->
        Props.height props = Some (Num H) ->
        fst (naturalSizeWrap n (View.new props) A) = Size.new W H).
Proof.
  intros Hall.
  specialize (Hall pinnedProps 5 5 (fun a => a) (Size.new 10 10)
                eq_refl eq_refl).
  vm_compute in Hall. discriminate Hall.
Qed.
(** *** The cache key *)

Fixpoint noX (s : string) : Prop :=
  match s with
  | EmptyString => True
  | String c rest => c <> "x"%char /\ noX rest
  end.

Lemma pretty_N_char_noX d : pretty_N_char d <> "x"%char.
Proof. unfold pretty_N_char. repeat case_match; discriminate. Qed.

Lemma pretty_N_go_noX n s : noX s -> noX (pretty_N_go n s).
Proof.
  revert s. induction (N.lt_wf_0 n) as [n _ IH]. intros s Hs.
  destruct (decide (n = 0)%N) as [-> | Hn].
  - rewrite pretty_N_go_0. exact Hs.
  - rewrite pretty_N_go_step by lia.
    apply IH.
    + apply N.div_lt; lia.
    + split; [apply pretty_N_char_noX | exact Hs].
Qed.

Lemma pretty_N_noX (n : N) : noX (pretty n).
Proof.
  unfold pretty, pretty_N. case_decide.
  - simpl. split; [discriminate | exact I].
  - apply pretty_N_go_noX. exact I.
Qed.

Lemma pretty_Z_noX (z : Z) : noX (pretty z).
Proof.
  destruct z as [| p | p]; unfold pretty, pretty_Z.
  - simpl. split; [discriminate | exact I].
  - apply (pretty_N_noX (N.pos p)).
  - simpl. split; [discriminate | apply (pretty_N_noX (N.pos p))].
Qed.

Lemma split_at_x s1 s2 t1 t2 :
  noX s1 -> noX s2 ->
  s1 +:+ "x" +:+ t1 = s2 +:+ "x" +:+ t2 ->
  s1 = s2 /\ t1 = t2.
Proof.
  revert s2. induction s1 as [| c1 s1 IH]; intros [| c2 s2] H1 H2 Heq;
    simpl in *.
  - injection Heq as Heq. auto.
  - injection Heq as Hc _. destruct H2 as [H2 _]. congruence.
  - injection Heq as Hc _. destruct H1 as [H1 _]. congruence.
  - injection Heq as -> Heq. destruct H1 as [_ H1], H2 as [_ H2].
    destruct (IH s2 H1 H2 Heq) as [-> ->]. auto.
Qed.

(** Two sizes with the same key are the same size. *)
Lemma cacheKey_inj a b : cacheKey a = cacheKey b -> a = b.
Proof.
  unfold cacheKey. intros Heq.
  apply split_at_x in Heq as [Hw Hh]; try apply pretty_Z_noX.
  apply (inj pretty) in Hw, Hh.
  destruct a, b; simpl in *; congruence.
Qed.

(** *** Calling the wrapped [naturalSize] twice *)

(** What is computed on a miss does not depend on what the cache holds. *)
Lemma naturalSizeWrap_miss_value n v a :
  prevSizeCache v !! cacheKey a = None ->
  fst (naturalSizeWrap n v a)
    = fst (naturalSizeWrap n (set_prevSizeCache ∅ v) a).
Proof.
  intros Hmiss. unfold naturalSizeWrap. rewrite Hmiss.
  destruct v as [p d th c vcs rcs ip vx vy w h mnw mnh mxw mxh pad].
  simpl. rewrite lookup_empty.
  unfold restrictSize, restrictWidth, restrictHeight, toDimension, calcSize,
    bind, ret, this; simpl.
  destruct w as [[w| |]|], h as [[h| |]|]; simpl; reflexivity.
Qed.

Lemma effectiveSize_set_prevSizeCache c v a :
  effectiveSize (set_prevSizeCache c v) a = effectiveSize v a.
Proof. reflexivity. Qed.

(** Two calls in a row with the same available size return the same
  value, whether or not the second one finds the first one's entry. *)
Lemma naturalSizeWrap_twice n v a :
  fst (naturalSizeWrap n (snd (naturalSizeWrap n v a)) a)
    = fst (naturalSizeWrap n v a).
Proof.
  destruct (prevSizeCache v !! cacheKey a) as [cached|] eqn:Hlook.
  - rewrite (naturalSizeWrap_hit _ _ _ _ Hlook). simpl.
    rewrite (naturalSizeWrap_hit _ _ _ _ Hlook). reflexivity.
  - rewrite (naturalSizeWrap_miss _ _ _ Hlook).
    set (r := fst (naturalSizeWrap n v a)).
    set (k := cacheKey (effectiveSize v a)).
    destruct (decide (k = cacheKey a)) as [Hk | Hk].
    + rewrite (naturalSizeWrap_hit _ _ _ r); [reflexivity |].
      simpl. rewrite Hk. apply lookup_insert_eq.
    + rewrite naturalSizeWrap_miss_value.
      * unfold r. rewrite (naturalSizeWrap_miss_value n v a Hlook).
        destruct v; reflexivity.
      * simpl. rewrite lookup_insert_ne by exact Hk. exact Hlook.
Qed.

(** Without an offset the result is stored under the key of the size the
  caller passed, so the second call is a hit. *)
Lemma naturalSizeWrap_cached_without_offset n v a :
  truthy (x v) = false ->
  truthy (y v) = false ->
  prevSizeCache (snd (naturalSizeWrap n v a)) !! cacheKey a
    = Some (fst (naturalSizeWrap n v a)).
Proof.
  intros Hx Hy.
  destruct (prevSizeCache v !! cacheKey a) as [cached|] eqn:Hlook.
  - rewrite (naturalSizeWrap_hit _ _ _ _ Hlook). exact Hlook.
  - rewrite (naturalSizeWrap_miss _ _ _ Hlook). simpl.
    unfold effectiveSize. rewrite Hx, Hy. simpl. apply lookup_insert_eq.
Qed.

(** With an offset that changes the size, the result is stored under the
  key of the shrunk size, and the key of the size the caller passed stays
  free. *)
Lemma naturalSizeWrap_not_cached_with_offset n v a :
  prevSizeCache v !! cacheKey a = None ->
  effectiveSize v a <> a ->
  prevSizeCache (snd (naturalSizeWrap n v a)) !! cacheKey a = None /\
  prevSizeCache (snd (naturalSizeWrap n v a)) !! cacheKey (effectiveSize v a)
    = Some (fst (naturalSizeWrap n v a)).
Proof.
  intros Hlook Hne. rewrite (naturalSizeWrap_miss _ _ _ Hlook). simpl. split.
  - rewrite lookup_insert_ne; [exact Hlook |].
    intros Heq. apply Hne. apply cacheKey_inj. exact Heq.
  - apply lookup_insert_eq.
Qed.

(** *** Width ["fill"] *)

Lemma fill_computed n v a :
  width v = Some Fill ->
  truthy (x v) = false ->
  truthy (y v) = false ->
  prevSizeCache v !! cacheKey a = None ->
  Size.width (fst (naturalSizeWrap n v a)) =
    match height v with
    | Some _ => Z.max 0 (Size.width a)
    | None => Size.width a
    end.
Proof.
  intros Hw Hx Hy Hmiss. unfold naturalSizeWrap. rewrite Hmiss, Hx, Hy.
  unfold restrictSize, restrictWidth, restrictHeight, toDimension, calcSize,
    bind, ret, this; simpl.
  rewrite Hw.
  destruct (height v) as [[h| |]|]; simpl; rewrite ?Hx, ?Hy;
    try reflexivity.
  destruct (minHeight v), (maxHeight v); simpl; rewrite ?Hx, ?Hy;
    reflexivity.
Qed.

(** For a view without offset, constructed with width ["fill"], the
  wrapped [naturalSize] returns the available width at any point of the
  view's history. *)
Lemma fill_width_without_offset
  (props : Props.t) (calls : list Call) (n : Size.t -> Size.t) (A : Size.t) :
  Props.width props = Some Fill ->
  truthy (Props.x props) = false ->
  truthy (Props.y props) = false ->
  0 <= Size.width A ->
  Size.width (fst (naturalSizeWrap n (after calls (View.new props)) A))
    = Size.width A.
Proof.
  intros Hw Hx Hy HA.
  set (v0 := View.new props).
  set (P := fun (k : string) (s : Size.t) =>
              forall a, k = cacheKey a ->
                Size.width s =
                  match Props.height props with
                  | Some _ => Z.max 0 (Size.width a)
                  | None => Size.width a
                  end).
  assert (forall v, layout v = layout v0 ->
            width v = Some Fill /\ truthy (x v) = false /\ truthy (y v) = false
            /\ height v = Props.height props) as Hfields.
  { intros v HLv. destruct (layout_fields v v0 HLv) as (Hvx & Hvy & Hvw & Hvh).
    rewrite Hvx, Hvy, Hvw, Hvh. auto. }
  assert (map_Forall P (prevSizeCache (after calls v0))) as Hinv.
  { apply (cache_ok_after (layout v0)); [| reflexivity | apply map_Forall_empty].
    intros n' v a HLv Hmiss a' Hkey.
    destruct (Hfields v HLv) as (Hvw & Hvx & Hvy & Hvh).
    unfold effectiveSize in Hkey. rewrite Hvx, Hvy in Hkey. simpl in Hkey.
    apply cacheKey_inj in Hkey as <-.
    rewrite (fill_computed _ _ _ Hvw Hvx Hvy Hmiss), Hvh. reflexivity. }
  destruct (Hfields (after calls v0) (layout_after calls v0))
    as (Hvw & Hvx & Hvy & Hvh).
  destruct (prevSizeCache (after calls v0) !! cacheKey A) as [cached|] eqn:Hlook.
  - rewrite (naturalSizeWrap_hit _ _ _ _ Hlook). simpl.
    rewrite (Hinv _ _ Hlook A eq_refl). destruct (Props.height props); lia.
  - rewrite (fill_computed _ _ _ Hvw Hvx Hvy Hlook), Hvh.
    destruct (Props.height props); lia.
Qed.
(** C1 (the code at the failing input).  For a view with an offset that
  changes the available size, the first call of the wrapped [naturalSize]
  stores its result under the key of the shrunk size: the key of the size
  the caller passed stays free, so the second call with the same size is
  not served from the cache; it computes again, and returns the same
  value. *)
Theorem offset_view_second_call_recomputes
  (n : Size.t -> Size.t) (v : View.t) (A : Size.t) :
  prevSizeCache v !! cacheKey A = None ->
  effectiveSize v A <> A ->
  prevSizeCache (snd (naturalSizeWrap n v A)) !! cacheKey A = None /\
  prevSizeCache (snd (naturalSizeWrap n v A)) !! cacheKey (effectiveSize v A)
    = Some (fst (naturalSizeWrap n v A)) /\
  fst (naturalSizeWrap n (snd (naturalSizeWrap n v A)) A)
    = fst (naturalSizeWrap n v A).
Proof.
  intros Hmiss Hne.
  destruct (naturalSizeWrap_not_cached_with_offset n v A Hmiss Hne) as [H1 H2].
  split; [exact H1 | split; [exact H2 | apply naturalSizeWrap_twice]].
Qed.

Lemma offset_view_second_call_recomputes_witness :
  let v := Text.base (Sample.text "hello" (Some 2)) in
  let n := Text.naturalSize (Sample.text "hello" (Some 2)) in
  let A := Size.new 10 1 in
  prevSizeCache (snd (naturalSizeWrap n v A)) !! cacheKey A = None /\
  prevSizeCache (snd (naturalSizeWrap n v A)) !! cacheKey (Size.new 8 1)
    = Some (fst (naturalSizeWrap n v A)) /\
  fst (naturalSizeWrap n (snd (naturalSizeWrap n v A)) A)
    = fst (naturalSizeWrap n v A).
Proof.
  apply (offset_view_second_call_recomputes
           (Text.naturalSize (Sample.text "hello" (Some 2)))
           (Text.base (Sample.text "hello" (Some 2)))
           (Size.new 10 1)).
  - vm_compute. reflexivity.
  - vm_compute. discriminate.
Defined.

Lemma fill_offset_computed n v a dx :
  width v = Some Fill ->
  x v = Some dx ->
  0 < dx ->
  truthy (y v) = false ->
  dx <= Size.width a ->
  prevSizeCache v !! cacheKey a = None ->
  Size.width (fst (naturalSizeWrap n v a)) = Size.width a.
Proof.
  intros Hw Hx Hdx Hy Hle Hmiss. unfold naturalSizeWrap. rewrite Hmiss.
  assert (truthy (x v) = true) as Htx.
  { rewrite Hx. simpl. apply negb_true_iff, Z.eqb_neq. lia. }
  rewrite Htx, Hy. simpl.
  unfold restrictSize, restrictWidth, restrictHeight, toDimension, calcSize,
    bind, ret, this; simpl.
  rewrite Hw.
  destruct (height v) as [[h| |]|]; simpl; rewrite ?Htx, ?Hy, ?Hx; simpl;
    try lia.
  destruct (minHeight v), (maxHeight v); simpl; rewrite ?Htx, ?Hy, ?Hx;
    simpl; lia.
Qed.

(** C3 (the code at the failing input).  A view with width ["fill"] and
  an [x] offset [dx > 0] is asked for its natural size at [A]; the result
  is stored under the key of [A] shrunk by the offset.  Asked next at that
  shrunk size, the view answers from this entry: the width it returns is
  the width of [A], which is [dx] more than the available width. *)
Theorem fill_width_stale_after_offset_call
  (n : Size.t -> Size.t) (v : View.t) (A : Size.t) (dx : Z) :
  width v = Some Fill ->
  x v = Some dx ->
  0 < dx ->
  truthy (y v) = false ->
  dx <= Size.width A ->
  prevSizeCache v !! cacheKey A = None ->
  Size.width
    (fst (naturalSizeWrap n (snd (naturalSizeWrap n v A)) (Size.shrink A dx 0)))
    = Size.width A /\
  Size.width (Size.shrink A dx 0) = Size.width A - dx.
Proof.
  intros Hw Hx Hdx Hy Hle Hmiss. split.
  - assert (effectiveSize v A = Size.shrink A dx 0) as Heff.
    { unfold effectiveSize. rewrite Hx, Hy, (truthy_false_orZero _ Hy).
      simpl. destruct (dx =? 0) eqn:E; [apply Z.eqb_eq in E; lia |].
      reflexivity. }
    rewrite (naturalSizeWrap_hit _ _ _ (fst (naturalSizeWrap n v A))).
    + simpl. apply (fill_offset_computed n v A dx); assumption.
    + rewrite (naturalSizeWrap_miss _ _ _ Hmiss). simpl.
      rewrite Heff. apply lookup_insert_eq.
  - simpl. lia.
Qed.

Definition fillOffsetProps : Props.t :=
  Props.mk None (Some 2) None (Some Fill) None None None None None None None.

Lemma fill_width_stale_after_offset_call_witness :
  let n := fun _ : Size.t => Size.new 5 1 in
  let v := View.new fillOffsetProps in
  Size.width
    (fst (naturalSizeWrap n (snd (naturalSizeWrap n v (Size.new 10 5)))
            (Size.shrink (Size.new 10 5) 2 0)))
    = Size.width (Size.new 10 5) /\
  Size.width (Size.shrink (Size.new 10 5) 2 0) = Size.width (Size.new 10 5) - 2.
Proof.
  apply (fill_width_stale_after_offset_call
           (fun _ => Size.new 5 1) (View.new fillOffsetProps)
           (Size.new 10 5) 2).
  - reflexivity.
  - reflexivity.
  - lia.
  - reflexivity.
  - vm_compute. discriminate.
  - vm_compute. reflexivity.
Defined.
End ViewFacts.

(** ** Properties of [Text] *)

Module TextFacts.
Import Text.

Section WithExternals.
Context {Style : Type}.
Context (lineWidth : string -> Z).
Context (charWidth : string -> Z).
Context (printableChars : string -> list string).
Context (fromSGR : string -> Style).
Context (merge : Style -> option Style -> Style).
Context (themeText : Theme.t -> Style).
Context (FONTS : string -> option (ascii -> option string)).

Abbreviation Text := (Text.t (Style := Style)).
Abbreviation renderChar := (Text.renderChar charWidth fromSGR).
Abbreviation renderLine := (Text.renderLine charWidth printableChars fromSGR).
Abbreviation render :=
  (Text.render charWidth printableChars fromSGR merge themeText).
Abbreviation set_text := (Text.set_text lineWidth FONTS).

(** Setting the text to a different string empties the size cache, so
  the next call of the wrapped [naturalSize] computes from the new
  lines. *)
Lemma set_text_clears_cache (this : Text) (value : string) :
  text this <> value ->
  View.prevSizeCache (base (set_text value this)) = ∅ /\
  text (set_text value this) = value.
Proof.
  intros Hne. unfold Text.set_text.
  destruct (String.eqb (text this) value) eqn:E.
  - apply String.eqb_eq in E. contradiction.
  - unfold updateLines. simpl.
    split; [| reflexivity].
    destruct (base this); reflexivity.
Qed.

(** Setting the text to the string it already is changes nothing. *)
Lemma set_text_same (this : Text) : set_text (text this) this = this.
Proof. unfold Text.set_text. rewrite String.eqb_refl. reflexivity. Qed.

(** *** Style tokens in [render] *)

Lemma renderChar_token (this : Text) viewport st tok :
  charWidth tok = 0 ->
  renderChar this viewport st tok
    = mkPass (fromSGR tok) (point st) (didWrap st) (writes st).
Proof.
  intros Hw. unfold Text.renderChar. rewrite Hw. reflexivity.
Qed.

(** A character that is not a token adds at most one call of [write],
  of that character, with the pen in force; whether it is written, where
  it goes and where the point moves to do not depend on the pen. *)
Lemma renderChar_printed (this : Text) viewport st c :
  charWidth c <> 0 ->
  exists q p' d' (shown : bool),
    forall pen0,
      renderChar this viewport
        (mkPass pen0 (point st) (didWrap st) (writes st)) c
      = mkPass pen0 p' d'
          (writes st ++ if shown then [mkWrite c q pen0] else []).
Proof.
  intros Hw. apply Z.eqb_neq in Hw.
  unfold Text.renderChar. rewrite Hw. simpl.
  destruct (wrap this
            && (Size.width (Viewport.contentSize viewport)
                  <=? Point.x (point st))); simpl.
  - destruct (matchesSpace c); simpl.
    + exists Point.zero, (Point.mk 0 (Point.y (point st) + 1)), true, false.
      intros pen0. rewrite app_nil_r. reflexivity.
    + destruct ((Rect.minX (Viewport.visibleRect viewport) <=? 0)
                && (0 + charWidth c - 1
                      <? Rect.maxX (Viewport.visibleRect viewport))).
      * eexists _, _, _, true. intros pen0. simpl. reflexivity.
      * eexists Point.zero, _, _, false. intros pen0.
        rewrite app_nil_r. simpl. reflexivity.
  - destruct (didWrap st && matchesSpace c); simpl.
    + exists Point.zero, (point st), (didWrap st), false.
      intros pen0. rewrite app_nil_r. reflexivity.
    + destruct ((Rect.minX (Viewport.visibleRect viewport)
                   <=? Point.x (point st))
                && (Point.x (point st) + charWidth c - 1
                      <? Rect.maxX (Viewport.visibleRect viewport))).
      * eexists _, _, _, true. intros pen0. simpl. reflexivity.
      * eexists Point.zero, _, _, false. intros pen0.
        rewrite app_nil_r. simpl. reflexivity.
Qed.

Lemma pass_eta (st : Pass (Style := Style)) :
  mkPass (pen st) (point st) (didWrap st) (writes st) = st.
Proof. destruct st; reflexivity. Qed.

(** C7.  A token of width zero replaces the pen and changes nothing
  else: the point stays where it is and no [write] is made.  The character
  after the token therefore lands on the cell it would have had without
  the token, the point ends where it would have ended, and when that
  character is written it is written with the style of the token. *)
Theorem style_token_takes_no_cell
  (this : Text) (viewport : Viewport.t) (st : Pass) (tok c : string) :
  charWidth tok = 0 ->
  charWidth c <> 0 ->
  let st1 := renderChar this viewport st tok in
  pen st1 = fromSGR tok /\
  point st1 = point st /\
  didWrap st1 = didWrap st /\
  writes st1 = writes st /\
  point (renderChar this viewport st1 c) = point (renderChar this viewport st c) /\
  (writes (renderChar this viewport st1 c) = writes st /\
   writes (renderChar this viewport st c) = writes st
   \/ exists q,
       writes (renderChar this viewport st1 c)
         = writes st ++ [mkWrite c q (fromSGR tok)] /\
       writes (renderChar this viewport st c)
         = writes st ++ [mkWrite c q (pen st)]).
Proof.
  intros Htok Hc st1. unfold st1.
  rewrite (renderChar_token this viewport st tok Htok). simpl.
  repeat (split; [reflexivity |]).
  destruct (renderChar_printed this viewport st c Hc)
    as (q & p' & d' & shown & Hrun).
  pose proof (Hrun (pen st)) as H2. rewrite pass_eta in H2.
  rewrite (Hrun (fromSGR tok)), H2. simpl.
  split; [reflexivity |].
  destruct shown.
  - right. exists q. split; reflexivity.
  - left. rewrite app_nil_r. split; reflexivity.
Qed.

(** Along a line: with the token in it or without it, the characters
  after the token start from the same point and the same calls of
  [write]; only the pen differs. *)
Lemma renderLine_chars_token (this : Text) viewport st pre tok rest :
  charWidth tok = 0 ->
  foldl (renderChar this viewport) st (pre ++ tok :: rest)
    = foldl (renderChar this viewport)
        (let st' := foldl (renderChar this viewport) st pre in
         mkPass (fromSGR tok) (point st') (didWrap st') (writes st'))
        rest.
Proof.
  intros Htok. rewrite foldl_app. simpl.
  rewrite (renderChar_token this viewport _ tok Htok). reflexivity.
Qed.

(** *** Degenerate geometry *)


Lemma truncDiv_zero a : truncDiv a 0 = 0.
Proof. reflexivity. Qed.



End WithExternals.
End TextFacts.

(** ** Properties of painting through a viewport *)

Module PaintingFacts.
Import Painting.

Section WithStyle.
Context {Style : Type}.

Abbreviation Frame := (Painting.Frame).
Abbreviation Paint := (Painting.Paint (Style := Style)).
Abbreviation Screen := (Painting.Screen (Style := Style)).










End WithStyle.
End PaintingFacts.

(** ** Degenerate geometry *)

Module DegenerateFacts.
Import Text Painting.

End DegenerateFacts.

(** ** Properties of the overlay placement *)

Module DropdownFacts.
Import DropdownSelector.

(** C6.  The placement of the overlay: when it fits below, below; when
  it does not fit below but fits above, above; when it fits on neither
  side, the side with strictly more room, and below when both sides have
  the same room.  In the last case the overlay takes the height of the
  room on the chosen side. *)
Theorem overlay_placement (naturalSize : Size.t) (viewport : Viewport.t) :
  (fitsBelow naturalSize viewport = true ->
   place naturalSize viewport
     = (below, Size.height (natural naturalSize viewport))) /\
  (fitsBelow naturalSize viewport = false ->
   fitsAbove naturalSize viewport = true ->
   place naturalSize viewport
     = (above, Size.height (natural naturalSize viewport))) /\
  (fitsBelow naturalSize viewport = false ->
   fitsAbove naturalSize viewport = false ->
   spaceBelow viewport < spaceAbove viewport ->
   place naturalSize viewport = (above, spaceAbove viewport)) /\
  (fitsBelow naturalSize viewport = false ->
   fitsAbove naturalSize viewport = false ->
   spaceAbove viewport < spaceBelow viewport ->
   place naturalSize viewport = (below, spaceBelow viewport)) /\
  (fitsBelow naturalSize viewport = false ->
   fitsAbove naturalSize viewport = false ->
   spaceAbove viewport = spaceBelow viewport ->
   place naturalSize viewport = (below, spaceBelow viewport)).
Proof.
  unfold place. repeat split.
  - intros ->. reflexivity.
  - intros -> ->. reflexivity.
  - intros -> -> H. simpl. apply Z.ltb_lt in H. rewrite H. reflexivity.
  - intros -> -> H. simpl.
    destruct (spaceBelow viewport <? spaceAbove viewport) eqn:E;
      [apply Z.ltb_lt in E; lia | reflexivity].
  - intros -> -> H. simpl. rewrite H, Z.ltb_irrefl. reflexivity.
Qed.

(** An anchor in the middle of a screen of ten rows: five rows of room
  on either side, and an overlay that wants ten. *)
Definition tiedViewport : Viewport.t :=
  Viewport.mk (Size.new 20 10)
    (Rect.mk Point.zero (Size.new 20 10))
    (Rect.mk (Point.mk 3 4) (Size.new 8 2)).

Lemma overlay_placement_witness :
  place (Size.new 8 10) tiedViewport = (below, 5).
Proof.
  apply (proj2 (proj2 (proj2 (proj2
           (overlay_placement (Size.new 8 10) tiedViewport)))));
    reflexivity.
Defined.
End DropdownFacts.

(** ** Running [Text] on the sample terminal *)

Module SampleFacts.
Import Text.

Definition boldOn : string := String Sample.ESC "[1m".

Definition styledText : Text.t (Style := Sample.Style) :=
  Sample.text ("ab" +:+ boldOn +:+ "cd") None.

Definition row : Viewport.t :=
  Viewport.mk (Size.new 10 1)
    (Rect.mk Point.zero (Size.new 10 1)) (Rect.mk Point.zero (Size.new 10 1)).


(** The cell stream of ["ab" ESC[1m "cd"]: four cells, the style changing
  at the third. *)
Example styled_text_cells :
  Text.render Sample.charWidth Sample.printableChars Sample.fromSGR
    Sample.merge Sample.themeText styledText row
  = [ mkWrite "a" (Point.mk 0 0) "";
      mkWrite "b" (Point.mk 1 0) "";
      mkWrite "c" (Point.mk 2 0) boldOn;
      mkWrite "d" (Point.mk 3 0) boldOn ].
Proof. vm_compute. reflexivity. Qed.

Definition rowFrame : Painting.Frame := Painting.mkFrame (Point.mk 5 3) row.

(** Read back from the screen: the row starts at column 5 of line 3; the
  cell of ["c"], two columns in, carries the new style and the cell before
  it the old one; the token has taken no cell. *)
Example styled_text_screen :
  let screen :=
    Painting.paintAll rowFrame
      (Painting.ofWrites
         (Text.render Sample.charWidth Sample.printableChars Sample.fromSGR
            Sample.merge Sample.themeText styledText row))
      ∅ in
  (fun at_ => screen !! at_) <$> [(5, 3); (6, 3); (7, 3); (8, 3); (9, 3)]
  = [ Some ("a"%char, EmptyString); Some ("b"%char, EmptyString);
      Some ("c"%char, boldOn); Some ("d"%char, boldOn); None ].
Proof. vm_compute. reflexivity. Qed.

(** A new text clears the cache, and the next call answers for it. *)
Example text_change_recomputes :
  let t0 := Sample.text "hello" None in
  let '(s1, t1) := Text.wrappedNaturalSize t0 (Size.new 20 1) in
  let t2 := Text.set_text Sample.lineWidth Sample.FONTS "hello world" t1 in
  s1 = Size.mk 5 1 /\
  View.prevSizeCache (Text.base t1) !! View.cacheKey (Size.new 20 1)
    = Some (Size.mk 5 1) /\
  View.prevSizeCache (Text.base t2) = ∅ /\
  fst (Text.wrappedNaturalSize t2 (Size.new 20 1)) = Size.mk 11 1.
Proof. vm_compute. repeat split; reflexivity. Qed.

Lemma style_token_takes_no_cell_witness :
  let st := mkPass "" (Point.mk 2 0) false [] in
  let st1 :=
    Text.renderChar Sample.charWidth Sample.fromSGR styledText row st boldOn in
  pen st1 = Sample.fromSGR boldOn /\
  point st1 = point st /\
  didWrap st1 = didWrap st /\
  writes st1 = writes st /\
  point (Text.renderChar Sample.charWidth Sample.fromSGR styledText row st1 "c")
    = point (Text.renderChar Sample.charWidth Sample.fromSGR styledText row st "c") /\
  (writes (Text.renderChar Sample.charWidth Sample.fromSGR styledText row st1 "c")
     = writes st /\
   writes (Text.renderChar Sample.charWidth Sample.fromSGR styledText row st "c")
     = writes st
   \/ exists q,
       writes (Text.renderChar Sample.charWidth Sample.fromSGR styledText row st1 "c")
         = writes st ++ [mkWrite "c" q (Sample.fromSGR boldOn)] /\
       writes (Text.renderChar Sample.charWidth Sample.fromSGR styledText row st "c")
         = writes st ++ [mkWrite "c" q (pen st)]).
Proof.
  apply (TextFacts.style_token_takes_no_cell Sample.charWidth Sample.fromSGR
           styledText row (mkPass "" (Point.mk 2 0) false []) boldOn "c").
  - reflexivity.
  - vm_compute. discriminate.
Defined.

End SampleFacts.

(** ** Properties of the accordion *)

Module AccordionFacts.
Import Accordion.

(** A section after [close()]. *)
Definition shut (s : Section) : Section := mkSection false (onClick s).

Definition closeOne (id : nat) (w : World) : World :=
  set_heap (alter shut id (heap w)) w.

Definition closeAll (skip : nat -> bool) (ids : list nat) (w : World) : World :=
  foldl (fun w id => if skip id then w else closeOne id w) w ids.

Lemma set_heap_same w : set_heap (heap w) w = w.
Proof. destruct w; reflexivity. Qed.

Lemma shut_idempotent (o : option Section) : shut <$> (shut <$> o) = shut <$> o.
Proof. destruct o; reflexivity. Qed.

Lemma insert_as_alter (h : gmap nat Section) id s :
  h !! id = Some s ->
  <[id := mkSection false (onClick s)]> h = alter shut id h.
Proof.
  intros Hs. apply map_eq. intros k.
  rewrite lookup_insert, lookup_alter.
  case_decide; [subst; rewrite Hs |]; reflexivity.
Qed.

(** With fuel for the call and for the callback it makes, [close()]
  returns, and all it has done is to shut the section. *)
Lemma set_isOpen_false fuel id w :
  set_isOpen (S (S fuel)) id false w = Some (closeOne id w).
Proof.
  unfold closeOne. cbn [set_isOpen].
  destruct (heap w !! id) as [s|] eqn:Hs.
  - destruct (isOpen s) eqn:Ho; cbn [Bool.eqb].
    + rewrite (insert_as_alter _ _ _ Hs).
      destruct (onClick s) as [[| k] |]; try reflexivity.
      cbn [sectionDidChange]. cbn [negb]. rewrite orb_true_r. reflexivity.
    + rewrite alter_id; [rewrite set_heap_same; reflexivity |].
      intros s' Hs'. rewrite Hs in Hs'. injection Hs' as <-.
      destruct s as [o c]. simpl in Ho. subst o. reflexivity.
  - rewrite alter_id; [rewrite set_heap_same; reflexivity |].
    intros s' Hs'. congruence.
Qed.

Lemma forEach_closeAll fuel (skip : nat -> bool) ids w :
  forEach
    (fun section w =>
       if skip section then Some w
       else set_isOpen (S (S fuel)) section false w)
    ids w
  = Some (closeAll skip ids w).
Proof.
  revert w. induction ids as [| id ids IH]; intros w; [reflexivity |].
  cbn [forEach]. unfold closeAll. cbn [foldl].
  destruct (skip id).
  - apply IH.
  - rewrite set_isOpen_false. apply IH.
Qed.

(** One world comes from another by shutting some sections. *)
Definition shutSome (w w' : World) : Prop :=
  children w' = children w /\
  multiple w' = multiple w /\
  forall k, heap w' !! k = heap w !! k \/ heap w' !! k = shut <$> heap w !! k.

Lemma shutSome_refl w : shutSome w w.
Proof. repeat split. intros k. left. reflexivity. Qed.

Lemma shutSome_trans w1 w2 w3 : shutSome w1 w2 -> shutSome w2 w3 -> shutSome w1 w3.
Proof.
  intros (Hc1 & Hm1 & Hh1) (Hc2 & Hm2 & Hh2).
  repeat split; [congruence | congruence |].
  intros k. destruct (Hh1 k) as [E1 | E1], (Hh2 k) as [E2 | E2];
    rewrite E2, E1, ?shut_idempotent; auto.
Qed.

Lemma shutSome_closeOne id w : shutSome w (closeOne id w).
Proof.
  repeat split. intros k. unfold closeOne. simpl.
  rewrite lookup_alter. case_decide; [subst; right | left]; reflexivity.
Qed.

Lemma shutSome_closeAll skip ids w : shutSome w (closeAll skip ids w).
Proof.
  revert w. induction ids as [| id ids IH]; intros w; [apply shutSome_refl |].
  unfold closeAll. cbn [foldl]. destruct (skip id).
  - apply IH.
  - eapply shutSome_trans; [apply shutSome_closeOne | apply IH].
Qed.

Lemma closeAll_shuts skip ids w k :
  k ∈ ids -> skip k = false ->
  heap (closeAll skip ids w) !! k = shut <$> heap w !! k.
Proof.
  revert w. induction ids as [| id ids IH]; intros w Hin Hskip.
  - apply elem_of_nil in Hin. contradiction.
  - unfold closeAll. cbn [foldl].
    destruct (decide (k = id)) as [-> | Hne].
    + rewrite Hskip.
      destruct (shutSome_closeAll skip ids (closeOne id w)) as (_ & _ & Hh).
      fold (closeAll skip ids (closeOne id w)).
      destruct (Hh id) as [E | E]; rewrite E; unfold closeOne; simpl;
        rewrite lookup_alter_eq, ?shut_idempotent; reflexivity.
    + apply elem_of_cons in Hin as [-> | Hin]; [contradiction |].
      fold (closeAll skip ids (if skip id then w else closeOne id w)).
      rewrite (IH _ Hin Hskip).
      destruct (skip id); [reflexivity |].
      unfold closeOne. simpl. rewrite lookup_alter_ne by congruence.
      reflexivity.
Qed.

(** *** The invariant *)

(** Every section of the accordion exists and reports to the accordion. *)
Definition wired (w : World) : Prop :=
  forall id, id ∈ sections w ->
    exists s, heap w !! id = Some s /\ onClick s = Some boundSectionDidChange.

Definition isOpenIn (w : World) (id : nat) : Prop :=
  exists s, heap w !! id = Some s /\ isOpen s = true.

(** At most one section of the accordion is open. *)
Definition atMostOneOpen (w : World) : Prop :=
  forall i j, i ∈ sections w -> j ∈ sections w ->
    isOpenIn w i -> isOpenIn w j -> i = j.

Definition Inv (w : World) : Prop :=
  multiple w = false /\ wired w /\ atMostOneOpen w.

Lemma sections_children w w' : children w' = children w -> sections w' = sections w.
Proof. unfold sections. intros ->. reflexivity. Qed.






Lemma elem_of_sections w id : id ∈ sections w <-> section id ∈ children w.
Proof.
  unfold sections. rewrite list_elem_of_omap. split.
  - intros ([id' | id'] & Hin & Heq); [| discriminate].
    injection Heq as ->. exact Hin.
  - intros Hin. exists (section id). auto.
Qed.

(** *** A mouse event on a section *)


(** *** Opening a section closes the others *)

Lemma closeAll_skipped skip ids w k :
  skip k = true -> heap (closeAll skip ids w) !! k = heap w !! k.
Proof.
  intros Hskip. revert w. induction ids as [| id ids IH]; intros w;
    [reflexivity |].
  unfold closeAll. cbn [foldl].
  fold (closeAll skip ids (if skip id then w else closeOne id w)).
  rewrite IH. destruct (skip id) eqn:E; [reflexivity |].
  unfold closeOne. simpl. apply lookup_alter_ne. congruence.
Qed.

(** A click on a closed section of the accordion opens it and leaves no
  other section of the accordion open. *)
Lemma click_opens_and_closes_others fuel id w s :
  Inv w ->
  id ∈ sections w ->
  heap w !! id = Some s ->
  isOpen s = false ->
  exists w',
    receiveMouse (S (S (S fuel))) id click w = Some w' /\
    sections w' = sections w /\
    forall j, j ∈ sections w' -> isOpenIn w' j <-> j = id.
Proof.
  intros (Hmul & Hw & _) Hin Hs Ho.
  destruct (Hw id Hin) as (s' & Hs' & Hclick).
  rewrite Hs in Hs'. injection Hs' as <-.
  unfold receiveMouse. cbn [isMouseClicked]. rewrite Hs.
  set (w1 := set_heap (<[id := mkSection (negb (isOpen s)) (onClick s)]> (heap w)) w).
  assert (heap w1 !! id = Some (mkSection (negb (isOpen s)) (onClick s))) as Hid
    by apply lookup_insert_eq.
  unfold callOnClick. rewrite Hid. cbn [onClick]. rewrite Hclick.
  cbn [sectionDidChange].
  replace (multiple w1) with false by (symmetry; exact Hmul).
  rewrite Ho. cbn [negb orb].
  rewrite (forEach_closeAll fuel (Nat.eqb id)).
  eexists. split; [reflexivity |].
  pose proof (shutSome_closeAll (Nat.eqb id) (sections w1) w1) as (Hc & _ & _).
  split; [apply (sections_children _ _ Hc) |].
  intros j Hj. rewrite (sections_children _ _ Hc) in Hj. split.
  - intros (sj & Hsj & Hoj).
    destruct (decide (j = id)) as [-> | Hne]; [reflexivity |].
    rewrite closeAll_shuts in Hsj; [| exact Hj | apply Nat.eqb_neq; congruence].
    destruct (heap w1 !! j); [| discriminate].
    injection Hsj as <-. discriminate.
  - intros ->. eexists. split.
    + rewrite closeAll_skipped by apply Nat.eqb_refl. exact Hid.
    + rewrite Ho. reflexivity.
Qed.

Section WithContainer.
Context (add : list Child -> Child -> list Child).

(** What is asked of the absent [Container.add]: the children after
  [add(child)] are [child] and children there were before. *)
Hypothesis add_members :
  forall children child c, c ∈ add children child -> c = child \/ c ∈ children.

Lemma sections_after_add w id i :
  i ∈ sections (set_children (add (children w) (section id)) w) ->
  i = id \/ i ∈ sections w.
Proof.
  rewrite !elem_of_sections. simpl. intros Hin.
  destruct (add_members _ _ _ Hin) as [Heq | Hold]; [left | right].
  - congruence.
  - exact Hold.
Qed.


(** Addition of an open section: whatever was open in the accordion is
  closed, and only the new section can be open. *)
Lemma addSection_open_closes_others fuel id w s :
  Inv w ->
  heap w !! id = Some s ->
  isOpen s = true ->
  exists w',
    addSection add (S (S fuel)) id w = Some w' /\
    forall j, j ∈ sections w' -> isOpenIn w' j -> j = id /\ id ∉ sections w.
Proof.
  intros (Hmul & _ & _) Hs Ho.
  unfold addSection. rewrite Hs.
  set (w1 := set_heap (<[id := mkSection (isOpen s) (Some boundSectionDidChange)]> (heap w)) w).
  replace (multiple w1) with false by (symmetry; exact Hmul).
  rewrite Ho. cbn [negb andb].
  assert (forEach (fun section w => set_isOpen (S (S fuel)) section false w)
            (sections w1) w1
          = Some (closeAll (fun _ => false) (sections w1) w1)) as ->
    by exact (forEach_closeAll fuel (fun _ => false) (sections w1) w1).
  eexists. split; [reflexivity |].
  set (wAll := closeAll (fun _ => false) (sections w1) w1).
  pose proof (shutSome_closeAll (fun _ => false) (sections w1) w1)
    as (Hc & _ & _).
  fold wAll in Hc.
  assert (sections wAll = sections w) as Hsec
    by (rewrite (sections_children _ _ Hc); reflexivity).
  assert (forall i, i ∈ sections w -> ~ isOpenIn wAll i) as Hshut.
  { intros i Hin (si & Hsi & Hoi). unfold wAll in Hsi.
    rewrite closeAll_shuts in Hsi; [| exact Hin | reflexivity].
    destruct (heap w1 !! i); [| discriminate].
    injection Hsi as <-. discriminate. }
  intros j Hj Hoj. apply sections_after_add in Hj. rewrite Hsec in Hj.
  destruct Hj as [-> | Hj]; [| destruct (Hshut j Hj Hoj)].
  split; [reflexivity |]. intros Hin. exact (Hshut id Hin Hoj).
Qed.





End WithContainer.
(** [Container.add] as appending at the end. *)
Definition append (children : list Child) (child : Child) : list Child :=
  children ++ [child].


(** Two sections that were both opened before they are given to the
  accordion. *)
Definition twoOpen : gmap nat Section :=
  {[ 1%nat := mkSection true None; 2%nat := mkSection true None ]}.

Definition session : list Op :=
  [ opAddSection 1; opAddSection 2; opAddTitled "third";
    opReceiveMouse 1 click ].

Example session_result :
  (fun w => (sections w, (fun id => isOpen <$> heap w !! id) <$> sections w))
    <$> run append 3 session (new twoOpen None)
  = Some ([1; 2; 3]%nat, [Some true; Some false; Some false]).
Proof. vm_compute. reflexivity. Qed.

End AccordionFacts.

(** * Further coverage

  ** The view base class, continued *)

(** [moveToScreen] and the lifecycle hooks it calls.  A screen is known by
  its identity; the hooks of the base class do nothing, a subclass may
  override them, so what is kept is the sequence of hook calls. *)
Module Lifecycle.
Inductive Hook := didMount (screen : nat) | didUnmount (screen : nat).

Record t := mk {
  screen : option nat;            (* #screen *)
  hooks : list Hook;              (* calls made so far, oldest first *)
}.

(** A view that has never been on a screen. *)
Definition initial : t := mk None [].

(** [moveToScreen(screen)]; [prev!] is [prev], which is not [null] where
  it is used ([this.#screen !== screen] and [screen] is [null]). *)
Definition moveToScreen (screen_ : option nat) (this : t) : t :=
  if decide (screen this = screen_) then this
  else
    let prev := screen this in
    match screen_ with
    | Some s =>
        let unmount :=
          match prev with
          | Some p => [didUnmount p]
          | None => []
          end in
        mk screen_ (hooks this ++ unmount ++ [didMount s])
    | None =>
        match prev with
        | Some p => mk None (hooks this ++ [didUnmount p])
        | None => mk None (hooks this)
        end
    end.

(** What a sequence of hook calls amounts to, read from a view that is on
  screen [on]: the screen the view is on afterwards, when every
  [didUnmount] names the screen the view is on and every [didMount] finds
  the view on none. *)
Fixpoint replay (on : option nat) (calls : list Hook) : option (option nat) :=
  match calls with
  | [] => Some on
  | didMount s :: more =>
      match on with
      | None => replay (Some s) more
      | Some _ => None
      end
  | didUnmount s :: more =>
      match on with
      | Some p => if Nat.eqb p s then replay None more else None
      | None => None
      end
  end.
End Lifecycle.

Module ViewMoreFacts.
Import Props View ViewFacts.

(** *** [#restrictSize] without its state

  Whether the body asks [calcSize] for its value, and the size it returns
  when that value is [calc]. *)
Definition isNatural (dim : option Dimension) : bool :=
  match dim with
  | Some Natural => true
  | _ => false
  end.

Definition forcesCalc (v : View.t) (prefer : Prefer) : bool :=
  isNatural (width v) || isNatural (height v)
  || match prefer, width v, height v with
     | shrink, None, _ | shrink, _, None => true
     | _, _, _ => false
     end.

Definition pick (dim : Dimension) (available natural : Z) : Z :=
  match dim with
  | Fill => available
  | Natural => natural
  | Num n => n
  end.

Definition clamp (lo hi : option Z) (n : Z) : Z :=
  let n := match lo with Some m => Z.max m n | None => n end in
  match hi with Some m => Z.min m n | None => n end.

Definition resolve (v : View.t) (calc availableSize : Size.t)
  (prefer : Prefer) : Size.t :=
  match width v, height v with
  | Some w, Some h =>
      Size.new (pick w (Size.width availableSize) (Size.width calc))
               (pick h (Size.height availableSize) (Size.height calc))
  | _, _ =>
      let base := match prefer with shrink => calc | grow => availableSize end in
      Size.mk
        (match width v with
         | Some w => pick w (Size.width availableSize) (Size.width calc)
         | None => clamp (minWidth v) (maxWidth v) (Size.width base)
         end)
        (match height v with
         | Some h => pick h (Size.height availableSize) (Size.height calc)
         | None => clamp (minHeight v) (maxHeight v) (Size.height base)
         end)
  end.

Lemma restrictSize_resolve f a p v :
  restrictSize f a p v =
    if forcesCalc v p
    then (resolve v (fst (f v)) a p, snd (f v))
    else (resolve v Size.zero a p, v).
Proof.
  unfold restrictSize, restrictWidth, restrictHeight, toDimension, calcSize,
    bind, ret, this, forcesCalc, resolve, clamp, isNatural; simpl.
  destruct (f v) as [c v'] eqn:Hf; simpl.
  destruct (width v) as [[w| |]|], (height v) as [[h| |]|], p; simpl;
    rewrite ?Hf; simpl;
    repeat match goal with
           | |- context [match ?o with Some _ => _ | None => _ end] =>
               destruct o
           end;
    destruct c, a; reflexivity.
Qed.
Lemma resolve_not_forced v c1 c2 a p :
  forcesCalc v p = false -> resolve v c1 a p = resolve v c2 a p.
Proof.
  unfold forcesCalc, resolve, isNatural.
  destruct (width v) as [[w| |]|], (height v) as [[h| |]|], p; simpl;
    intros H; try discriminate H; reflexivity.
Qed.

(** The subclass's natural size with the padding around it. *)
Definition padded (n : Size.t -> Size.t) (v : View.t) (a : Size.t) : Size.t :=
  match padding v with
  | Some p => Size.grow (n a) (left p + right p) (top p + bottom p)
  | None => n a
  end.

(** The wrapped [naturalSize] in closed form. *)
Lemma naturalSizeWrap_value n v a :
  fst (naturalSizeWrap n v a) =
    match prevSizeCache v !! cacheKey a with
    | Some cached => cached
    | None =>
        addOffset (x v) (y v)
          (resolve v (padded n v (effectiveSize v a)) (effectiveSize v a) shrink)
    end.
Proof.
  unfold naturalSizeWrap.
  destruct (prevSizeCache v !! cacheKey a) as [cached|]; [reflexivity |].
  fold (effectiveSize v a).
  rewrite restrictSize_resolve. simpl.
  destruct (forcesCalc v shrink) eqn:Hf; simpl.
  - reflexivity.
  - unfold addOffset.
    rewrite (resolve_not_forced v Size.zero
               (padded n v (effectiveSize v a)) _ _ Hf).
    reflexivity.
Qed.

Lemma layout_all v v' :
  layout v = layout v' ->
  x v = x v' /\ y v = y v' /\ width v = width v' /\ height v = height v' /\
  minWidth v = minWidth v' /\ minHeight v = minHeight v' /\
  maxWidth v = maxWidth v' /\ maxHeight v = maxHeight v' /\
  padding v = padding v'.
Proof. unfold layout. intros [=]. repeat split; assumption. Qed.

Lemma effectiveSize_layout v v' a :
  layout v = layout v' -> effectiveSize v a = effectiveSize v' a.
Proof.
  intros H. destruct (layout_all _ _ H) as (Hx & Hy & _).
  unfold effectiveSize. rewrite Hx, Hy. reflexivity.
Qed.

(** X1.  Asking a view twice in a row for its natural size at the same
  available size is a fixed point: the second call returns the value of the
  first and leaves the view exactly as the first left it. *)
Theorem naturalSize_repeat_fixpoint
  (n : Size.t -> Size.t) (v : View.t) (a : Size.t) :
  naturalSizeWrap n (snd (naturalSizeWrap n v a)) a
    = (fst (naturalSizeWrap n v a), snd (naturalSizeWrap n v a)).
Proof.
  destruct (prevSizeCache v !! cacheKey a) as [cached|] eqn:Hlook.
  - rewrite (naturalSizeWrap_hit _ _ _ _ Hlook). simpl.
    apply naturalSizeWrap_hit. exact Hlook.
  - pose proof (naturalSizeWrap_twice n v a) as Hval.
    rewrite (naturalSizeWrap_miss _ _ _ Hlook) in *.
    set (r := fst (naturalSizeWrap n v a)) in *.
    set (k := cacheKey (effectiveSize v a)) in *.
    set (v1 := set_prevSizeCache (<[k := r]> (prevSizeCache v)) v) in *.
    destruct (prevSizeCache v1 !! cacheKey a) as [c1|] eqn:Hl1.
    + rewrite (naturalSizeWrap_hit _ _ _ _ Hl1) in *. simpl in Hval.
      subst c1. reflexivity.
    + rewrite (surjective_pairing (naturalSizeWrap n v1 a)).
      rewrite Hval. f_equal.
      rewrite (naturalSizeWrap_miss _ _ _ Hl1), Hval.
      unfold v1. simpl.
      rewrite (effectiveSize_set_prevSizeCache _ v a). fold k.
      rewrite insert_insert_eq. reflexivity.
Qed.

Definition isNaturalSizeCall (c : Call) : Prop :=
  match c with
  | callNaturalSize _ _ => True
  | _ => False
  end.

Lemma lookup_kept_by_naturalSizeWrap n v a k r :
  truthy (x v) = false ->
  truthy (y v) = false ->
  prevSizeCache v !! k = Some r ->
  prevSizeCache (snd (naturalSizeWrap n v a)) !! k = Some r.
Proof.
  intros Hx Hy Hk.
  destruct (prevSizeCache v !! cacheKey a) as [cached|] eqn:Hlook.
  - rewrite (naturalSizeWrap_hit _ _ _ _ Hlook). exact Hk.
  - rewrite (naturalSizeWrap_miss _ _ _ Hlook). simpl.
    unfold effectiveSize. rewrite Hx, Hy. simpl.
    rewrite lookup_insert_ne; [exact Hk |]. intros <-. congruence.
Qed.

(** X2.  For a view without offset, an answer once given stays: after
  [naturalSize(A)] has returned, any number of further [naturalSize] calls,
  at any sizes and even with a subclass method whose result has changed
  in the meantime, leave [naturalSize(A)] returning that same value.  Only
  an invalidation can bring a new answer. *)
Theorem cached_answer_persists
  (n n' : Size.t -> Size.t) (v : View.t) (A : Size.t) (calls : list Call) :
  truthy (x v) = false ->
  truthy (y v) = false ->
  Forall isNaturalSizeCall calls ->
  fst (naturalSizeWrap n' (after calls (snd (naturalSizeWrap n v A))) A)
    = fst (naturalSizeWrap n v A).
Proof.
  intros Hx Hy Hcalls.
  pose proof (naturalSizeWrap_cached_without_offset n v A Hx Hy) as Hentry.
  set (r := fst (naturalSizeWrap n v A)) in *.
  set (v1 := snd (naturalSizeWrap n v A)) in *.
  assert (truthy (x v1) = false /\ truthy (y v1) = false) as [Hx1 Hy1].
  { destruct (layout_all _ _ (layout_naturalSizeWrap n v A))
      as (Ex & Ey & _).
    fold v1 in Ex, Ey. rewrite Ex, Ey. auto. }
  clearbody v1 r. clear Hx Hy.
  revert v1 Hentry Hx1 Hy1.
  induction Hcalls as [| c calls Hc _ IH]; intros v1 Hentry Hx1 Hy1.
  - unfold after. simpl.
    rewrite (naturalSizeWrap_hit _ _ _ _ Hentry). reflexivity.
  - destruct c as [n0 a0 | | |]; try contradiction.
    unfold after in *. simpl. apply IH.
    + apply lookup_kept_by_naturalSizeWrap; assumption.
    + destruct (layout_all _ _ (layout_naturalSizeWrap n0 v1 a0))
        as (Ex & _). rewrite Ex. exact Hx1.
    + destruct (layout_all _ _ (layout_naturalSizeWrap n0 v1 a0))
        as (_ & Ey & _). rewrite Ey. exact Hy1.
Qed.

Lemma cached_answer_persists_witness :
  let v := View.new Props.empty in
  fst (naturalSizeWrap (fun _ => Size.new 9 9)
         (after [callNaturalSize (fun a => a) (Size.new 3 3)]
            (snd (naturalSizeWrap (fun _ => Size.new 5 1) v (Size.new 10 2))))
         (Size.new 10 2))
    = fst (naturalSizeWrap (fun _ => Size.new 5 1) v (Size.new 10 2)).
Proof.
  apply (cached_answer_persists (fun _ => Size.new 5 1) (fun _ => Size.new 9 9)
           (View.new Props.empty) (Size.new 10 2)
           [callNaturalSize (fun a => a) (Size.new 3 3)]).
  - reflexivity.
  - reflexivity.
  - repeat constructor.
Defined.

(** X3.  An invalidation reaches the root: when no view of the chain is
  in the middle of its size-change detection, [invalidateSize] on a view
  leaves the cache of the view and of each of its ancestors empty. *)
Theorem invalidateSize_reaches_root (v : View.t) :
  Forall (fun u => invalidateParent u = true) (v :: ancestors v) ->
  Forall (fun u => prevSizeCache u = ∅)
    (invalidateSize v :: ancestors (invalidateSize v)).
Proof.
  intros Hall. pose proof (invalidateSize_clears_chain v Hall) as H.
  unfold chainCaches in H. apply Forall_fmap in H. exact H.
Qed.

Lemma invalidateSize_reaches_root_witness :
  Forall (fun u => prevSizeCache u = ∅)
    (invalidateSize resizedChild :: ancestors (invalidateSize resizedChild)).
Proof.
  apply (invalidateSize_reaches_root resizedChild).
  repeat constructor.
Defined.
Lemma clamp_upper lo M n : clamp lo (Some M) n <= M.
Proof. unfold clamp. destruct lo; lia. Qed.

Lemma clamp_lower m hi n :
  (forall M, hi = Some M -> m <= M) -> m <= clamp (Some m) hi n.
Proof.
  unfold clamp. intros H. destruct hi as [M|]; [specialize (H M eq_refl) |];
    lia.
Qed.

Lemma resolve_width_unset v calc a p :
  width v = None ->
  Size.width (resolve v calc a p)
    = clamp (minWidth v) (maxWidth v)
        (Size.width (match p with shrink => calc | grow => a end)).
Proof. intros H. unfold resolve. rewrite H. reflexivity. Qed.

Lemma resolve_height_unset v calc a p :
  height v = None ->
  Size.height (resolve v calc a p)
    = clamp (minHeight v) (maxHeight v)
        (Size.height (match p with shrink => calc | grow => a end)).
Proof.
  intros H. unfold resolve. rewrite H.
  destruct (width v); reflexivity.
Qed.

(** The bounds a result has to keep, for the view constructed with
  [props]. *)
Definition withinBounds (props : Props.t) (r : Size.t) : Prop :=
  (Props.width props = None ->
   (forall M, Props.maxWidth props = Some M ->
      Size.width r <= M + orZero (Props.x props)) /\
   (forall m, Props.minWidth props = Some m ->
      (forall M, Props.maxWidth props = Some M -> m <= M) ->
      m + orZero (Props.x props) <= Size.width r)) /\
  (Props.height props = None ->
   (forall M, Props.maxHeight props = Some M ->
      Size.height r <= M + orZero (Props.y props)) /\
   (forall m, Props.minHeight props = Some m ->
      (forall M, Props.maxHeight props = Some M -> m <= M) ->
      m + orZero (Props.y props) <= Size.height r)).

Lemma computed_withinBounds props n v a :
  layout v = layout (View.new props) ->
  prevSizeCache v !! cacheKey a = None ->
  withinBounds props (fst (naturalSizeWrap n v a)).
Proof.
  intros HL Hmiss.
  destruct (layout_all _ _ HL)
    as (Hx & Hy & Hw & Hh & Hmw & Hmh & HMw & HMh & _).
  simpl in Hx, Hy, Hw, Hh, Hmw, Hmh, HMw, HMh.
  rewrite naturalSizeWrap_value, Hmiss, addOffset_sum. simpl.
  rewrite Hx, Hy. split.
  - intros Hnone. rewrite resolve_width_unset by congruence.
    rewrite Hmw, HMw. split.
    + intros M ->. pose proof (clamp_upper (Props.minWidth props) M
        (Size.width (padded n v (effectiveSize v a)))). simpl. lia.
    + intros m -> Hle.
      pose proof (clamp_lower m (Props.maxWidth props)
        (Size.width (padded n v (effectiveSize v a))) Hle). simpl. lia.
  - intros Hnone. rewrite resolve_height_unset by congruence.
    rewrite Hmh, HMh. split.
    + intros M ->. pose proof (clamp_upper (Props.minHeight props) M
        (Size.height (padded n v (effectiveSize v a)))). simpl. lia.
    + intros m -> Hle.
      pose proof (clamp_lower m (Props.maxHeight props)
        (Size.height (padded n v (effectiveSize v a))) Hle). simpl. lia.
Qed.

(** X4.  Minimum and maximum are kept.  For a view constructed without
  explicit width, at any point of its history and whatever the subclass
  returns, the width of the wrapped [naturalSize] (less the [x] offset) is
  at most [maxWidth] when that is set, and at least [minWidth] when that is
  set and not above [maxWidth]; the maximum is applied last, so it wins
  over a larger minimum.  The same holds for the height. *)
Theorem natural_size_within_min_max
  (props : Props.t) (calls : list Call) (n : Size.t -> Size.t) (A : Size.t) :
  withinBounds props
    (fst (naturalSizeWrap n (after calls (View.new props)) A)).
Proof.
  set (v0 := View.new props).
  assert (map_Forall (fun _ s => withinBounds props s)
            (prevSizeCache (after calls v0))) as Hinv.
  { apply (cache_ok_after (layout v0)); [| reflexivity | apply map_Forall_empty].
    intros n' v a HLv Hmiss. apply computed_withinBounds; assumption. }
  destruct (prevSizeCache (after calls v0) !! cacheKey A) as [cached|] eqn:Hlook.
  - rewrite (naturalSizeWrap_hit _ _ _ _ Hlook). exact (Hinv _ _ Hlook).
  - apply computed_withinBounds; [apply layout_after | exact Hlook].
Qed.

(** A view with [minWidth = 10], [maxWidth = 6]: the maximum wins. *)
Example max_wins_over_min :
  Size.width
    (fst (naturalSizeWrap (fun _ => Size.new 8 1)
            (View.new (Props.mk None None None None None
                         (Some 10) None (Some 6) None None None))
            (Size.new 20 5)))
  = 6.
Proof. vm_compute. reflexivity. Qed.

(** *** The render wrapper *)

Lemma detectResize_same v viewport :
  viewportContentSize v = Viewport.contentSize viewport ->
  detectResize v viewport = v.
Proof.
  intros H. unfold detectResize. rewrite H, !Z.eqb_refl. reflexivity.
Qed.

(** The origin and content size the wrapper computes from the layout. *)
Definition placed (v : View.t) (viewport : Viewport.t) : Point.t * Size.t :=
  let contentSize := Size.mutableCopy (Viewport.contentSize viewport) in
  let '(origin, contentSize) :=
    if truthy (x v) || truthy (y v)
    then
      let origin := Point.mk (orZero (x v)) (orZero (y v)) in
      (origin,
       Size.mk (Size.width contentSize - Point.x origin)
               (Size.height contentSize - Point.y origin))
    else (Point.zero, contentSize) in
  match padding v with
  | Some p =>
      (Point.offset origin (left p) (top p),
       Size.mk (Size.width contentSize - (left p + right p))
               (Size.height contentSize - (top p + bottom p)))
  | None => (origin, contentSize)
  end.

Lemma renderWrap_unfold n v viewport :
  renderWrap n v viewport =
    let v1 :=
      set_viewportContentSize (Viewport.contentSize viewport)
        (detectResize v viewport) in
    let '(origin, contentSize) := placed v1 viewport in
    let '(rendered, v2) :=
      restrictSize (fun v => naturalSizeWrap n v contentSize)
        contentSize grow v1 in
    (Rect.mk origin rendered, set_renderedContentSize rendered v2).
Proof.
  unfold renderWrap, placed. simpl.
  set (v1 := set_viewportContentSize _ (detectResize v viewport)).
  destruct (if truthy (x v1) || truthy (y v1) then _ else _) as [o1 c1].
  destruct (padding v1); reflexivity.
Qed.

Lemma placed_layout v v' viewport :
  layout v = layout v' -> placed v viewport = placed v' viewport.
Proof.
  intros H. destruct (layout_all _ _ H) as (Hx & Hy & _ & _ & _ & _ & _ & _ & Hp).
  unfold placed. rewrite Hx, Hy, Hp. reflexivity.
Qed.

Lemma forcesCalc_layout v v' p :
  layout v = layout v' -> forcesCalc v p = forcesCalc v' p.
Proof.
  intros H. destruct (layout_all _ _ H) as (_ & _ & Hw & Hh & _).
  unfold forcesCalc. rewrite Hw, Hh. reflexivity.
Qed.

Lemma resolve_layout v v' c a p :
  layout v = layout v' -> resolve v c a p = resolve v' c a p.
Proof.
  intros H. destruct (layout_all _ _ H)
    as (_ & _ & Hw & Hh & Hmw & Hmh & HMw & HMh & _).
  unfold resolve. rewrite Hw, Hh, Hmw, Hmh, HMw, HMh. reflexivity.
Qed.

Lemma naturalSizeWrap_fixpoint_helper n v a :
  naturalSizeWrap n (snd (naturalSizeWrap n v a)) a
    = (fst (naturalSizeWrap n v a), snd (naturalSizeWrap n v a)).
Proof.
  destruct (prevSizeCache v !! cacheKey a) as [cached|] eqn:Hlook.
  - rewrite (naturalSizeWrap_hit _ _ _ _ Hlook). simpl.
    apply naturalSizeWrap_hit. exact Hlook.
  - pose proof (naturalSizeWrap_twice n v a) as Hval.
    rewrite (naturalSizeWrap_miss _ _ _ Hlook) in *.
    set (r := fst (naturalSizeWrap n v a)) in *.
    set (k := cacheKey (effectiveSize v a)) in *.
    set (v1 := set_prevSizeCache (<[k := r]> (prevSizeCache v)) v) in *.
    destruct (prevSizeCache v1 !! cacheKey a) as [c1|] eqn:Hl1.
    + rewrite (naturalSizeWrap_hit _ _ _ _ Hl1) in *. simpl in Hval.
      subst c1. reflexivity.
    + rewrite (surjective_pairing (naturalSizeWrap n v1 a)).
      rewrite Hval. f_equal.
      rewrite (naturalSizeWrap_miss _ _ _ Hl1), Hval.
      unfold v1. simpl.
      rewrite (effectiveSize_set_prevSizeCache _ v a). fold k.
      rewrite insert_insert_eq. reflexivity.
Qed.

(** The recorded content size takes no part in the wrapped
  [naturalSize]. *)
Lemma naturalSizeWrap_rendered n v a s :
  fst (naturalSizeWrap n (set_renderedContentSize s v) a)
    = fst (naturalSizeWrap n v a) /\
  snd (naturalSizeWrap n (set_renderedContentSize s v) a)
    = set_renderedContentSize s (snd (naturalSizeWrap n v a)).
Proof.
  unfold naturalSizeWrap.
  destruct v as [p d th c vcs rcs ip vx vy w h mnw mnh mxw mxh pad]. simpl.
  destruct (c !! cacheKey a) as [cached|]; [split; reflexivity |].
  unfold restrictSize, restrictWidth, restrictHeight, toDimension, calcSize,
    bind, ret, this; simpl.
  destruct w as [[w| |]|], h as [[h| |]|]; simpl; split; reflexivity.
Qed.

(** X5.  Rendering the same frame again changes nothing: a second call of
  the wrapped [render] with the viewport of the first hands the same
  rectangle on and leaves the view as the first call left it (the cache
  included: nothing is cleared, nothing is added). *)
Theorem render_again_changes_nothing
  (n : Size.t -> Size.t) (v : View.t) (viewport : Viewport.t) :
  renderWrap n (snd (renderWrap n v viewport)) viewport
    = renderWrap n v viewport.
Proof.
  rewrite (renderWrap_unfold n v viewport). cbv zeta.
  set (v1 := set_viewportContentSize _ (detectResize v viewport)).
  destruct (placed v1 viewport) as [origin contentSize] eqn:Hplaced.
  rewrite restrictSize_resolve.
  destruct (forcesCalc v1 grow) eqn:Hforce; cbn [fst snd].
  - (* the natural size is asked for *)
    set (r := naturalSizeWrap n v1 contentSize).
    set (rendered := resolve v1 (fst r) contentSize grow).
    set (vEnd := set_renderedContentSize rendered (snd r)).
    assert (layout vEnd = layout v1) as HL
      by (unfold vEnd, r; apply (layout_naturalSizeWrap n v1 contentSize)).
    assert (viewportContentSize vEnd = Viewport.contentSize viewport) as Hvcs.
    { unfold vEnd, r. destruct (naturalSizeWrap_state n v1 contentSize) as [c ->].
      reflexivity. }
    rewrite renderWrap_unfold. cbv zeta.
    rewrite (detectResize_same _ _ Hvcs).
    assert (set_viewportContentSize (Viewport.contentSize viewport) vEnd = vEnd)
      as -> by (rewrite <- Hvcs; destruct vEnd; reflexivity).
    rewrite (placed_layout _ _ viewport HL), Hplaced.
    rewrite restrictSize_resolve, (forcesCalc_layout _ _ _ HL), Hforce.
    cbn [fst snd].
    assert (naturalSizeWrap n vEnd contentSize
            = (fst r, set_renderedContentSize rendered (snd r))) as Hagain.
    { pose proof (naturalSizeWrap_fixpoint_helper n v1 contentSize) as Hfix.
      fold r in Hfix. unfold vEnd.
      destruct (naturalSizeWrap_rendered n (snd r) contentSize rendered)
        as [E1 E2].
      rewrite (surjective_pairing (naturalSizeWrap n _ contentSize)).
      rewrite E1, E2, Hfix. reflexivity. }
    rewrite Hagain. cbn [fst snd].
    rewrite (resolve_layout _ _ _ _ _ HL). fold rendered.
    reflexivity.
  - (* it is not *)
    set (rendered := resolve v1 Size.zero contentSize grow).
    set (vEnd := set_renderedContentSize rendered v1).
    assert (layout vEnd = layout v1) as HL by reflexivity.
    assert (viewportContentSize vEnd = Viewport.contentSize viewport) as Hvcs
      by reflexivity.
    rewrite renderWrap_unfold. cbv zeta.
    rewrite (detectResize_same _ _ Hvcs).
    assert (set_viewportContentSize (Viewport.contentSize viewport) vEnd = vEnd)
      as -> by (rewrite <- Hvcs; destruct vEnd; reflexivity).
    rewrite (placed_layout _ _ viewport HL), Hplaced.
    rewrite restrictSize_resolve, (forcesCalc_layout _ _ _ HL), Hforce.
    rewrite (resolve_layout _ _ _ _ _ HL). fold rendered.
    reflexivity.
Qed.


(** *** Lifecycle *)

Lemma replay_app on calls more :
  Lifecycle.replay on (calls ++ more)
    = match Lifecycle.replay on calls with
      | Some on' => Lifecycle.replay on' more
      | None => None
      end.
Proof.
  revert on. induction calls as [| [s | s] calls IH]; intros on; simpl.
  - reflexivity.
  - destruct on; [reflexivity | apply IH].
  - destruct on as [p|]; [| reflexivity].
    destruct (Nat.eqb p s); [apply IH | reflexivity].
Qed.

Lemma moveToScreen_replay screen_ this :
  Lifecycle.replay None (Lifecycle.hooks this) = Some (Lifecycle.screen this) ->
  Lifecycle.replay None
    (Lifecycle.hooks (Lifecycle.moveToScreen screen_ this))
    = Some (Lifecycle.screen (Lifecycle.moveToScreen screen_ this)).
Proof.
  intros H. unfold Lifecycle.moveToScreen.
  destruct (decide (Lifecycle.screen this = screen_)) as [E | E];
    [exact H |].
  destruct screen_ as [s|], (Lifecycle.screen this) as [p|] eqn:Hs; simpl;
    rewrite ?replay_app, ?H; simpl; rewrite ?Nat.eqb_refl;
    try reflexivity; congruence.
Qed.

(** X7.  Mounts and unmounts pair up.  Whatever screens a view is moved
  to, and in whatever order, the hook calls [moveToScreen] has made form a
  sequence in which every [didUnmount] names the screen mounted last and no
  [didMount] comes while a screen is mounted; the screen left mounted at the
  end is the one [get screen()] returns. *)
Theorem mounts_and_unmounts_pair_up (moves : list (option nat)) :
  let this := foldl (fun this s => Lifecycle.moveToScreen s this)
                Lifecycle.initial moves in
  Lifecycle.replay None (Lifecycle.hooks this) = Some (Lifecycle.screen this).
Proof.
  cbv zeta.
  assert (forall start,
            Lifecycle.replay None (Lifecycle.hooks start)
              = Some (Lifecycle.screen start) ->
            Lifecycle.replay None
              (Lifecycle.hooks
                 (foldl (fun this s => Lifecycle.moveToScreen s this) start moves))
            = Some (Lifecycle.screen
                      (foldl (fun this s => Lifecycle.moveToScreen s this)
                         start moves))) as Hgen.
  { induction moves as [| s moves IH]; intros start Hstart; [exact Hstart |].
    simpl. apply IH. apply moveToScreen_replay. exact Hstart. }
  apply Hgen. reflexivity.
Qed.

(** Moving between two screens: the first is unmounted before the second
  is mounted; moving to the screen the view is on calls nothing. *)
Example screen_to_screen :
  Lifecycle.hooks
    (foldl (fun this s => Lifecycle.moveToScreen s this) Lifecycle.initial
       [Some 1; Some 1; Some 2; None; None]%nat)
  = [Lifecycle.didMount 1; Lifecycle.didUnmount 1; Lifecycle.didMount 2;
     Lifecycle.didUnmount 2].
Proof. reflexivity. Qed.
End ViewMoreFacts.

(** ** [Text], continued *)

Module TextMoreFacts.
Import Text.

Section WithExternals.
Context {Style : Type}.
Context (lineWidth : string -> Z).
Context (charWidth : string -> Z).
Context (printableChars : string -> list string).
Context (fromSGR : string -> Style).
Context (merge : Style -> option Style -> Style).
Context (themeText : Theme.t -> Style).
Context (FONTS : string -> option (ascii -> option string)).

Abbreviation Text := (Text.t (Style := Style)).
Abbreviation renderChar := (Text.renderChar charWidth fromSGR).
Abbreviation renderLine := (Text.renderLine charWidth printableChars fromSGR).
Abbreviation render :=
  (Text.render charWidth printableChars fromSGR merge themeText).
Abbreviation updateLines := (Text.updateLines lineWidth FONTS).
Abbreviation new := (Text.new lineWidth FONTS).
Abbreviation set_text := (Text.set_text lineWidth FONTS).
Abbreviation set_font := (Text.set_font lineWidth FONTS).

(** A call of [write] that stays inside the visible columns. *)
Definition inColumns (viewport : Viewport.t) (w : Write Style) : Prop :=
  Rect.minX (Viewport.visibleRect viewport) <= Point.x (position w) /\
  Point.x (position w) + charWidth (written w) - 1
    < Rect.maxX (Viewport.visibleRect viewport).

(** What one character does to the calls of [write] and to the row. *)
Lemma renderChar_step (this : Text) viewport st c :
  let st' := renderChar this viewport st c in
  (Point.y (point st') = Point.y (point st)
   \/ wrap this = true /\ Point.y (point st') = Point.y (point st) + 1) /\
  (writes st' = writes st
   \/ exists w,
       writes st' = writes st ++ [w] /\
       written w = c /\ charWidth c <> 0 /\
       inColumns viewport w /\
       Point.y (position w) = Point.y (point st')).
Proof.
  unfold Text.renderChar, inColumns.
  destruct (charWidth c =? 0) eqn:Hw; simpl.
  { split; left; reflexivity. }
  apply Z.eqb_neq in Hw.
  destruct (wrap this) eqn:Hwrap; simpl.
  - destruct (Size.width (Viewport.contentSize viewport) <=? Point.x (point st));
      simpl.
    + destruct (matchesSpace c); simpl.
      * split; [right; auto | left; reflexivity].
      * destruct ((Rect.minX (Viewport.visibleRect viewport) <=? 0)
                  && (0 + charWidth c - 1
                        <? Rect.maxX (Viewport.visibleRect viewport))) eqn:Hvis;
          simpl; (split; [right; auto |]); [right | left; reflexivity].
        apply andb_true_iff in Hvis as [H1 H2].
        apply Z.leb_le in H1. apply Z.ltb_lt in H2.
        eexists. split; [reflexivity |]. simpl. repeat split; auto.
    + destruct (didWrap st && matchesSpace c); simpl.
      * split; left; reflexivity.
      * destruct ((Rect.minX (Viewport.visibleRect viewport)
                     <=? Point.x (point st))
                  && (Point.x (point st) + charWidth c - 1
                        <? Rect.maxX (Viewport.visibleRect viewport))) eqn:Hvis;
          simpl; (split; [left; reflexivity |]); [right | left; reflexivity].
        apply andb_true_iff in Hvis as [H1 H2].
        apply Z.leb_le in H1. apply Z.ltb_lt in H2.
        eexists. split; [reflexivity |]. simpl. repeat split; auto.
  - destruct (didWrap st && matchesSpace c); simpl.
    + split; left; reflexivity.
    + destruct ((Rect.minX (Viewport.visibleRect viewport)
                   <=? Point.x (point st))
                && (Point.x (point st) + charWidth c - 1
                      <? Rect.maxX (Viewport.visibleRect viewport))) eqn:Hvis;
        simpl; (split; [left; reflexivity |]); [right | left; reflexivity].
      apply andb_true_iff in Hvis as [H1 H2].
      apply Z.leb_le in H1. apply Z.ltb_lt in H2.
      eexists. split; [reflexivity |]. simpl. repeat split; auto.
Qed.

(** The characters of a line that take cells. *)
Definition cellChars (line : string) : list string :=
  filter (fun c => charWidth c <> 0) (printableChars line).

(** Over the characters of a line: the calls added are calls for
  characters of the line, in their order, each inside the visible
  columns; without wrapping the row does not move. *)
Lemma renderChars_steps (this : Text) viewport chars st :
  let st' := foldl (renderChar this viewport) st chars in
  exists added,
    writes st' = writes st ++ added /\
    map written added `sublist_of` filter (fun c => charWidth c <> 0) chars /\
    Forall (inColumns viewport) added /\
    (wrap this = false ->
     Point.y (point st') = Point.y (point st) /\
     Forall (fun w => Point.y (position w) = Point.y (point st)) added).
Proof.
  revert st. induction chars as [| c chars IH]; intros st; cbn [foldl].
  - exists []. rewrite app_nil_r. repeat split; constructor.
  - destruct (IH (renderChar this viewport st c))
      as (added & Hw & Hsub & Hcols & Hrow).
    destruct (renderChar_step this viewport st c) as [Hy [Hsame | Hone]].
    + exists added. rewrite Hw, Hsame. split; [reflexivity |].
      split; [| split; [exact Hcols |]].
      * rewrite filter_cons. case_decide; [apply sublist_cons |]; exact Hsub.
      * intros Hnowrap. destruct (Hrow Hnowrap) as [Hy' Hall].
        destruct Hy as [Hy | [Hwrap _]]; [| congruence].
        rewrite Hy in Hy', Hall. split; assumption.
    + destruct Hone as (w & Hone & Hc & Hwidth & Hin & Hwy).
      exists (w :: added). rewrite Hw, Hone, <- app_assoc.
      split; [reflexivity |].
      split; [| split; [constructor; assumption |]].
      * rewrite filter_cons. case_decide; [| contradiction].
        simpl. rewrite Hc. apply sublist_skip. exact Hsub.
      * intros Hnowrap. destruct (Hrow Hnowrap) as [Hy' Hall].
        destruct Hy as [Hy | [Hwrap _]]; [| congruence].
        rewrite Hy in Hy', Hall, Hwy. split; [assumption |].
        constructor; assumption.
Qed.

Lemma renderLine_steps (this : Text) viewport st entry :
  let st' := renderLine this viewport st entry in
  exists added,
    writes st' = writes st ++ added /\
    map written added `sublist_of` cellChars (fst entry) /\
    Forall (inColumns viewport) added /\
    (wrap this = false ->
     Point.y (point st') = Point.y (point st) + 1 /\
     Forall (fun w => Point.y (position w) = Point.y (point st)) added).
Proof.
  destruct entry as [line width]. unfold Text.renderLine. cbn [fst].
  destruct (String.eqb line "").
  - exists []. simpl. rewrite app_nil_r.
    repeat split; try constructor. apply sublist_nil_l.
  - match goal with
    | |- context [foldl _ ?s0 (printableChars line)] =>
        destruct (renderChars_steps this viewport (printableChars line) s0)
          as (added & Hw & Hsub & Hcols & Hrow)
    end.
    exists added. simpl in *. repeat split; try assumption.
    + destruct (Hrow H) as [Hy _]. rewrite Hy. reflexivity.
    + destruct (Hrow H) as [_ Hall]. exact Hall.
Qed.

(** The rows of the lines, counted from [row]. *)
Fixpoint onRows (row : Z) (ls : list (string * Z)) (ws : list (Write Style))
  : Prop :=
  match ls with
  | [] => ws = []
  | entry :: more =>
      exists here below,
        ws = here ++ below /\
        map written here `sublist_of` cellChars (fst entry) /\
        Forall (fun w => Point.y (position w) = row) here /\
        onRows (row + 1) more below
  end.

Lemma renderLines_steps (this : Text) viewport ls st :
  let st' := foldl (renderLine this viewport) st ls in
  exists added,
    writes st' = writes st ++ added /\
    map written added `sublist_of` concat (map (fun e => cellChars (fst e)) ls) /\
    Forall (inColumns viewport) added /\
    (wrap this = false -> onRows (Point.y (point st)) ls added).
Proof.
  revert st. induction ls as [| entry ls IH]; intros st; cbn [foldl].
  - exists []. rewrite app_nil_r. repeat split; constructor.
  - destruct (renderLine_steps this viewport st entry)
      as (here & Hw1 & Hsub1 & Hcols1 & Hrow1).
    destruct (IH (renderLine this viewport st entry))
      as (below & Hw2 & Hsub2 & Hcols2 & Hrow2).
    exists (here ++ below). rewrite Hw2, Hw1, <- app_assoc.
    split; [reflexivity |].
    split; [| split].
    + rewrite map_app. simpl. apply sublist_app; assumption.
    + apply Forall_app. split; assumption.
    + intros Hnowrap. destruct (Hrow1 Hnowrap) as [Hy Hall].
      simpl. exists here, below. repeat split; try assumption.
      rewrite <- Hy. apply Hrow2. exact Hnowrap.
Qed.

(** X8.  [render] stays inside the visible columns: every call of
  [viewport.write] it makes is for a character whose cells lie between the
  left and the right edge of [visibleRect]. *)
Theorem render_stays_in_visible_columns (this : Text) (viewport : Viewport.t) :
  Forall (inColumns viewport) (render this viewport).
Proof.
  unfold Text.render. destruct (Viewport.isEmpty viewport); [constructor |].
  match goal with
  | |- context [foldl _ ?s0 (lines this)] =>
      destruct (renderLines_steps this viewport (lines this) s0)
        as (added & Hw & _ & Hcols & _)
  end.
  rewrite Hw. simpl. exact Hcols.
Qed.

(** X9.  [render] writes each character at most once and in reading
  order: the characters written, in the order of the calls, are a sublist
  of the characters of non-zero width of the lines, taken line after
  line. *)
Theorem render_writes_in_reading_order (this : Text) (viewport : Viewport.t) :
  map written (render this viewport)
    `sublist_of` concat (map (fun e => cellChars (fst e)) (lines this)).
Proof.
  unfold Text.render. destruct (Viewport.isEmpty viewport);
    [apply sublist_nil_l |].
  match goal with
  | |- context [foldl _ ?s0 (lines this)] =>
      destruct (renderLines_steps this viewport (lines this) s0)
        as (added & Hw & Hsub & _ & _)
  end.
  rewrite Hw. simpl. exact Hsub.
Qed.

(** X10.  Without wrapping, line [i] is painted on row [i]: the calls of
  [render] split into one group per line, in order, the group of line [i]
  holding characters of that line only, all on row [i] (an empty line
  takes its row and writes nothing). *)
Theorem render_row_per_line (this : Text) (viewport : Viewport.t) :
  wrap this = false ->
  Viewport.isEmpty viewport = false ->
  onRows 0 (lines this) (render this viewport).
Proof.
  intros Hnowrap Hvis. unfold Text.render. rewrite Hvis.
  match goal with
  | |- context [foldl _ ?s0 (lines this)] =>
      destruct (renderLines_steps this viewport (lines this) s0)
        as (added & Hw & _ & _ & Hrows)
  end.
  rewrite Hw. simpl. apply Hrows. exact Hnowrap.
Qed.
(** *** Natural size *)

(** The step of the reduction when the text does not wrap. *)
Definition nowrapStep (size : Size.t) (e : string * Z) : Size.t :=
  let '(_, width) := e in
  let size := Size.setWidth (Z.max (Size.width size) width) size in
  Size.setHeight (Size.height size + 1) size.

Lemma naturalSize_nowrap_fold (ls : list (string * Z)) (size r : Size.t) :
  r = foldl nowrapStep size ls ->
  Size.height r = Size.height size + Z.of_nat (length ls) /\
  Size.width size <= Size.width r /\
  Forall (fun e => snd e <= Size.width r) ls /\
  (Size.width r = Size.width size \/ exists e, e ∈ ls /\ snd e = Size.width r).
Proof.
  revert size. induction ls as [| [line w] ls IH]; intros size Hr;
    cbn [foldl] in Hr.
  - subst r. simpl. repeat split; [lia | lia | constructor | left; reflexivity].
  - destruct (IH _ Hr) as (Hh & Hge & Hall & Hmax). clear IH Hr.
    simpl in Hh, Hge, Hmax.
    split; [rewrite Hh; simpl length; lia |].
    split; [lia |].
    split.
    + constructor; [simpl; lia | exact Hall].
    + destruct Hmax as [Heq | (e & Hin & He)].
      * destruct (Z.max_spec (Size.width size) w) as [[_ Hm] | [_ Hm]];
          rewrite Hm in Heq.
        -- right. exists (line, w). split; [left | simpl; congruence].
        -- left. exact Heq.
      * right. exists e. split; [right; exact Hin | exact He].
Qed.

Lemma nowrap_height (this : Text) (available : Size.t) :
  wrap this = false ->
  Size.height (naturalSize this available) = Z.of_nat (length (lines this)).
Proof.
  intros Hnowrap.
  assert (naturalSize this available
          = foldl nowrapStep (Size.mutableCopy Size.zero) (lines this)) as Hr
    by (unfold naturalSize; rewrite Hnowrap; reflexivity).
  destruct (naturalSize_nowrap_fold _ _ _ Hr) as (Hh & _).
  simpl in Hh. exact Hh.
Qed.

(** X11.  Without wrapping, the natural size of a text does not depend
  on the available size: its height is the number of lines, and its width
  is the width of the widest line (0 when there is no line, or none of
  positive width). *)
Theorem naturalSize_nowrap (this : Text) (available : Size.t) :
  wrap this = false ->
  Size.height (naturalSize this available) = Z.of_nat (length (lines this)) /\
  Forall (fun e => snd e <= Size.width (naturalSize this available))
    (lines this) /\
  (Size.width (naturalSize this available) = 0
   \/ exists e, e ∈ lines this
        /\ snd e = Size.width (naturalSize this available)).
Proof.
  intros Hnowrap.
  assert (naturalSize this available
          = foldl nowrapStep (Size.mutableCopy Size.zero) (lines this)) as Hr
    by (unfold naturalSize; rewrite Hnowrap; reflexivity).
  destruct (naturalSize_nowrap_fold _ _ _ Hr) as (Hh & _ & Hall & Hmax).
  simpl in Hh, Hmax. repeat split; assumption.
Qed.

Lemma toInt32_small q : 0 <= q < 2 ^ 31 -> toInt32 q = q.
Proof.
  intros H. unfold toInt32.
  rewrite Z.mod_small by lia. lia.
Qed.

Lemma naturalSize_wrap_fold (ls : list (string * Z)) (available size : Size.t) :
  0 < Size.width available ->
  Forall (fun e => 0 <= snd e < 2 ^ 31 * Size.width available) ls ->
  Size.height
    (foldl
       (fun size '(_, width) =>
          let lineHeight := 1 + truncDiv width (Size.width available) in
          let size := Size.setWidth (Size.width available) size in
          Size.setHeight (Size.height size + lineHeight) size)
       size ls)
  = Size.height size
    + foldr (fun e rows => 1 + snd e `div` Size.width available + rows) 0 ls.
Proof.
  intros Haw Hall. revert size.
  induction Hall as [| [line w] ls Hw _ IH]; intros size; cbn [foldl foldr].
  - lia.
  - rewrite IH. simpl Size.height. simpl snd in *.
    unfold truncDiv.
    destruct (Size.width available =? 0) eqn:E;
      [apply Z.eqb_eq in E; lia |].
    rewrite Z.quot_div_nonneg by lia.
    rewrite toInt32_small; [lia |].
    split; [apply Z.div_pos; lia | apply Z.div_lt_upper_bound; lia].
Qed.

Lemma rows_constant (ls : list (string * Z)) (aw k : Z) :
  Forall (fun e => snd e `div` aw = k) ls ->
  foldr (fun e rows => 1 + snd e `div` aw + rows) 0 ls
    = (1 + k) * Z.of_nat (length ls).
Proof.
  induction 1 as [| e ls He _ IH]; cbn [foldr length]; [lia |].
  rewrite IH, He. lia.
Qed.

(** X12.  With wrapping, a line of width [w] is counted as
  [1 + floor(w / available.width)] rows: one row when it is shorter than
  the available width, and two already when it is exactly as wide. *)
Theorem naturalSize_wrap_rows (this : Text) (available : Size.t) :
  wrap this = true ->
  0 < Size.width available ->
  Forall (fun e => 0 <= snd e < 2 ^ 31 * Size.width available) (lines this) ->
  Size.height (naturalSize this available)
    = foldr (fun e rows => 1 + snd e `div` Size.width available + rows) 0
        (lines this) /\
  (Forall (fun e => snd e < Size.width available) (lines this) ->
   Size.height (naturalSize this available) = Z.of_nat (length (lines this))) /\
  (Forall (fun e => snd e = Size.width available) (lines this) ->
   Size.height (naturalSize this available)
     = 2 * Z.of_nat (length (lines this))).
Proof.
  intros Hwrap Haw Hall. unfold naturalSize. rewrite Hwrap.
  rewrite (naturalSize_wrap_fold _ _ _ Haw Hall). simpl Size.height.
  split; [lia | split].
  - intros Hshort.
    rewrite (rows_constant _ _ 0); [lia |].
    rewrite Forall_forall in *. intros e He.
    destruct (Hall e He) as [H0 _]. pose proof (Hshort e He).
    apply Z.div_small. lia.
  - intros Hfull.
    rewrite (rows_constant _ _ 1); [lia |].
    rewrite Forall_forall in *. intros e He.
    rewrite (Hfull e He). apply Z.div_same. lia.
Qed.

(** *** From the text to the lines *)

Fixpoint countNewlines (s : string) : nat :=
  match s with
  | EmptyString => 0
  | String c rest =>
      (if Ascii.eqb c newline then 1 else 0) + countNewlines rest
  end.

Lemma split_length s : length (split s) = S (countNewlines s).
Proof.
  induction s as [| c rest IH]; [reflexivity |].
  simpl. destruct (Ascii.eqb c newline); simpl.
  - rewrite IH. reflexivity.
  - destruct (split rest) as [| line more]; simpl in *; [discriminate | lia].
Qed.

Lemma join_split s : join (split s) = s.
Proof.
  induction s as [| c rest IH]; [reflexivity |].
  simpl. destruct (Ascii.eqb c newline) eqn:E.
  - apply Ascii.eqb_eq in E. subst c.
    pose proof (split_length rest) as Hlen.
    destruct (split rest) as [| line more]; [discriminate |].
    change (join (EmptyString :: line :: more))
      with (String newline (join (line :: more))).
    rewrite IH. reflexivity.
  - pose proof (split_length rest) as Hlen.
    destruct (split rest) as [| line more]; [discriminate |].
    destruct more as [| l2 more]; simpl in *; rewrite <- IH; reflexivity.
Qed.

Lemma updateLines_lines text_ lines_ font_ (this : Text) :
  length (lines (updateLines text_ lines_ font_ this))
    = match text_, lines_ with
      | Some tx, _ => if String.eqb tx "" then 0%nat else S (countNewlines tx)
      | None, Some ls => length ls
      | None, None => 0%nat
      end /\
  Forall (fun e => snd e = lineWidth (fst e))
    (lines (updateLines text_ lines_ font_ this)).
Proof.
  assert (forall (f : string -> string * Z) (ls : list string),
             (forall l, snd (f l) = lineWidth (fst (f l))) ->
             Forall (fun e => snd e = lineWidth (fst e)) (map f ls)) as Hmeasured.
  { intros f ls Hf. apply Forall_map, Forall_true. exact Hf. }
  unfold Text.updateLines.
  destruct text_ as [tx|]; [| destruct lines_ as [ls|]]; cbn [lines];
    (split; [rewrite length_map | apply Hmeasured; intros l; reflexivity]).
  - destruct (String.eqb tx ""); [reflexivity | apply split_length].
  - reflexivity.
  - reflexivity.
Qed.

(** X13.  The height of a text is read off its string: a [Text]
  constructed from [text] without wrapping has natural height 0 for the
  empty string and otherwise one more than the number of newlines in it;
  the same holds after [text] is set to a different string, and every line
  is kept with its own width. *)
Theorem text_height_counts_newlines
  (props : Text.Props (Style := Style)) (s s' : string) (available : Size.t) :
  p_text props = Some s ->
  p_wrap props <> Some true ->
  Size.height (naturalSize (new props) available)
    = (if String.eqb s "" then 0 else 1 + Z.of_nat (countNewlines s)) /\
  (s' <> s ->
   Size.height (naturalSize (set_text s' (new props)) available)
     = (if String.eqb s' "" then 0 else 1 + Z.of_nat (countNewlines s'))) /\
  Forall (fun e => snd e = lineWidth (fst e)) (lines (new props)).
Proof.
  intros Htext Hwrap.
  assert (wrap (new props) = false) as Hnowrap.
  { unfold Text.new, update_, Text.updateLines. simpl.
    destruct (p_text props), (p_lines props); simpl;
      destruct (p_wrap props) as [[|]|]; try reflexivity; congruence. }
  assert (text (new props) = s) as Hs.
  { unfold Text.new, update_, Text.updateLines. simpl. rewrite Htext.
    reflexivity. }
  split; [| split].
  - rewrite (nowrap_height (new props) available Hnowrap). unfold Text.new, update_.
    match goal with
    | |- context [lines (Text.updateLines lineWidth FONTS ?a ?b ?c ?d)] =>
        destruct (updateLines_lines a b c d) as [Hlen _]
    end.
    rewrite Hlen, Htext.
    destruct (String.eqb s ""); lia.
  - intros Hne.
    assert (wrap (set_text s' (new props)) = false) as Hnowrap'.
    { unfold Text.set_text. destruct (String.eqb _ _); [exact Hnowrap |].
      unfold Text.updateLines. simpl.
      destruct (String.eqb s' ""); exact Hnowrap. }
    rewrite (nowrap_height (set_text s' (new props)) available Hnowrap').
    unfold Text.set_text. rewrite Hs.
    destruct (String.eqb s s') eqn:E; [apply String.eqb_eq in E; congruence |].
    destruct (updateLines_lines (Some s') (Some (split s'))
                (Some (font (new props))) (new props)) as [Hlen _].
    rewrite Hlen.
    destruct (String.eqb s' ""); lia.
  - unfold Text.new, update_.
    apply (proj2 (updateLines_lines _ _ _ _)).
Qed.
End WithExternals.
End TextMoreFacts.

(** ** components/Dropdown.ts: the selection *)

Module Selection.
Section WithValues.
(** The values of the choices, compared with [===]. *)
Context {T : Type} `{EqDecision T}.

(** [choices.findIndex(([_, choice]) => choice === item)]; [None] is the
  [-1] of JavaScript. *)
Fixpoint findIndex (choices : list (string * T)) (item : T) : option nat :=
  match choices with
  | [] => None
  | (_, choice) :: more =>
      if decide (choice = item) then Some 0%nat
      else S <$> findIndex more item
  end.

(** [selectedItems.flatMap(item => index === -1 ? [] : [index])] *)
Definition rowsOfItems (choices : list (string * T)) (items : list T)
  : list nat :=
  flat_map
    (fun item =>
       match findIndex choices item with
       | None => []
       | Some index => [index]
       end)
    items.

(** [selected]: an array when [multiple], a value or [undefined]
  otherwise (the conditional type of [Props<T, M>]). *)
Definition Selected (multiple : bool) : Type :=
  if multiple then list T else option T.

(** [dropdownSelectedRows] *)
Definition dropdownSelectedRows (multiple : bool) (selected : Selected multiple)
  (choices : list (string * T)) : list nat :=
  match multiple return Selected multiple -> list nat with
  | true => fun items => rowsOfItems choices items
  | false =>
      fun value =>
        match value with
        | Some item => rowsOfItems choices [item]
        | None => []
        end
  end selected.

(** A [Set<number>]: its elements in insertion order. *)
Definition add (x : nat) (set : list nat) : list nat :=
  if decide (x ∈ set) then set else set ++ [x].
Definition newSet (xs : list nat) : list nat :=
  foldl (fun set x => add x set) [] xs.
Definition delete (x : nat) (set : list nat) : list nat :=
  filter (fun y => y <> x) set.

(** The fields of [DropdownSelector] that hold the selection. *)
Record t := mk {
  choices : list (list string * T);     (* #choices *)
  selected : list nat;                  (* #selected *)
  multiple : bool;                      (* #multiple *)
  isChecked : bool;                     (* #checkbox.isChecked *)
}.

(** [choices.map(([text, value]) => [text.split('\n'), value])] *)
Definition splitChoices (cs : list (string * T)) : list (list string * T) :=
  map (fun '(text, value) => (Text.split text, value)) cs.

(** [#isAllSelected()] *)
Definition isAllSelected (cs : list (list string * T)) (sel : list nat) : bool :=
  Nat.eqb (length sel) (length cs).

(** The constructor. *)
Definition new (cs : list (string * T)) (rows : list nat) (multiple_ : bool)
  : t :=
  let cs' := splitChoices cs in
  let sel := newSet rows in
  mk cs' sel multiple_ (isAllSelected cs' sel).

(** [this.#choices[index][1]]: reading [[1]] of a row that does not
  exist raises a [TypeError]; [None] stands for that. *)
Definition valueAt (this : t) (index : nat) : option T :=
  snd <$> choices this !! index.

(** [get selectedValues()] *)
Definition selectedValues (this : t) : option (list T) :=
  mapM (valueAt this) (selected this).

(** [get selectedValue()]: [Some None] is [undefined]. *)
Definition selectedValue (this : t) : option (option T) :=
  match selected this with
  | [] => Some None
  | row :: _ => Some <$> valueAt this row
  end.

(** [get choices()] *)
Definition get_choices (this : t) : list (string * T) :=
  map (fun '(lines, choice) => (Text.join lines, choice)) (choices this).

(** [set selectedRows(rows)]: every row of the old and of the new
  selection is read before the new selection is stored. *)
Definition set_selectedRows (rows : list nat) (this : t) : option t :=
  match mapM (valueAt this) (newSet (selected this ++ rows)) with
  | None => None
  | Some _ => Some (mk (choices this) (newSet rows) (multiple this) (isChecked this))
  end.

(** [set choices(choices)] *)
Definition set_choices (cs : list (string * T)) (this : t) : option t :=
  match mapM (valueAt this) (selected this) with
  | None => None
  | Some items =>
      Some (mk (splitChoices cs) (newSet (rowsOfItems cs items))
              (multiple this) (isChecked this))
  end.

(** What [Dropdown.#onSelect], the [onSelect] of the selector, reads of
  the selection; [None] when the read raises. *)
Definition onSelect (this : t) : option unit :=
  if multiple this
  then (fun _ => ()) <$> selectedValues this
  else (fun _ => ()) <$> selectedValue this.

(** The [onClick] of the button of [row]. *)
Definition click (row : nat) (this : t) : option t :=
  match mapM (valueAt this) (selected this) with
  | None => None
  | Some _ =>
      let sel :=
        if multiple this then
          if decide (row ∈ selected this) then delete row (selected this)
          else add row (selected this)
        else newSet [row] in
      let this :=
        mk (choices this) sel (multiple this)
          (isAllSelected (choices this) sel) in
      (fun _ => this) <$> onSelect this
  end.

(** The [onCheck] of the "Select all" checkbox. *)
Definition onCheck (value : bool) (this : t) : option t :=
  let sel := if value then newSet (seq 0 (length (choices this))) else [] in
  let this := mk (choices this) sel (multiple this) value in
  (fun _ => this) <$> onSelect this.

(** [new Dropdown({choices, selected, multiple})], as far as the selection
  goes. *)
Definition dropdown (multiple_ : bool) (selected_ : Selected multiple_)
  (cs : list (string * T)) : t :=
  new cs (dropdownSelectedRows multiple_ selected_ cs) multiple_.

(** [Dropdown]'s [set selected(selected)] *)
Definition set_selected (multiple_ : bool) (selected_ : Selected multiple_)
  (this : t) : option t :=
  set_selectedRows
    (dropdownSelectedRows multiple_ selected_ (get_choices this)) this.
End WithValues.
End Selection.

(** ** Properties of the dropdown selection *)

Module SelectionFacts.
Import Selection.

Section WithValues.
Context {T : Type} `{EqDecision T}.

Abbreviation Selector := (Selection.t (T := T)).

(** *** [findIndex] *)

Lemma findIndex_Some (cs : list (string * T)) item i :
  findIndex cs item = Some i ->
  snd <$> cs !! i = Some item /\
  forall j, (j < i)%nat -> snd <$> cs !! j <> Some item.
Proof.
  revert i. induction cs as [| [text choice] cs IH]; intros i; simpl;
    [discriminate |].
  destruct (decide (choice = item)) as [-> | Hne].
  - intros [= <-]. split; [reflexivity | intros j Hj; lia].
  - destruct (findIndex cs item) as [i'|] eqn:E; [| discriminate].
    intros [= <-]. destruct (IH i' eq_refl) as [Hat Hbefore].
    split; [exact Hat |].
    intros [| j] Hj; simpl; [congruence | apply Hbefore; lia].
Qed.

Lemma findIndex_None (cs : list (string * T)) item :
  findIndex cs item = None <-> item ∉ cs.*2.
Proof.
  induction cs as [| [text choice] cs IH]; simpl.
  - split; [intros _ Hin; inversion Hin | reflexivity].
  - destruct (decide (choice = item)) as [-> | Hne].
    + split; [discriminate | intros Hn; destruct Hn; left].
    + destruct (findIndex cs item) eqn:E; simpl.
      * split; [discriminate |]. intros Hn. exfalso.
        assert (item ∉ cs.*2) as Hn' by (intros Hin; apply Hn; right; exact Hin).
        apply IH in Hn'. discriminate.
      * split; [| reflexivity]. intros _ Hin.
        apply elem_of_cons in Hin as [-> | Hin]; [congruence |].
        apply (proj1 IH eq_refl). exact Hin.
Qed.

Lemma findIndex_values (cs cs' : list (string * T)) item :
  cs.*2 = cs'.*2 -> findIndex cs item = findIndex cs' item.
Proof.
  revert cs'. induction cs as [| [text choice] cs IH];
    intros [| [text' choice'] cs'] Heq; simpl in *; try discriminate;
    [reflexivity |].
  injection Heq as -> Heq. rewrite (IH cs' Heq). reflexivity.
Qed.

Lemma lookup_value_lt (cs : list (string * T)) i item :
  snd <$> cs !! i = Some item -> (i < length cs)%nat.
Proof.
  intros H. apply lookup_lt_is_Some.
  destruct (cs !! i); [eauto | discriminate].
Qed.

(** *** Rows of items *)

Definition present (cs : list (string * T)) (item : T) : Prop := item ∈ cs.*2.

#[global] Instance present_dec (cs : list (string * T)) (item : T) :
  Decision (present cs item).
Proof. unfold present. apply _. Defined.

Lemma rowsOfItems_cons (cs : list (string * T)) item items :
  rowsOfItems cs (item :: items)
    = match findIndex cs item with
      | None => []
      | Some index => [index]
      end ++ rowsOfItems cs items.
Proof. reflexivity. Qed.

Lemma rowsOfItems_rows (cs : list (string * T)) items r :
  r ∈ rowsOfItems cs items <->
  exists item, item ∈ items /\ findIndex cs item = Some r.
Proof.
  induction items as [| item items IH].
  - split; [intros Hin; inversion Hin | intros (i & Hin & _); inversion Hin].
  - rewrite rowsOfItems_cons, elem_of_app, IH. split.
    + intros [Hhere | (i & Hin & Hi)].
      * destruct (findIndex cs item) as [index|] eqn:E; [| inversion Hhere].
        apply list_elem_of_singleton in Hhere. subst r.
        exists item. split; [left | exact E].
      * exists i. split; [right; exact Hin | exact Hi].
    + intros (i & Hin & Hi). apply elem_of_cons in Hin as [-> | Hin].
      * left. rewrite Hi. apply list_elem_of_singleton. reflexivity.
      * right. exists i. auto.
Qed.

Lemma rowsOfItems_read (cs : list (string * T)) items :
  mapM (fun r => snd <$> cs !! r) (rowsOfItems cs items)
    = Some (filter (present cs) items).
Proof.
  induction items as [| item items IH]; [reflexivity |].
  rewrite rowsOfItems_cons, filter_cons.
  destruct (findIndex cs item) as [index|] eqn:E.
  - destruct (findIndex_Some _ _ _ E) as [Hat _].
    case_decide as Hp.
    + simpl. rewrite Hat. simpl. rewrite IH. reflexivity.
    + exfalso. apply Hp. unfold present.
      apply list_elem_of_lookup. exists index.
      rewrite list_lookup_fmap. exact Hat.
  - apply findIndex_None in E. case_decide as Hp; [contradiction |].
    exact IH.
Qed.

Lemma rowsOfItems_NoDup (cs : list (string * T)) items : NoDup items -> NoDup (rowsOfItems cs items).
Proof.
  induction 1 as [| item items Hnotin _ IH]; [constructor |].
  rewrite rowsOfItems_cons.
  destruct (findIndex cs item) as [index|] eqn:E; [| exact IH].
  simpl. constructor; [| exact IH].
  intros Hin. apply rowsOfItems_rows in Hin as (other & Hother & Hrow).
  destruct (findIndex_Some _ _ _ E) as [Hat _].
  destruct (findIndex_Some _ _ _ Hrow) as [Hat' _].
  rewrite Hat in Hat'. injection Hat' as ->. contradiction.
Qed.

Lemma rowsOfItems_length (cs : list (string * T)) items :
  (length (rowsOfItems cs items) <= length items)%nat.
Proof.
  induction items as [| item items IH]; [reflexivity |].
  rewrite rowsOfItems_cons, length_app.
  destruct (findIndex cs item); simpl; lia.
Qed.

(** The items of a selection, as a list. *)
Definition itemsOf (multiple : bool) : Selected multiple -> list T :=
  match multiple with
  | true => fun items => items
  | false => fun value => match value with Some item => [item] | None => [] end
  end.

Lemma dropdownSelectedRows_items multiple selected (cs : list (string * T)) :
  dropdownSelectedRows multiple selected cs
    = rowsOfItems cs (itemsOf multiple selected).
Proof. destruct multiple; [reflexivity |]. destruct selected; reflexivity. Qed.

(** X14.  [dropdownSelectedRows] answers with rows that exist: read back
  through the choices, the rows are exactly the selected items that are
  among the choices, in the order given (items that are not a choice are
  dropped); each row is the first row that holds its item. *)
Theorem selected_rows_read_back
  (multiple : bool) (selected : Selected multiple) (cs : list (string * T)) :
  mapM (fun r => snd <$> cs !! r) (dropdownSelectedRows multiple selected cs)
    = Some (filter (present cs) (itemsOf multiple selected)) /\
  Forall
    (fun r =>
       (r < length cs)%nat /\
       exists item,
         item ∈ itemsOf multiple selected /\
         snd <$> cs !! r = Some item /\
         forall j, (j < r)%nat -> snd <$> cs !! j <> Some item)
    (dropdownSelectedRows multiple selected cs).
Proof.
  rewrite dropdownSelectedRows_items. split; [apply rowsOfItems_read |].
  apply Forall_forall. intros r Hin.
  apply rowsOfItems_rows in Hin as (item & Hitem & Hrow).
  destruct (findIndex_Some _ _ _ Hrow) as [Hat Hfirst].
  split; [exact (lookup_value_lt _ _ _ Hat) |].
  exists item. auto.
Qed.

(** *** Sets of rows *)

Lemma foldl_add_spec (xs acc : list nat) :
  NoDup acc ->
  NoDup (foldl (fun set x => add x set) acc xs) /\
  (forall x, x ∈ foldl (fun set x => add x set) acc xs <-> x ∈ acc \/ x ∈ xs) /\
  (length (foldl (fun set x => add x set) acc xs) <= length acc + length xs)%nat /\
  (NoDup (acc ++ xs) -> foldl (fun set x => add x set) acc xs = acc ++ xs).
Proof.
  revert acc. induction xs as [| x xs IH]; intros acc Hacc; cbn [foldl].
  - repeat split.
    + exact Hacc.
    + intros Hin. left. exact Hin.
    + intros [Hin | Hin]; [exact Hin | inversion Hin].
    + simpl. lia.
    + intros _. rewrite app_nil_r. reflexivity.
  - assert (NoDup (add x acc)) as Hacc'.
    { unfold add. case_decide; [exact Hacc |].
      apply NoDup_app. repeat split; [exact Hacc | | apply NoDup_singleton].
      intros y Hy Hy'. apply list_elem_of_singleton in Hy'. subst. contradiction. }
    assert (forall y, y ∈ add x acc <-> y ∈ acc \/ y = x) as Hmem.
    { intros y. unfold add. case_decide as Hx.
      - split; [auto |]. intros [Hy | ->]; assumption.
      - rewrite elem_of_app, list_elem_of_singleton. reflexivity. }
    destruct (IH (add x acc) Hacc') as (Hnd & Hin & Hlen & Hid).
    repeat split.
    + exact Hnd.
    + intros Hy. apply Hin in Hy as [Hy | Hy].
      * apply Hmem in Hy as [Hy | ->]; [left; exact Hy | right; left].
      * right. right. exact Hy.
    + intros [Hy | Hy]; apply Hin.
      * left. apply Hmem. left. exact Hy.
      * apply elem_of_cons in Hy as [-> | Hy];
          [left; apply Hmem; right; reflexivity | right; exact Hy].
    + assert (length (add x acc) <= S (length acc))%nat.
      { unfold add. case_decide; [lia |]. rewrite length_app. simpl. lia. }
      simpl. lia.
    + intros Hall.
      assert (x ∉ acc) as Hx.
      { apply NoDup_app in Hall as (_ & Hdis & _).
        intros Hx. apply (Hdis x Hx). left. }
      assert (add x acc = acc ++ [x]) as Hadd
        by (unfold add; case_decide; [contradiction | reflexivity]).
      rewrite Hadd in Hid |- *.
      rewrite Hid; rewrite <- app_assoc; [reflexivity | exact Hall].
Qed.

Lemma newSet_spec (xs : list nat) :
  NoDup (newSet xs) /\
  (forall x, x ∈ newSet xs <-> x ∈ xs) /\
  (length (newSet xs) <= length xs)%nat /\
  (NoDup xs -> newSet xs = xs).
Proof.
  destruct (foldl_add_spec xs [] (NoDup_nil_2)) as (Hnd & Hin & Hlen & Hid).
  repeat split; try assumption.
  - intros Hx. apply Hin in Hx as [Hx | Hx]; [inversion Hx | exact Hx].
  - intros Hx. apply Hin. right. exact Hx.
Qed.

Lemma newSet_elem (xs : list nat) x : x ∈ newSet xs <-> x ∈ xs.
Proof. apply newSet_spec. Qed.

(** *** Reading the selection *)

Lemma lookup_splitChoices (cs : list (string * T)) i :
  snd <$> splitChoices cs !! i = snd <$> cs !! i.
Proof.
  unfold splitChoices.
  change (map ?f cs) with (f <$> cs). rewrite list_lookup_fmap.
  destruct (cs !! i) as [[text value]|]; reflexivity.
Qed.

Lemma length_splitChoices (cs : list (string * T)) :
  length (splitChoices cs) = length cs.
Proof. unfold splitChoices. apply length_map. Qed.

Lemma get_choices_values (this : Selector) :
  (get_choices this).*2 = (choices this).*2.
Proof.
  unfold get_choices. induction (choices this) as [| [ls c] cs IH];
    [reflexivity |].
  simpl. f_equal. exact IH.
Qed.

Lemma mapM_valueAt_Some (this : Selector) rows :
  Forall (fun r => (r < length (choices this))%nat) rows ->
  is_Some (mapM (valueAt this) rows).
Proof.
  intros Hall. apply mapM_is_Some. eapply Forall_impl; [exact Hall |].
  intros r Hr. unfold valueAt. simpl.
  apply lookup_lt_is_Some in Hr as [x Hx]. rewrite Hx. eauto.
Qed.

Lemma mapM_valueAt_None (this : Selector) rows :
  mapM (valueAt this) rows = None <->
  exists r, r ∈ rows /\ (length (choices this) <= r)%nat.
Proof.
  rewrite mapM_None, Exists_exists. split.
  - intros (r & Hin & Hnone). exists r. split; [exact Hin |].
    unfold valueAt in Hnone.
    destruct (choices this !! r) eqn:E; [discriminate |].
    apply lookup_ge_None. exact E.
  - intros (r & Hin & Hge). exists r. split; [exact Hin |].
    unfold valueAt. apply lookup_ge_None in Hge. rewrite Hge. reflexivity.
Qed.

(** X15.  Round trip through a multiple-selection dropdown: constructed
  with a list of items without repetition, it reports as selected exactly
  the items that are among its choices, in the order given; constructed
  single, it reports the item when it is a choice and [undefined]
  otherwise.  No read raises. *)
Theorem dropdown_selection_round_trip
  (cs : list (string * T)) (items : list T) (value : option T) :
  (NoDup items ->
   selectedValues (dropdown true items cs)
     = Some (filter (present cs) items)) /\
  selectedValue (dropdown false value cs)
    = Some (match value with
            | Some item => if decide (present cs item) then Some item else None
            | None => None
            end).
Proof.
  split.
  - intros Hnd. unfold dropdown, selectedValues, Selection.new. simpl.
    destruct (newSet_spec (rowsOfItems cs items)) as (_ & _ & _ & Hid).
    rewrite (Hid (rowsOfItems_NoDup cs items Hnd)).
    rewrite <- (rowsOfItems_read cs items).
    apply mapM_ext. intros r. unfold valueAt. simpl.
    apply lookup_splitChoices.
  - unfold dropdown, selectedValue, Selection.new. simpl.
    destruct value as [item|]; [| reflexivity].
    unfold rowsOfItems. simpl.
    destruct (findIndex cs item) as [index|] eqn:E; simpl.
    + destruct (findIndex_Some _ _ _ E) as [Hat _].
      unfold newSet, add. simpl.
      unfold valueAt. simpl. rewrite lookup_splitChoices, Hat. simpl.
      case_decide as Hp; [reflexivity |].
      exfalso. apply Hp. unfold present. apply list_elem_of_lookup.
      exists index. rewrite list_lookup_fmap. exact Hat.
    + apply findIndex_None in E.
      case_decide as Hp; [contradiction | reflexivity].
Qed.

(** *** The selection over the life of a dropdown *)

(** A selection in order: no row twice, every row a row of the choices,
  and at most one row unless the dropdown is [multiple]. *)
Definition inOrder (this : Selector) : Prop :=
  NoDup (selected this) /\
  Forall (fun r => (r < length (choices this))%nat) (selected this) /\
  (multiple this = false -> (length (selected this) <= 1)%nat).

(** The states a dropdown goes through: as constructed, then by its
  [selected] and [choices] setters, by clicks on the buttons of its rows
  and, when [multiple], by the "Select all" checkbox. *)
Inductive reachable (m : bool) : Selector -> Prop :=
| reach_new selected_ cs :
    reachable m (dropdown m selected_ cs)
| reach_set_selected this selected_ this' :
    reachable m this ->
    set_selected m selected_ this = Some this' ->
    reachable m this'
| reach_set_choices this cs this' :
    reachable m this ->
    set_choices cs this = Some this' ->
    reachable m this'
| reach_click this row this' :
    reachable m this ->
    (row < length (choices this))%nat ->
    click row this = Some this' ->
    reachable m this'
| reach_check this value this' :
    reachable m this ->
    m = true ->
    onCheck value this = Some this' ->
    reachable m this'.

Lemma rows_in_order (m : bool) (cs : list (string * T)) (items : list T) :
  (m = false -> (length items <= 1)%nat) ->
  NoDup (newSet (rowsOfItems cs items)) /\
  Forall (fun r => (r < length cs)%nat) (newSet (rowsOfItems cs items)) /\
  (m = false -> (length (newSet (rowsOfItems cs items)) <= 1)%nat).
Proof.
  intros Hone.
  destruct (newSet_spec (rowsOfItems cs items)) as (Hnd & Hin & Hlen & _).
  split; [exact Hnd | split].
  - apply Forall_forall. intros r Hr. apply Hin in Hr.
    apply rowsOfItems_rows in Hr as (item & _ & Hrow).
    destruct (findIndex_Some _ _ _ Hrow) as [Hat _].
    exact (lookup_value_lt _ _ _ Hat).
  - intros Hm. pose proof (rowsOfItems_length cs items).
    specialize (Hone Hm). lia.
Qed.

Lemma itemsOf_single (selected_ : Selected false) :
  (length (itemsOf false selected_) <= 1)%nat.
Proof. destruct selected_; simpl; lia. Qed.

Lemma itemsOf_length m (selected_ : Selected m) :
  m = false -> (length (itemsOf m selected_) <= 1)%nat.
Proof. intros ->. apply itemsOf_single. Qed.

Lemma rowsOfItems_values (cs cs' : list (string * T)) items :
  cs.*2 = cs'.*2 -> rowsOfItems cs items = rowsOfItems cs' items.
Proof.
  intros Heq. induction items as [| item items IH]; [reflexivity |].
  rewrite !rowsOfItems_cons, IH, (findIndex_values cs cs' item Heq).
  reflexivity.
Qed.

Lemma forall_kept_by_delete (P : nat -> Prop) row (set : list nat) :
  Forall P set -> Forall P (delete row set).
Proof.
  rewrite !Forall_forall. intros H x Hx.
  apply list_elem_of_filter in Hx as [_ Hx]. apply H. exact Hx.
Qed.

Lemma onSelect_inOrder (this : Selector) :
  Forall (fun r => (r < length (choices this))%nat) (selected this) ->
  is_Some (onSelect this).
Proof.
  intros Hall. unfold onSelect, selectedValues, selectedValue.
  destruct (multiple this).
  - destruct (mapM_valueAt_Some this (selected this) Hall) as [vs ->]. eauto.
  - destruct (selected this) as [| row rest]; [eauto |].
    inversion Hall as [| ? ? Hrow _]; subst.
    unfold valueAt. apply lookup_lt_is_Some in Hrow as [x ->]. simpl. eauto.
Qed.

Lemma reachable_inOrder m this :
  reachable m this -> multiple this = m /\ inOrder this.
Proof.
  induction 1 as [selected_ cs
                 | this selected_ this' _ [Hm IH] Hstep
                 | this cs this' _ [Hm IH] Hstep
                 | this row this' _ [Hm IH] Hrow Hstep
                 | this value this' _ [Hm IH] Htrue Hstep].
  - split; [reflexivity |].
    unfold inOrder, dropdown, Selection.new. simpl.
    rewrite dropdownSelectedRows_items, length_splitChoices.
    apply (rows_in_order m). apply itemsOf_length.
  - unfold set_selected, set_selectedRows in Hstep.
    destruct (mapM _ _); [| discriminate]. injection Hstep as <-.
    split; [exact Hm |]. unfold inOrder. simpl.
    rewrite dropdownSelectedRows_items.
    destruct (newSet_spec (rowsOfItems (get_choices this) (itemsOf m selected_)))
      as (Hnd & Hin & Hlen & _).
    split; [exact Hnd | split].
    + apply Forall_forall. intros r Hr. apply Hin in Hr.
      apply rowsOfItems_rows in Hr as (item & _ & Hfound).
      destruct (findIndex_Some _ _ _ Hfound) as [Hat _].
      apply lookup_value_lt in Hat.
      assert (length (get_choices this) = length (choices this)) as <-
        by (unfold get_choices; apply length_map).
      exact Hat.
    + rewrite Hm. intros Hfalse.
      pose proof (rowsOfItems_length (get_choices this) (itemsOf m selected_)).
      pose proof (itemsOf_length m selected_ Hfalse). lia.
  - unfold set_choices in Hstep.
    destruct (mapM (valueAt this) (selected this)) as [items|] eqn:Hread;
      [| discriminate].
    injection Hstep as <-. split; [exact Hm |].
    unfold inOrder. simpl. rewrite length_splitChoices.
    apply (rows_in_order (multiple this)).
    intros Hfalse. destruct IH as (_ & _ & Hone).
    apply mapM_Some, Forall2_length in Hread.
    specialize (Hone Hfalse). lia.
  - unfold click in Hstep.
    destruct (mapM (valueAt this) (selected this)); [| discriminate].
    destruct (onSelect _); [| discriminate]. injection Hstep as <-.
    split; [exact Hm |]. destruct IH as (Hnd & Hall & Hone).
    unfold inOrder. simpl.
    destruct (multiple this) eqn:Hmul.
    + case_decide as Hin.
      * split; [unfold delete; apply NoDup_filter; exact Hnd |].
        split; [apply forall_kept_by_delete; exact Hall | discriminate].
      * unfold add. case_decide; [contradiction |].
        split; [| split; [| discriminate]].
        -- apply NoDup_app. repeat split; [exact Hnd | | apply NoDup_singleton].
           intros y Hy Hy'. apply list_elem_of_singleton in Hy'. subst.
           contradiction.
        -- apply Forall_app. split; [exact Hall |]. repeat constructor. exact Hrow.
    + unfold newSet, add. simpl.
      split; [apply NoDup_singleton |].
      split; [repeat constructor; exact Hrow | intros _; simpl; lia].
  - unfold onCheck in Hstep.
    destruct (onSelect _); [| discriminate]. injection Hstep as <-.
    split; [exact Hm |]. unfold inOrder. simpl.
    split; [| split].
    + destruct value; [apply newSet_spec | constructor].
    + destruct value; [| constructor].
      apply Forall_forall. intros r Hr.
      rewrite newSet_elem, elem_of_seq in Hr. lia.
    + rewrite Hm, Htrue. discriminate.
Qed.

(** X16.  The selection of a dropdown stays in order and readable.  In
  every state a dropdown reaches (construction, the [selected] and
  [choices] setters, clicks on rows that exist, the "Select all" checkbox
  of a multiple dropdown) no row is selected twice, every selected row is
  a row of the choices, and a single-selection dropdown has at most one
  row selected; so reading [selectedValues] or [selectedValue] never
  raises, and neither do the setters nor a click on an existing row. *)
Theorem dropdown_selection_in_order (m : bool) (this : Selector) :
  reachable m this ->
  inOrder this /\
  is_Some (selectedValues this) /\
  is_Some (selectedValue this) /\
  (forall selected_, is_Some (set_selected m selected_ this)) /\
  (forall cs, is_Some (set_choices cs this)) /\
  (forall row, (row < length (choices this))%nat -> is_Some (click row this)).
Proof.
  intros Hreach.
  destruct (reachable_inOrder m this Hreach) as [Hm Hord].
  pose proof Hord as (Hnd & Hall & Hone).
  pose proof (mapM_valueAt_Some this (selected this) Hall) as Hread.
  split; [exact Hord |].
  split; [exact Hread |].
  split; [| split; [| split]].
  - unfold selectedValue. destruct (selected this) as [| row rest]; [eauto |].
    inversion Hall as [| ? ? Hrow _]; subst.
    unfold valueAt. apply lookup_lt_is_Some in Hrow as [x ->]. simpl. eauto.
  - intros selected_. unfold set_selected, set_selectedRows.
    rewrite dropdownSelectedRows_items.
    match goal with
    | |- context [mapM (valueAt this) ?rows] =>
        destruct (mapM_valueAt_Some this rows) as [vs ->]; [| eauto]
    end.
    apply Forall_forall. intros r Hr.
    rewrite newSet_elem, elem_of_app in Hr. destruct Hr as [Hr | Hr].
    + rewrite Forall_forall in Hall. apply Hall. exact Hr.
    + apply rowsOfItems_rows in Hr as (item & _ & Hfound).
      destruct (findIndex_Some _ _ _ Hfound) as [Hat _].
      apply lookup_value_lt in Hat.
      assert (length (get_choices this) = length (choices this)) as <-
        by (unfold get_choices; apply length_map).
      exact Hat.
  - intros cs. unfold set_choices. destruct Hread as [vs ->]. eauto.
  - intros row Hrow. unfold click. destruct Hread as [vs ->].
    match goal with
    | |- is_Some (_ <$> onSelect ?st) =>
        destruct (onSelect_inOrder st) as [u ->]; [| simpl; eauto]
    end.
    simpl. destruct (multiple this).
    + case_decide.
      * apply forall_kept_by_delete. exact Hall.
      * unfold add. case_decide; [exact Hall |].
        apply Forall_app. split; [exact Hall |]. repeat constructor. exact Hrow.
    + unfold newSet, add. simpl. repeat constructor. exact Hrow.
Qed.

(** X17.  [set selectedRows] reads every row of the old and of the new
  selection before it stores anything: it raises exactly when one of them
  is not a row of the choices, and otherwise the selection becomes the
  given rows, each once, in the order of their first occurrence. *)
Theorem set_selectedRows_raises_or_stores (rows : list nat) (this : Selector) :
  (set_selectedRows rows this = None <->
   exists r, r ∈ selected this ++ rows /\ (length (choices this) <= r)%nat) /\
  (forall this',
      set_selectedRows rows this = Some this' ->
      choices this' = choices this /\
      NoDup (selected this') /\
      (forall r, r ∈ selected this' <-> r ∈ rows) /\
      (NoDup rows -> selected this' = rows)).
Proof.
  unfold set_selectedRows. split.
  - destruct (mapM (valueAt this) (newSet (selected this ++ rows))) eqn:E.
    + split; [discriminate |]. intros (r & Hin & Hge). exfalso.
      assert (mapM (valueAt this) (newSet (selected this ++ rows)) = None)
        as Hnone.
      { apply mapM_valueAt_None. exists r. split; [| exact Hge].
        rewrite newSet_elem. exact Hin. }
      congruence.
    + split; [| reflexivity]. intros _.
      apply mapM_valueAt_None in E as (r & Hin & Hge).
      exists r. split; [rewrite newSet_elem in Hin; exact Hin | exact Hge].
  - intros this' Hstep.
    destruct (mapM (valueAt this) (newSet (selected this ++ rows)));
      [| discriminate].
    injection Hstep as <-. simpl.
    destruct (newSet_spec rows) as (Hnd & Hin & _ & Hid).
    repeat split; auto; apply Hin.
Qed.

(** X18.  New choices keep the selection by value: after
  [choices = cs], an item is selected exactly when it was selected before
  and is among the new choices; the rows are those of the new choices. *)
Theorem set_choices_keeps_values
  (cs : list (string * T)) (this this' : Selector) (before after_ : list T) :
  selectedValues this = Some before ->
  set_choices cs this = Some this' ->
  selectedValues this' = Some after_ ->
  forall item, item ∈ after_ <-> item ∈ before /\ present cs item.
Proof.
  unfold set_choices, selectedValues. intros Hbefore Hstep Hafter.
  rewrite Hbefore in Hstep. injection Hstep as <-. simpl in Hafter.
  apply mapM_Some in Hafter.
  intros item. split.
  - intros Hin.
    destruct (proj1 (list_elem_of_lookup _ _) Hin) as [i Hi].
    destruct (Forall2_lookup_r _ _ _ _ _ Hafter Hi) as (r & Hr & Hval).
    assert (r ∈ newSet (rowsOfItems cs before)) as Hrow
      by (apply list_elem_of_lookup; eauto).
    rewrite newSet_elem, rowsOfItems_rows in Hrow.
    destruct Hrow as (item' & Hitem' & Hfound).
    destruct (findIndex_Some _ _ _ Hfound) as [Hat _].
    unfold valueAt in Hval. simpl in Hval.
    rewrite lookup_splitChoices, Hat in Hval. injection Hval as ->.
    split; [exact Hitem' |].
    unfold present. apply list_elem_of_lookup. exists r.
    rewrite list_lookup_fmap. exact Hat.
  - intros [Hin Hp].
    destruct (findIndex cs item) as [r|] eqn:Hfound;
      [| apply findIndex_None in Hfound; contradiction].
    destruct (findIndex_Some _ _ _ Hfound) as [Hat _].
    assert (r ∈ newSet (rowsOfItems cs before)) as Hrow.
    { rewrite newSet_elem, rowsOfItems_rows. exists item. auto. }
    destruct (proj1 (list_elem_of_lookup _ _) Hrow) as [i Hi].
    destruct (Forall2_lookup_l _ _ _ _ _ Hafter Hi) as (v & Hv & Hval).
    unfold valueAt in Hval. simpl in Hval.
    rewrite lookup_splitChoices, Hat in Hval. injection Hval as <-.
    apply list_elem_of_lookup. eauto.
Qed.
End WithValues.

Definition sampleChoices : list (string * nat) :=
  [("one", 1); ("two", 2); ("three", 3)]%nat.

Lemma dropdown_selection_round_trip_witness :
  selectedValues (dropdown true [3; 9; 1]%nat sampleChoices)
    = Some (filter (present sampleChoices) [3; 9; 1]%nat) /\
  filter (present sampleChoices) [3; 9; 1]%nat = [3; 1]%nat.
Proof.
  split; [| vm_compute; reflexivity].
  apply (proj1 (dropdown_selection_round_trip sampleChoices
                  [3; 9; 1]%nat None)).
  apply (bool_decide_unpack (NoDup [3; 9; 1]%nat)). vm_compute. exact I.
Defined.
End SelectionFacts.

(** ** The overlay rectangle, continued *)

Module DropdownMoreFacts.
Import DropdownSelector.




(** X20.  The overlay hangs on its anchor.  The rectangle handed to
  [viewport.clipped] starts at the anchor's left edge (at column 0 when
  that edge is left of the screen) and is as wide as the anchor; placed
  below, its top row is the row after the anchor's last; placed above with
  a height that is not negative, it ends on the row before the anchor's
  first.  When it is placed above for want of room, its height is the
  anchor's top row plus one, so it starts on row -1. *)
Theorem overlay_hangs_on_anchor (naturalSize : Size.t) (viewport : Viewport.t) :
  let parentRect := Viewport.parentRect viewport in
  let r := rect naturalSize viewport in
  Rect.minX r = Z.max 0 (Rect.minX parentRect) /\
  Size.width (Rect.size r) = Z.max 0 (Size.width (Rect.size parentRect)) /\
  (placement naturalSize viewport = below ->
   Rect.minY r = Rect.maxY parentRect) /\
  (placement naturalSize viewport = above ->
   0 <= snd (place naturalSize viewport) ->
   Rect.maxY r = Rect.minY parentRect) /\
  (fitsBelow naturalSize viewport = false ->
   fitsAbove naturalSize viewport = false ->
   spaceBelow viewport < spaceAbove viewport ->
   Rect.minY r = -1).
Proof.
  cbv zeta. unfold rect, placement.
  destruct (place naturalSize viewport) as [pl h] eqn:Hplace. simpl.
  unfold Rect.minX, Rect.maxX, Rect.minY, Rect.maxY. simpl.
  repeat split.
  - lia.
  - intros ->. reflexivity.
  - intros -> Hh. lia.
  - intros Hb Ha Hlt. unfold place in Hplace. rewrite Hb, Ha in Hplace.
    simpl in Hplace. apply Z.ltb_lt in Hlt. rewrite Hlt in Hplace.
    injection Hplace as <- <-. unfold spaceAbove, Rect.minY. lia.
Qed.

Lemma overlay_hangs_on_anchor_witness :
  let parentRect := Viewport.parentRect DropdownFacts.tiedViewport in
  let r := rect (Size.new 8 10) DropdownFacts.tiedViewport in
  Rect.minX r = Z.max 0 (Rect.minX parentRect) /\
  Rect.minY r = Rect.maxY parentRect.
Proof.
  destruct (overlay_hangs_on_anchor (Size.new 8 10) DropdownFacts.tiedViewport)
    as (Hx & _ & Hbelow & _).
  split; [exact Hx | apply Hbelow; reflexivity].
Defined.
End DropdownMoreFacts.

(** ** components/Accordion.ts: laying the sections out *)

Module AccordionLayout.
(** A section, as far as the accordion's layout reads it: its wrapped
  [naturalSize]. *)
Definition SectionSize : Type := Size.t -> Size.t.

(** [Accordion.naturalSize]: the reduction over [this.sections], with the
  local [remainingSize] beside the accumulator. *)
Definition naturalSize (sections : list SectionSize) (availableSize : Size.t)
  : Size.t :=
  fst
    (foldl
       (fun '(size, remainingSize) (section : SectionSize) =>
          let sectionSize := section remainingSize in
          let remainingSize :=
            Size.shrink remainingSize 0 (Size.height sectionSize) in
          (Size.new (Z.max (Size.width sectionSize) (Size.width size))
             (Size.height size + Size.height sectionSize),
           remainingSize))
       (Size.mutableCopy Size.zero, availableSize) sections).

(** The loop of [Accordion.render]: the rectangles handed to
  [viewport.clipped], one for each section that is reached before the
  [break]. *)
Fixpoint renderFrom (viewport : Viewport.t) (sections : list SectionSize)
  (remainingSize : Size.t) (y : Z) : list Rect.t :=
  match sections with
  | [] => []
  | section :: more =>
      if Rect.maxY (Viewport.visibleRect viewport) <=? y then []
      else
        let sectionSize := section remainingSize in
        let remainingSize :=
          Size.shrink remainingSize 0 (Size.height sectionSize) in
        Rect.mk (Point.mk 0 y)
          (Size.new (Size.width remainingSize) (Size.height sectionSize))
        :: renderFrom viewport more remainingSize
             (y + Size.height sectionSize)
  end.

Definition render (sections : list SectionSize) (viewport : Viewport.t)
  : list Rect.t :=
  renderFrom viewport sections (Viewport.contentSize viewport) 0.

(** The sizes the sections answer with when each is offered what the
  sections before it have left. *)
Fixpoint answers (sections : list SectionSize) (remainingSize : Size.t)
  : list Size.t :=
  match sections with
  | [] => []
  | section :: more =>
      let sectionSize := section remainingSize in
      sectionSize
      :: answers more (Size.shrink remainingSize 0 (Size.height sectionSize))
  end.
End AccordionLayout.

Module AccordionLayoutFacts.
Import AccordionLayout.

Definition sumHeights (sizes : list Size.t) : Z :=
  foldr (fun s total => Size.height s + total) 0 sizes.
Definition maxWidth (sizes : list Size.t) : Z :=
  foldr (fun s widest => Z.max (Size.width s) widest) 0 sizes.

Lemma naturalSize_fold sections size remaining :
  Size.valid size ->
  Forall Size.valid (answers sections remaining) ->
  fst
    (foldl
       (fun '(size, remainingSize) (section : SectionSize) =>
          let sectionSize := section remainingSize in
          let remainingSize :=
            Size.shrink remainingSize 0 (Size.height sectionSize) in
          (Size.new (Z.max (Size.width sectionSize) (Size.width size))
             (Size.height size + Size.height sectionSize),
           remainingSize))
       (size, remaining) sections)
  = Size.mk
      (Z.max (Size.width size) (maxWidth (answers sections remaining)))
      (Size.height size + sumHeights (answers sections remaining)).
Proof.
  revert size remaining.
  induction sections as [| section more IH]; intros size remaining [Hw Hh] Hall;
    cbn [foldl answers].
  - simpl. destruct size as [w h]. simpl in *. f_equal; lia.
  - inversion Hall as [| ? ? [Hsw Hsh] Hall']; subst.
    cbv zeta. rewrite IH; [| split; simpl; lia | exact Hall'].
    unfold maxWidth, sumHeights. cbn [foldr]. simpl Size.width.
    simpl Size.height. f_equal; lia.
Qed.

(** X21.  The accordion is as tall as its sections together and as wide
  as the widest.  Each section is asked with the height the sections above
  it have left (never less than 0) and the full width; when the sections
  answer with sizes that are not negative, the accordion's natural height
  is the sum of the answers' heights and its width the largest of their
  widths. *)
Theorem accordion_natural_size
  (sections : list SectionSize) (availableSize : Size.t) :
  Forall Size.valid (answers sections availableSize) ->
  naturalSize sections availableSize
    = Size.mk (maxWidth (answers sections availableSize))
        (sumHeights (answers sections availableSize)).
Proof.
  intros Hall. unfold naturalSize.
  rewrite naturalSize_fold; [| split; simpl; lia | exact Hall].
  simpl. f_equal.
  assert (0 <= maxWidth (answers sections availableSize)) as H0.
  { clear. generalize (answers sections availableSize). intros sizes.
    induction sizes as [| s sizes IH]; simpl; lia. }
  lia.
Qed.

Lemma accordion_natural_size_witness :
  naturalSize [fun _ => Size.new 7 2; fun a => Size.new 4 (Size.height a)]
    (Size.new 20 5)
  = Size.mk
      (maxWidth (answers [fun _ => Size.new 7 2;
                          fun a => Size.new 4 (Size.height a)] (Size.new 20 5)))
      (sumHeights (answers [fun _ => Size.new 7 2;
                            fun a => Size.new 4 (Size.height a)] (Size.new 20 5))).
Proof.
  apply (accordion_natural_size
           [fun _ => Size.new 7 2; fun a => Size.new 4 (Size.height a)]
           (Size.new 20 5)).
  repeat constructor; vm_compute; discriminate.
Defined.

(** The second section is offered the three rows the first has left. *)
Example accordion_offers_what_is_left :
  naturalSize [fun _ => Size.new 7 2; fun a => Size.new 4 (Size.height a)]
    (Size.new 20 5)
  = Size.mk 7 5.
Proof. vm_compute. reflexivity. Qed.

(** Rectangles one below the other from row [y] on, all starting at
  column 0 and above row [bottom]. *)
Fixpoint stacked (bottom y : Z) (rects : list Rect.t) : Prop :=
  match rects with
  | [] => True
  | r :: more =>
      Rect.minX r = 0 /\ Rect.minY r = y /\ y < bottom /\
      stacked bottom (Rect.maxY r) more
  end.

Lemma renderFrom_stacked viewport sections remaining y :
  Forall Size.valid (answers sections remaining) ->
  stacked (Rect.maxY (Viewport.visibleRect viewport)) y
    (renderFrom viewport sections remaining y) /\
  (length (renderFrom viewport sections remaining y) <= length sections)%nat /\
  map (fun r => Size.height (Rect.size r))
      (renderFrom viewport sections remaining y)
    `prefix_of` map Size.height (answers sections remaining) /\
  Forall (fun r => Size.width (Rect.size r) = Z.max 0 (Size.width remaining))
    (renderFrom viewport sections remaining y).
Proof.
  revert remaining y.
  induction sections as [| section more IH]; intros remaining y Hall;
    cbn [renderFrom answers].
  - repeat split; [reflexivity | apply prefix_nil | constructor].
  - inversion Hall as [| ? ? [Hsw Hsh] Hall']; subst.
    destruct (Rect.maxY (Viewport.visibleRect viewport) <=? y) eqn:Hcut.
    + repeat split; [simpl; lia | apply prefix_nil | constructor].
    + apply Z.leb_gt in Hcut. cbv zeta.
      destruct (IH _ (y + Size.height (section remaining)) Hall')
        as (Hst & Hlen & Hpre & Hwid).
      repeat split.
      * exact Hcut.
      * unfold Rect.maxY. simpl.
        replace (Z.max 0 (Size.height (section remaining)))
          with (Size.height (section remaining)) by lia.
        exact Hst.
      * simpl. lia.
      * simpl. replace (Z.max 0 (Size.height (section remaining)))
          with (Size.height (section remaining)) by lia.
        apply prefix_cons. exact Hpre.
      * constructor; [simpl; lia |].
        eapply Forall_impl; [exact Hwid |]. intros r Hr. rewrite Hr.
        simpl. lia.
Qed.

(** X22.  [Accordion.render] stacks its sections.  When the sections
  answer with sizes that are not negative, the rectangles it clips to
  start at row 0 and column 0, each begins on the row where the one
  before ends and has the height its section asked for, all have the
  width of the content area, and no rectangle begins at or below the
  bottom of the visible part: the loop stops at the first section that
  would. *)
Theorem accordion_render_stacks
  (sections : list SectionSize) (viewport : Viewport.t) :
  Forall Size.valid (answers sections (Viewport.contentSize viewport)) ->
  stacked (Rect.maxY (Viewport.visibleRect viewport)) 0
    (render sections viewport) /\
  (length (render sections viewport) <= length sections)%nat /\
  map (fun r => Size.height (Rect.size r)) (render sections viewport)
    `prefix_of`
    map Size.height (answers sections (Viewport.contentSize viewport)) /\
  Forall
    (fun r => Size.width (Rect.size r)
              = Z.max 0 (Size.width (Viewport.contentSize viewport)))
    (render sections viewport).
Proof. intros Hall. apply renderFrom_stacked. exact Hall. Qed.

Definition threeSections : list SectionSize :=
  [fun _ => Size.new 10 2; fun _ => Size.new 10 3; fun _ => Size.new 10 4].

Definition shortViewport : Viewport.t :=
  Viewport.mk (Size.new 10 20)
    (Rect.mk Point.zero (Size.new 10 5)) (Rect.mk Point.zero (Size.new 10 20)).

Lemma accordion_render_stacks_witness :
  stacked (Rect.maxY (Viewport.visibleRect shortViewport)) 0
    (render threeSections shortViewport) /\
  (length (render threeSections shortViewport) <= length threeSections)%nat /\
  map (fun r => Size.height (Rect.size r)) (render threeSections shortViewport)
    `prefix_of`
    map Size.height (answers threeSections (Viewport.contentSize shortViewport)) /\
  Forall
    (fun r => Size.width (Rect.size r)
              = Z.max 0 (Size.width (Viewport.contentSize shortViewport)))
    (render threeSections shortViewport).
Proof.
  apply (accordion_render_stacks threeSections shortViewport).
  repeat constructor; vm_compute; discriminate.
Defined.

(** Five visible rows: the third section, which would begin on row 5, is
  not rendered. *)
Example accordion_render_stops :
  render threeSections shortViewport
  = [ Rect.mk (Point.mk 0 0) (Size.mk 10 2);
      Rect.mk (Point.mk 0 2) (Size.mk 10 3) ].
Proof. vm_compute. reflexivity. Qed.
End AccordionLayoutFacts.

(** ** Worked examples: text and dropdown *)

Module TextSampleFacts.
Import Text.

Definition twoLines : string := "ab" +:+ String newline "cde".

Definition twoLineProps (wrap : option bool) : Text.Props (Style := Sample.Style) :=
  mkProps Props.empty (Some twoLines) None None None wrap None.

Definition plainText : Text.t (Style := Sample.Style) :=
  Text.new Sample.lineWidth Sample.FONTS (twoLineProps None).

Definition wrappingText : Text.t (Style := Sample.Style) :=
  Text.new Sample.lineWidth Sample.FONTS (twoLineProps (Some true)).

Definition page : Viewport.t :=
  Viewport.mk (Size.new 10 4)
    (Rect.mk Point.zero (Size.new 10 4)) (Rect.mk Point.zero (Size.new 10 4)).

Lemma render_row_per_line_witness :
  TextMoreFacts.onRows Sample.charWidth Sample.printableChars 0
    (lines plainText)
    (Text.render Sample.charWidth Sample.printableChars Sample.fromSGR
       Sample.merge Sample.themeText plainText page).
Proof.
  apply (TextMoreFacts.render_row_per_line Sample.charWidth
           Sample.printableChars Sample.fromSGR Sample.merge Sample.themeText
           plainText page);
    vm_compute; reflexivity.
Defined.

(** The second line is painted on the second row. *)
Example two_lines_two_rows :
  Text.render Sample.charWidth Sample.printableChars Sample.fromSGR
    Sample.merge Sample.themeText plainText page
  = [ mkWrite "a" (Point.mk 0 0) ""; mkWrite "b" (Point.mk 1 0) "";
      mkWrite "c" (Point.mk 0 1) ""; mkWrite "d" (Point.mk 1 1) "";
      mkWrite "e" (Point.mk 2 1) "" ].
Proof. vm_compute. reflexivity. Qed.

Lemma naturalSize_nowrap_witness :
  Size.height (naturalSize plainText (Size.new 2 1))
    = Z.of_nat (length (lines plainText)) /\
  Forall (fun e => snd e <= Size.width (naturalSize plainText (Size.new 2 1)))
    (lines plainText) /\
  (Size.width (naturalSize plainText (Size.new 2 1)) = 0
   \/ exists e, e ∈ lines plainText
        /\ snd e = Size.width (naturalSize plainText (Size.new 2 1))).
Proof.
  apply (TextMoreFacts.naturalSize_nowrap plainText (Size.new 2 1)).
  vm_compute. reflexivity.
Defined.

(** Two columns are offered, three are asked for. *)
Example nowrap_ignores_available :
  naturalSize plainText (Size.new 2 1) = Size.mk 3 2.
Proof. vm_compute. reflexivity. Qed.

Lemma naturalSize_wrap_rows_witness :
  Size.height (naturalSize wrappingText (Size.new 3 9))
    = foldr (fun e rows => 1 + snd e `div` 3 + rows) 0 (lines wrappingText) /\
  Size.height (naturalSize wrappingText (Size.new 3 9)) = 3.
Proof.
  split; [| vm_compute; reflexivity].
  apply (proj1 (TextMoreFacts.naturalSize_wrap_rows wrappingText
                  (Size.new 3 9) eq_refl eq_refl
                  ltac:(repeat constructor; vm_compute; discriminate))).
Defined.

Lemma text_height_counts_newlines_witness :
  Size.height (naturalSize plainText (Size.new 10 4))
    = (if String.eqb twoLines "" then 0
       else 1 + Z.of_nat (TextMoreFacts.countNewlines twoLines)) /\
  Size.height (naturalSize plainText (Size.new 10 4)) = 2.
Proof.
  split; [| vm_compute; reflexivity].
  apply (proj1 (TextMoreFacts.text_height_counts_newlines Sample.lineWidth
                  Sample.FONTS (twoLineProps None) twoLines "" (Size.new 10 4)
                  eq_refl ltac:(discriminate))).
Defined.
End TextSampleFacts.

Module SelectionSampleFacts.
Import Selection SelectionFacts.

(** A multiple dropdown over three choices with "three" and "one"
  selected, after a click on the row of "two". *)
Definition clicked : Selection.t (T := nat) :=
  default (dropdown true [3; 1]%nat sampleChoices)
    (click 1 (dropdown true [3; 1]%nat sampleChoices)).

Lemma dropdown_selection_in_order_witness :
  reachable true clicked /\
  inOrder clicked /\
  is_Some (selectedValues clicked) /\
  is_Some (selectedValue clicked) /\
  (forall selected_, is_Some (set_selected true selected_ clicked)) /\
  (forall cs, is_Some (set_choices cs clicked)) /\
  (forall row, (row < length (choices clicked))%nat -> is_Some (click row clicked)).
Proof.
  assert (reachable true clicked) as Hreach.
  { apply (reach_click true (dropdown true [3; 1]%nat sampleChoices) 1%nat).
    - apply reach_new.
    - vm_compute. lia.
    - vm_compute. reflexivity. }
  split; [exact Hreach |].
  apply (dropdown_selection_in_order true clicked Hreach).
Defined.

(** The click has added the row of "two" after the rows selected at
  construction. *)
Example clicked_rows :
  selected clicked = [2; 0; 1]%nat /\
  selectedValues clicked = Some [3; 1; 2]%nat.
Proof. vm_compute. split; reflexivity. Qed.

Definition fewerChoices : list (string * nat) :=
  [("two", 2); ("four", 4); ("three", 3)]%nat.

Definition rechosen : Selection.t (T := nat) :=
  default clicked (set_choices fewerChoices clicked).

Lemma set_choices_keeps_values_witness :
  selectedValues clicked = Some [3; 1; 2]%nat /\
  set_choices fewerChoices clicked = Some rechosen /\
  selectedValues rechosen = Some [3; 2]%nat /\
  forall item,
    item ∈ [3; 2]%nat <-> item ∈ [3; 1; 2]%nat /\ present fewerChoices item.
Proof.
  assert (selectedValues clicked = Some [3; 1; 2]%nat) as Hbefore
    by (vm_compute; reflexivity).
  assert (set_choices fewerChoices clicked = Some rechosen) as Hstep
    by (vm_compute; reflexivity).
  assert (selectedValues rechosen = Some [3; 2]%nat) as Hafter
    by (vm_compute; reflexivity).
  repeat (split; [assumption |]).
  exact (set_choices_keeps_values fewerChoices clicked rechosen
           [3; 1; 2]%nat [3; 2]%nat Hbefore Hstep Hafter).
Defined.
End SelectionSampleFacts.

(** ** lib/util.ts: padding *)

Module Util.
Import Text.

(** How a call ends: with a value, with the [RangeError] of
  [String.prototype.repeat] for a negative count, or not within the depth
  of calls allowed to it. *)
Inductive Outcome (A : Type) :=
| returned (a : A)
| rangeError
| unfinished.
Arguments returned {A}.
Arguments rangeError {A}.
Arguments unfinished {A}.

Definition bind {A B : Type} (m : Outcome A) (k : A -> Outcome B) : Outcome B :=
  match m with
  | returned a => k a
  | rangeError => rangeError
  | unfinished => unfinished
  end.

(** [xs.map(f)], where a call of [f] that does not return ends the
  [map]. *)
Fixpoint mapOutcome {A B : Type} (f : A -> Outcome B) (xs : list A)
  : Outcome (list B) :=
  match xs with
  | [] => returned []
  | x :: more =>
      bind (f x) (fun y => bind (mapOutcome f more) (fun ys => returned (y :: ys)))
  end.

(** The strings of the model have no largest length: the limit an engine
  puts on the length of a string is not modelled. *)
Fixpoint spaces (count : nat) : string :=
  match count with
  | O => EmptyString
  | S count => String " " (spaces count)
  end.

(** [' '.repeat(count)] *)
Definition repeat_ (count : Z) : Outcome string :=
  if count <? 0 then rangeError else returned (spaces (Z.to_nat count)).

Section WithUnicode.
(** [unicode.lineWidth] ([lib/sys]) is not part of the sources. *)
Context (lineWidth : string -> Z).

Fixpoint leftPad (fuel : nat) (str : string) (length_ : Z) : Outcome string :=
  match fuel with
  | O => unfinished
  | S fuel =>
      let lines := split str in
      if (1 <? length lines)%nat then
        bind (mapOutcome (fun line => leftPad fuel line length_) lines)
          (fun padded => returned (join padded))
      else
        let width := lineWidth str in
        if length_ <=? width then returned str
        else
          bind (repeat_ (length_ - width)) (fun pad => returned (pad +:+ str))
  end.

Fixpoint rightPad (fuel : nat) (str : string) (length_ : Z) : Outcome string :=
  match fuel with
  | O => unfinished
  | S fuel =>
      let lines := split str in
      if (1 <? length lines)%nat then
        bind (mapOutcome (fun line => rightPad fuel line length_) lines)
          (fun padded => returned (join padded))
      else
        let width := lineWidth str in
        if length_ <=? width then returned str
        else
          bind (repeat_ (length_ - width)) (fun pad => returned (str +:+ pad))
  end.

(** [~~((length - width) / 2 + 0.5)] for an integer difference [d]:
  [d / 2 + 0.5] is [(d + 1) / 2], and [~~] truncates it towards zero. *)
Definition halfUp (d : Z) : Z := toInt32 (Z.quot (d + 1) 2).

Fixpoint centerPad (fuel : nat) (str : string) (length_ : Z) : Outcome string :=
  match fuel with
  | O => unfinished
  | S fuel =>
      let lines := split str in
      if (1 <? length lines)%nat then
        bind (mapOutcome (fun line => centerPad fuel line length_) lines)
          (fun padded => returned (join padded))
      else
        let width := lineWidth str in
        if length_ <=? width then returned str
        else
          bind (repeat_ (truncDiv (length_ - width) 2)) (fun left =>
          bind (repeat_ (halfUp (length_ - width))) (fun right =>
          returned (left +:+ str +:+ right)))
  end.
End WithUnicode.
End Util.

Module UtilFacts.
Import Text Util.

Abbreviation countNewlines := TextMoreFacts.countNewlines.

Lemma countNewlines_app a b :
  countNewlines (a +:+ b) = (countNewlines a + countNewlines b)%nat.
Proof.
  induction a as [| c a IH]; [reflexivity |].
  change (String c a +:+ b) with (String c (a +:+ b)).
  cbn [TextMoreFacts.countNewlines]. rewrite IH. lia.
Qed.

Lemma countNewlines_spaces n : countNewlines (spaces n) = 0%nat.
Proof. induction n as [| n IH]; [reflexivity |]. simpl. exact IH. Qed.

Lemma length_spaces n : String.length (spaces n) = n.
Proof. induction n as [| n IH]; [reflexivity |]. simpl. rewrite IH. reflexivity. Qed.

Lemma length_append a b :
  String.length (a +:+ b) = (String.length a + String.length b)%nat.
Proof.
  induction a as [| c a IH]; [reflexivity |].
  change (String c a +:+ b) with (String c (a +:+ b)).
  simpl. rewrite IH. reflexivity.
Qed.

(** A string without newline is its own single line. *)
Lemma split_one s : countNewlines s = 0%nat -> split s = [s].
Proof.
  induction s as [| c rest IH]; [reflexivity |].
  simpl. destruct (Ascii.eqb c newline); [discriminate |].
  intros H. rewrite (IH H). reflexivity.
Qed.

Lemma split_lines s : Forall (fun line => countNewlines line = 0%nat) (split s).
Proof.
  induction s as [| c rest IH]; [repeat constructor |].
  simpl. destruct (Ascii.eqb c newline) eqn:E.
  - constructor; [reflexivity | exact IH].
  - destruct (split rest) as [| line more]; [repeat constructor; simpl; rewrite E; reflexivity |].
    inversion IH as [| ? ? Hline Hmore]; subst.
    constructor; [| exact Hmore]. simpl. rewrite E. exact Hline.
Qed.

Lemma split_line_break line rest :
  countNewlines line = 0%nat ->
  split (line +:+ String newline rest) = line :: split rest.
Proof.
  induction line as [| c line IH]; intros H.
  - change (EmptyString +:+ String newline rest) with (String newline rest).
    reflexivity.
  - change (String c line +:+ String newline rest)
      with (String c (line +:+ String newline rest)).
    simpl in H |- *. destruct (Ascii.eqb c newline); [discriminate |].
    rewrite (IH H). reflexivity.
Qed.

(** [split] undoes [join] on lines without newline. *)
Lemma split_join ls :
  ls <> [] ->
  Forall (fun line => countNewlines line = 0%nat) ls ->
  split (join ls) = ls.
Proof.
  induction ls as [| line more IH]; [congruence |].
  intros _ Hall. inversion Hall as [| ? ? Hline Hmore]; subst.
  destruct more as [| l2 more].
  - simpl. apply split_one. exact Hline.
  - change (join (line :: l2 :: more))
      with (line +:+ String newline (join (l2 :: more))).
    rewrite (split_line_break _ _ Hline), IH; [reflexivity | discriminate | exact Hmore].
Qed.

Lemma mapOutcome_returned {A B : Type} (f : A -> Outcome B) (g : A -> B) xs :
  Forall (fun x => f x = returned (g x)) xs ->
  mapOutcome f xs = returned (map g xs).
Proof.
  induction 1 as [| x xs Hx _ IH]; [reflexivity |].
  simpl. rewrite Hx. simpl. rewrite IH. reflexivity.
Qed.

Lemma split_short s :
  (1 <? length (split s))%nat = false -> split s = [s].
Proof.
  intros H. apply Nat.ltb_ge in H.
  rewrite TextMoreFacts.split_length in H.
  apply split_one. lia.
Qed.

Section WithUnicode.
Context (lineWidth : string -> Z).

Abbreviation leftPad := (Util.leftPad lineWidth).
Abbreviation rightPad := (Util.rightPad lineWidth).
Abbreviation centerPad := (Util.centerPad lineWidth).

(** The number of spaces a line of the string is short of [length_]. *)
Definition missing (length_ : Z) (line : string) : nat :=
  Z.to_nat (length_ - lineWidth line).

Definition leftLine (length_ : Z) (line : string) : string :=
  spaces (missing length_ line) +:+ line.
Definition rightLine (length_ : Z) (line : string) : string :=
  line +:+ spaces (missing length_ line).
Definition centerLine (length_ : Z) (line : string) : string :=
  spaces (missing length_ line / 2) +:+ line
    +:+ spaces (missing length_ line - missing length_ line / 2).

Lemma append_empty s : s +:+ EmptyString = s.
Proof.
  induction s as [| c s IH]; [reflexivity |].
  change (String c s +:+ EmptyString) with (String c (s +:+ EmptyString)).
  rewrite IH. reflexivity.
Qed.

Lemma repeat_missing length_ line :
  lineWidth line < length_ ->
  repeat_ (length_ - lineWidth line) = returned (spaces (missing length_ line)).
Proof.
  intros H. unfold repeat_, missing.
  destruct (length_ - lineWidth line <? 0) eqn:E; [lia | reflexivity].
Qed.

Lemma missing_none length_ line :
  length_ <= lineWidth line -> missing length_ line = 0%nat.
Proof. unfold missing. lia. Qed.

Lemma leftPad_line fuel length_ line :
  countNewlines line = 0%nat ->
  leftPad (S fuel) line length_ = returned (leftLine length_ line).
Proof.
  intros H. cbn [Util.leftPad]. rewrite (split_one _ H). cbn [length Nat.ltb Nat.leb].
  unfold leftLine.
  destruct (length_ <=? lineWidth line) eqn:E.
  - rewrite missing_none by lia. reflexivity.
  - rewrite repeat_missing by lia. reflexivity.
Qed.

Lemma rightPad_line fuel length_ line :
  countNewlines line = 0%nat ->
  rightPad (S fuel) line length_ = returned (rightLine length_ line).
Proof.
  intros H. cbn [Util.rightPad]. rewrite (split_one _ H). cbn [length Nat.ltb Nat.leb].
  unfold rightLine.
  destruct (length_ <=? lineWidth line) eqn:E.
  - rewrite missing_none by lia. simpl. rewrite append_empty. reflexivity.
  - rewrite repeat_missing by lia. reflexivity.
Qed.

Lemma centerPad_line fuel length_ line :
  countNewlines line = 0%nat ->
  length_ - lineWidth line < 2 ^ 32 - 1 ->
  centerPad (S fuel) line length_ = returned (centerLine length_ line).
Proof.
  intros H Hsmall. cbn [Util.centerPad]. rewrite (split_one _ H).
  cbn [length Nat.ltb Nat.leb]. unfold centerLine.
  destruct (length_ <=? lineWidth line) eqn:E.
  - rewrite missing_none by lia. simpl. rewrite append_empty. reflexivity.
  - apply Z.leb_gt in E. unfold missing.
    set (d := length_ - lineWidth line) in *.
    assert (0 < d) as Hd by lia.
    pose proof (Z.quot_div_nonneg d 2 ltac:(lia) ltac:(lia)) as Hq.
    pose proof (Z.quot_div_nonneg (d + 1) 2 ltac:(lia) ltac:(lia)) as Hq1.
    unfold truncDiv, halfUp. simpl (2 =? 0).
    rewrite Hq, Hq1, !TextMoreFacts.toInt32_small by (split; [apply Z.div_pos; lia | apply Z.div_lt_upper_bound; lia]).
    unfold repeat_.
    destruct (d `div` 2 <? 0) eqn:E1; [apply Z.ltb_lt in E1; pose proof (Z.div_pos d 2); lia |].
    destruct ((d + 1) `div` 2 <? 0) eqn:E2; [apply Z.ltb_lt in E2; pose proof (Z.div_pos (d + 1) 2); lia |].
    simpl.
    replace (Z.to_nat (d `div` 2)) with (Z.to_nat d / 2)%nat
      by (rewrite Z2Nat.inj_div by lia; reflexivity).
    replace (Z.to_nat ((d + 1) `div` 2)) with (Z.to_nat d - Z.to_nat d / 2)%nat.
    + reflexivity.
    + apply Nat2Z.inj. rewrite Z2Nat.id by (apply Z.div_pos; lia).
      rewrite Nat2Z.inj_sub by (apply Nat.Div0.div_le_upper_bound; lia).
      rewrite Nat2Z.inj_div, Z2Nat.id by lia. simpl (Z.of_nat 2).
      pose proof (Z.div_mod d 2 ltac:(lia)).
      pose proof (Z.div_mod (d + 1) 2 ltac:(lia)).
      pose proof (Z.mod_pos_bound d 2 ltac:(lia)).
      pose proof (Z.mod_pos_bound (d + 1) 2 ltac:(lia)).
      lia.
Qed.

Lemma pad_lines (pad : nat -> string -> Z -> Outcome string)
  (padLine : Z -> string -> string) fuel str length_ :
  (forall line, line ∈ split str ->
     pad (S fuel) line length_ = returned (padLine length_ line)) ->
  (pad (S (S fuel)) str length_
   = if (1 <? length (split str))%nat
     then bind (mapOutcome (fun line => pad (S fuel) line length_) (split str))
            (fun padded => returned (join padded))
     else pad (S fuel) str length_) ->
  pad (S (S fuel)) str length_
  = returned (join (map (padLine length_) (split str))).
Proof.
  intros Hline ->.
  destruct (1 <? length (split str))%nat eqn:E.
  - rewrite (mapOutcome_returned _ (padLine length_)); [reflexivity |].
    apply Forall_forall. exact Hline.
  - rewrite (split_short _ E). simpl. apply Hline.
    rewrite (split_short _ E). apply list_elem_of_here.
Qed.

Lemma leftPad_unfold fuel str length_ :
  leftPad (S (S fuel)) str length_
  = if (1 <? length (split str))%nat
    then bind (mapOutcome (fun line => leftPad (S fuel) line length_) (split str))
           (fun padded => returned (join padded))
    else leftPad (S fuel) str length_.
Proof.
  change (leftPad (S (S fuel)) str length_)
    with (let lines := split str in
          if (1 <? length lines)%nat then
            bind (mapOutcome (fun line => leftPad (S fuel) line length_) lines)
              (fun padded => returned (join padded))
          else
            let width := lineWidth str in
            if length_ <=? width then returned str
            else
              bind (repeat_ (length_ - width))
                (fun pad => returned (pad +:+ str))).
  cbv zeta. destruct (1 <? length (split str))%nat eqn:E; [reflexivity |].
  cbn [Util.leftPad]. rewrite E. reflexivity.
Qed.

Lemma rightPad_unfold fuel str length_ :
  rightPad (S (S fuel)) str length_
  = if (1 <? length (split str))%nat
    then bind (mapOutcome (fun line => rightPad (S fuel) line length_) (split str))
           (fun padded => returned (join padded))
    else rightPad (S fuel) str length_.
Proof.
  change (rightPad (S (S fuel)) str length_)
    with (let lines := split str in
          if (1 <? length lines)%nat then
            bind (mapOutcome (fun line => rightPad (S fuel) line length_) lines)
              (fun padded => returned (join padded))
          else
            let width := lineWidth str in
            if length_ <=? width then returned str
            else
              bind (repeat_ (length_ - width))
                (fun pad => returned (str +:+ pad))).
  cbv zeta. destruct (1 <? length (split str))%nat eqn:E; [reflexivity |].
  cbn [Util.rightPad]. rewrite E. reflexivity.
Qed.

Lemma centerPad_unfold fuel str length_ :
  centerPad (S (S fuel)) str length_
  = if (1 <? length (split str))%nat
    then bind (mapOutcome (fun line => centerPad (S fuel) line length_) (split str))
           (fun padded => returned (join padded))
    else centerPad (S fuel) str length_.
Proof.
  change (centerPad (S (S fuel)) str length_)
    with (let lines := split str in
          if (1 <? length lines)%nat then
            bind (mapOutcome (fun line => centerPad (S fuel) line length_) lines)
              (fun padded => returned (join padded))
          else
            let width := lineWidth str in
            if length_ <=? width then returned str
            else
              bind (repeat_ (truncDiv (length_ - width) 2)) (fun left =>
              bind (repeat_ (halfUp (length_ - width))) (fun right =>
              returned (left +:+ str +:+ right)))).
  cbv zeta. destruct (1 <? length (split str))%nat eqn:E; [reflexivity |].
  cbn [Util.centerPad]. rewrite E. reflexivity.
Qed.

Lemma padded_lines (padLine : string -> string) str :
  (forall line, countNewlines line = 0%nat -> countNewlines (padLine line) = 0%nat) ->
  split (join (map padLine (split str))) = map padLine (split str).
Proof.
  intros Hkeep. apply split_join.
  - pose proof (TextMoreFacts.split_length str) as Hlen.
    destruct (split str); [discriminate | discriminate].
  - apply Forall_map. eapply Forall_impl; [apply split_lines |].
    exact Hkeep.
Qed.

(** X23.  [leftPad] and [rightPad] pad line by line and always return.
  Two levels of calls are enough for any string: the lines of a string
  hold no newline, so the calls on them do not divide again.  The result
  has the lines of the string in their order, each with its missing spaces
  ([length] less the terminal width of the line, none when that is not
  positive) before it for [leftPad] and after it for [rightPad]; no line
  is added, dropped or cut. *)
Theorem leftPad_rightPad_line_by_line (fuel : nat) (str : string) (length_ : Z) :
  leftPad (S (S fuel)) str length_
    = returned (join (map (leftLine length_) (split str))) /\
  rightPad (S (S fuel)) str length_
    = returned (join (map (rightLine length_) (split str))) /\
  split (join (map (leftLine length_) (split str)))
    = map (leftLine length_) (split str) /\
  split (join (map (rightLine length_) (split str)))
    = map (rightLine length_) (split str).
Proof.
  pose proof (split_lines str) as Hlines. rewrite Forall_forall in Hlines.
  repeat split.
  - apply (pad_lines (Util.leftPad lineWidth) leftLine).
    + intros line Hin. apply leftPad_line, Hlines, Hin.
    + apply leftPad_unfold.
  - apply (pad_lines (Util.rightPad lineWidth) rightLine).
    + intros line Hin. apply rightPad_line, Hlines, Hin.
    + apply rightPad_unfold.
  - apply padded_lines. intros line H. unfold leftLine.
    rewrite countNewlines_app, countNewlines_spaces, H. reflexivity.
  - apply padded_lines. intros line H. unfold rightLine.
    rewrite countNewlines_app, countNewlines_spaces, H. reflexivity.
Qed.

(** X24.  [centerPad] splits the missing spaces of a line in two halves
  and puts the odd space on the right.  When no line is [2^32 - 1] or
  more columns short of [length], [centerPad] returns the lines of the
  string in their order, each between its two runs of spaces; the runs
  add up to the missing spaces, and the right one is as long as the left
  one or longer by one. *)
Theorem centerPad_odd_space_right (fuel : nat) (str : string) (length_ : Z) :
  Forall (fun line => length_ - lineWidth line < 2 ^ 32 - 1) (split str) ->
  centerPad (S (S fuel)) str length_
    = returned (join (map (centerLine length_) (split str))) /\
  split (join (map (centerLine length_) (split str)))
    = map (centerLine length_) (split str) /\
  Forall
    (fun line =>
       exists left right,
         centerLine length_ line = spaces left +:+ line +:+ spaces right /\
         (left + right = missing length_ line)%nat /\
         (left <= right <= left + 1)%nat)
    (split str).
Proof.
  intros Hsmall. rewrite Forall_forall in Hsmall.
  pose proof (split_lines str) as Hlines. rewrite Forall_forall in Hlines.
  repeat split.
  - apply (pad_lines (Util.centerPad lineWidth) centerLine).
    + intros line Hin. apply centerPad_line; [apply Hlines | apply Hsmall]; exact Hin.
    + apply centerPad_unfold.
  - apply padded_lines. intros line H. unfold centerLine.
    rewrite !countNewlines_app, !countNewlines_spaces, H. reflexivity.
  - apply Forall_forall. intros line _.
    exists (missing length_ line / 2)%nat,
      (missing length_ line - missing length_ line / 2)%nat.
    split; [reflexivity |].
    pose proof (Nat.div_mod_eq (missing length_ line) 2) as Hdm.
    pose proof (Nat.mod_upper_bound (missing length_ line) 2 ltac:(lia)).
    lia.
Qed.

(** X25.  On plain text the padded lines are [length] wide.  When the
  terminal width of every line of the string is its number of characters,
  [leftPad] and [rightPad] return a string with as many lines as the
  string has, and each of them has [length] characters, or those of its
  line of the string when that was wider: a wider line is neither padded
  nor cut. *)
Theorem pads_fill_to_length (fuel : nat) (str : string) (length_ : Z) :
  Forall (fun line => lineWidth line = Z.of_nat (String.length line))
    (split str) ->
  exists left right,
    leftPad (S (S fuel)) str length_ = returned left /\
    rightPad (S (S fuel)) str length_ = returned right /\
    Forall2
      (fun line padded =>
         Z.of_nat (String.length padded) = Z.max length_ (lineWidth line))
      (split str) (split left) /\
    Forall2
      (fun line padded =>
         Z.of_nat (String.length padded) = Z.max length_ (lineWidth line))
      (split str) (split right).
Proof.
  intros Hplain.
  pose proof (split_lines str) as Hlines. rewrite Forall_forall in Hlines.
  exists (join (map (leftLine length_) (split str))),
    (join (map (rightLine length_) (split str))).
  split; [| split; [| split]].
  - apply (pad_lines (Util.leftPad lineWidth) leftLine).
    + intros line Hin. apply leftPad_line, Hlines, Hin.
    + apply leftPad_unfold.
  - apply (pad_lines (Util.rightPad lineWidth) rightLine).
    + intros line Hin. apply rightPad_line, Hlines, Hin.
    + apply rightPad_unfold.
  - rewrite padded_lines.
    + apply Forall2_fmap_r, Forall_Forall2_diag.
      eapply Forall_impl; [exact Hplain |]. intros line Hw. simpl in Hw |- *.
      unfold leftLine. rewrite length_append, length_spaces.
      unfold missing. lia.
    + intros line H. unfold leftLine.
      rewrite countNewlines_app, countNewlines_spaces, H. reflexivity.
  - rewrite padded_lines.
    + apply Forall2_fmap_r, Forall_Forall2_diag.
      eapply Forall_impl; [exact Hplain |]. intros line Hw. simpl in Hw |- *.
      unfold rightLine. rewrite length_append, length_spaces.
      unfold missing. lia.
    + intros line H. unfold rightLine.
      rewrite countNewlines_app, countNewlines_spaces, H. reflexivity.
Qed.
End WithUnicode.

(** A count of [2^32] spaces is halved to [2^31], which [~~] turns into
  [-2^31]: [repeat] raises. *)
Example centerPad_range_error :
  Util.centerPad (fun _ => 0) 2 "x" (2 ^ 32) = rangeError.
Proof. vm_compute. reflexivity. Qed.

Definition asciiWidth (line : string) : Z := Z.of_nat (String.length line).

Lemma centerPad_odd_space_right_witness :
  Util.centerPad asciiWidth 2 ("ab" +:+ String newline "c") 5
    = returned (join (map (centerLine asciiWidth 5)
                        (split ("ab" +:+ String newline "c")))) /\
  join (map (centerLine asciiWidth 5) (split ("ab" +:+ String newline "c")))
    = " ab  " +:+ String newline "  c  ".
Proof.
  split; [| vm_compute; reflexivity].
  apply (proj1 (centerPad_odd_space_right asciiWidth 0
                  ("ab" +:+ String newline "c") 5
                  ltac:(repeat constructor; vm_compute; reflexivity))).
Defined.

Lemma pads_fill_to_length_witness :
  exists left right,
    Util.leftPad asciiWidth 2 ("ab" +:+ String newline "cdefgh") 5
      = returned left /\
    Util.rightPad asciiWidth 2 ("ab" +:+ String newline "cdefgh") 5
      = returned right /\
    Forall2
      (fun line padded =>
         Z.of_nat (String.length padded) = Z.max 5 (asciiWidth line))
      (split ("ab" +:+ String newline "cdefgh")) (split left) /\
    Forall2
      (fun line padded =>
         Z.of_nat (String.length padded) = Z.max 5 (asciiWidth line))
      (split ("ab" +:+ String newline "cdefgh")) (split right).
Proof.
  apply (pads_fill_to_length asciiWidth 0
           ("ab" +:+ String newline "cdefgh") 5).
  repeat constructor.
Defined.

(** The long line is kept as it is. *)
Example leftPad_keeps_long_line :
  Util.leftPad asciiWidth 2 ("ab" +:+ String newline "cdefgh") 5
  = returned ("   ab" +:+ String newline "cdefgh").
Proof. vm_compute. reflexivity. Qed.
End UtilFacts.

(** ** Accordions with [multiple], and clicks that close *)

Module AccordionMoreFacts.
Import Accordion AccordionFacts.








Definition threeOpen : World :=
  mkWorld
    {[ 1%nat := mkSection true (Some boundSectionDidChange);
       2%nat := mkSection false (Some boundSectionDidChange);
       3%nat := mkSection true (Some boundSectionDidChange) ]}
    true [section 1; section 2; section 3].


(** All three sections are open after the click. *)
Example multiple_keeps_others_open :
  (fun w => (fun id => isOpen <$> heap w !! id) <$> sections w)
    <$> receiveMouse 1 2 click threeOpen
  = Some [Some true; Some true; Some true].
Proof. vm_compute. reflexivity. Qed.



End AccordionMoreFacts.

(** ** components/Collapsible.ts *)

Module Collapsible.
Section WithEvents.
(** [lib/events.ts] is not part of the sources: the event and the
  predicates [receiveMouse] asks of it are taken as they come. *)
Context {MouseEvent : Type}.
Context (isMousePressed isMouseReleased isMouseEnter isMouseExit
           isMouseClicked : MouseEvent -> bool).

(** The two child views enter by their [naturalSize]. *)
Record t := mk {
  base : View.t;                        (* the fields of the superclass *)
  collapsedView : Size.t -> Size.t;     (* #collapsedView.naturalSize *)
  expandedView : Size.t -> Size.t;      (* #expandedView.naturalSize *)
  isCollapsed : bool;                   (* #isCollapsed *)
  isPressed : bool;                     (* #isPressed *)
  isHover : bool;                       (* #isHover *)
}.

(** [new Collapsible({isCollapsed, collapsedView, expandedView, ...viewProps})] *)
Definition new (isCollapsed_ : option bool)
  (collapsedView_ expandedView_ : Size.t -> Size.t) (viewProps : Props.t) : t :=
  mk (View.new viewProps) collapsedView_ expandedView_
     (default false isCollapsed_) false false.

Definition naturalSize (this : t) (availableSize : Size.t) : Size.t :=
  if isCollapsed this
  then Size.grow (collapsedView this availableSize) 2 0
  else Size.grow (expandedView this availableSize) 2 0.

(** The method the constructor of [View] installs over [naturalSize]. *)
Definition wrappedNaturalSize (this : t) (availableSize : Size.t)
  : Size.t * t :=
  let '(size, base') :=
    View.naturalSizeWrap (naturalSize this) (base this) availableSize in
  (size,
   mk base' (collapsedView this) (expandedView this) (isCollapsed this)
      (isPressed this) (isHover this)).

Definition receiveMouse (event : MouseEvent) (this : t) : t :=
  let this :=
    if isMousePressed event then
      mk (base this) (collapsedView this) (expandedView this)
         (isCollapsed this) true (isHover this)
    else if isMouseReleased event then
      let this :=
        mk (base this) (collapsedView this) (expandedView this)
           (isCollapsed this) false (isHover this) in
      if isMouseClicked event then
        mk (View.invalidateSize (base this)) (collapsedView this)
           (expandedView this) (negb (isCollapsed this)) (isPressed this)
           (isHover this)
      else this
    else this in
  if isMouseEnter event then
    mk (base this) (collapsedView this) (expandedView this)
       (isCollapsed this) (isPressed this) true
  else if isMouseExit event then
    mk (base this) (collapsedView this) (expandedView this)
       (isCollapsed this) (isPressed this) false
  else this.

End WithEvents.
End Collapsible.

Module CollapsibleFacts.
Import Collapsible.

Section WithEvents.
Context {MouseEvent : Type}.
Context (isMousePressed isMouseReleased isMouseEnter isMouseExit
           isMouseClicked : MouseEvent -> bool).

Abbreviation receiveMouse :=
  (Collapsible.receiveMouse isMousePressed isMouseReleased isMouseEnter
     isMouseExit isMouseClicked).

(** The events that toggle: a release that is a click, and not a press. *)
Definition toggles (event : MouseEvent) : bool :=
  negb (isMousePressed event) && isMouseReleased event && isMouseClicked event.

Lemma receiveMouse_toggles event this :
  toggles event = true ->
  isCollapsed (receiveMouse event this) = negb (isCollapsed this) /\
  base (receiveMouse event this) = View.invalidateSize (base this) /\
  collapsedView (receiveMouse event this) = collapsedView this /\
  expandedView (receiveMouse event this) = expandedView this.
Proof.
  unfold toggles, Collapsible.receiveMouse. intros H.
  destruct (isMousePressed event), (isMouseReleased event),
    (isMouseClicked event); try discriminate.
  destruct (isMouseEnter event), (isMouseExit event); repeat split.
Qed.

Lemma receiveMouse_keeps event this :
  toggles event = false ->
  isCollapsed (receiveMouse event this) = isCollapsed this /\
  base (receiveMouse event this) = base this /\
  collapsedView (receiveMouse event this) = collapsedView this /\
  expandedView (receiveMouse event this) = expandedView this.
Proof.
  unfold toggles, Collapsible.receiveMouse. intros H.
  destruct (isMousePressed event), (isMouseReleased event),
    (isMouseClicked event); try discriminate;
    destruct (isMouseEnter event), (isMouseExit event); repeat split.
Qed.

(** X28.  A click switches a [Collapsible] to its other view and drops
  the sizes it has cached.  After an event that is a released click, the
  natural size is that of the view that was hidden, two columns wider,
  the size cache is empty, so that the wrapped [naturalSize] answers for
  the new view even where it had cached an answer for the old one, and a
  second click shows the first view again.  Any other event leaves the
  collapsed state and the view's cache as they are. *)
Theorem click_switches_view (event : MouseEvent) (this : t) :
  toggles event = true ->
  let this' := receiveMouse event this in
  (forall availableSize,
      naturalSize this' availableSize
      = Size.grow
          ((if isCollapsed this then expandedView this else collapsedView this)
             availableSize) 2 0) /\
  View.prevSizeCache (base this') = ∅ /\
  (forall availableSize,
      fst (wrappedNaturalSize this' availableSize)
      = fst (View.naturalSizeWrap (naturalSize this')
               (View.set_prevSizeCache ∅ (base this)) availableSize)) /\
  (forall availableSize,
      naturalSize (receiveMouse event this') availableSize
      = naturalSize this availableSize) /\
  (forall other,
      toggles other = false ->
      isCollapsed (receiveMouse other this) = isCollapsed this /\
      base (receiveMouse other this) = base this).
Proof.
  intros Hclick this'.
  destruct (receiveMouse_toggles event this Hclick) as (Hc & Hb & Hcv & Hev).
  fold this' in Hc, Hb, Hcv, Hev.
  assert (forall availableSize,
             naturalSize this' availableSize
             = Size.grow
                 ((if isCollapsed this then expandedView this
                   else collapsedView this) availableSize) 2 0) as Hnat.
  { intros a. unfold naturalSize. rewrite Hc, Hcv, Hev.
    destruct (isCollapsed this); reflexivity. }
  split; [exact Hnat |].
  split; [rewrite Hb; destruct (base this); reflexivity |].
  split; [| split].
  - intros a. unfold wrappedNaturalSize.
    destruct (View.naturalSizeWrap (naturalSize this') (base this') a)
      as [size base'] eqn:Hw.
    simpl. change size with (fst (size, base')). rewrite <- Hw, Hb.
    rewrite !ViewMoreFacts.naturalSizeWrap_value.
    destruct (base this) as [p d th c vcs rcs ip vx vy w h mnw mnh mxw mxh pad].
    simpl. rewrite lookup_empty. reflexivity.
  - intros a.
    destruct (receiveMouse_toggles event this' Hclick) as (Hc2 & _ & Hcv2 & Hev2).
    unfold naturalSize. rewrite Hc2, Hcv2, Hev2, Hc, Hcv, Hev.
    rewrite negb_involutive. reflexivity.
  - intros other Hother.
    destruct (receiveMouse_keeps other this Hother) as (H1 & H2 & _).
    split; assumption.
Qed.

End WithEvents.

(** Stand-ins for the events: a button going down, a button coming up
  (as a click or not), and the pointer entering or leaving. *)
Inductive SampleEvent := down | up (clicked : bool) | enter | leave.

Definition samplePressed (e : SampleEvent) : bool :=
  match e with down => true | _ => false end.
Definition sampleReleased (e : SampleEvent) : bool :=
  match e with up _ => true | _ => false end.
Definition sampleEnter (e : SampleEvent) : bool :=
  match e with enter => true | _ => false end.
Definition sampleExit (e : SampleEvent) : bool :=
  match e with leave => true | _ => false end.
Definition sampleClicked (e : SampleEvent) : bool :=
  match e with up clicked => clicked | _ => false end.

Definition sampleReceiveMouse : SampleEvent -> t -> t :=
  Collapsible.receiveMouse samplePressed sampleReleased sampleEnter sampleExit
    sampleClicked.

(** A summary line over ten rows of detail, shown expanded at first. *)
Definition details : t :=
  new None (fun _ => Size.new 7 1) (fun _ => Size.new 30 10) Props.empty.

Lemma click_switches_view_witness :
  let this' := sampleReceiveMouse (up true) details in
  (forall availableSize,
      naturalSize this' availableSize
      = Size.grow
          ((if isCollapsed details then expandedView details
            else collapsedView details) availableSize) 2 0) /\
  View.prevSizeCache (base this') = ∅ /\
  (forall availableSize,
      fst (wrappedNaturalSize this' availableSize)
      = fst (View.naturalSizeWrap (naturalSize this')
               (View.set_prevSizeCache ∅ (base details)) availableSize)) /\
  (forall availableSize,
      naturalSize (sampleReceiveMouse (up true) this') availableSize
      = naturalSize details availableSize) /\
  (forall other,
      toggles samplePressed sampleReleased sampleClicked other = false ->
      isCollapsed (sampleReceiveMouse other details) = isCollapsed details /\
      base (sampleReceiveMouse other details) = base details).
Proof.
  apply (click_switches_view samplePressed sampleReleased sampleEnter
           sampleExit sampleClicked (up true) details).
  reflexivity.
Defined.

(** Measured, clicked, measured again: the second answer is for the
  summary line, not the cached one for the detail. *)
Example click_then_measure :
  let '(before, this1) := wrappedNaturalSize details (Size.new 40 20) in
  let this2 := sampleReceiveMouse (up true) this1 in
  before = Size.mk 32 10 /\
  View.prevSizeCache (base this1) !! View.cacheKey (Size.new 40 20)
    = Some (Size.mk 32 10) /\
  fst (wrappedNaturalSize this2 (Size.new 40 20)) = Size.mk 9 1.
Proof. vm_compute. repeat split; reflexivity. Qed.
End CollapsibleFacts.

(** ** components/Text.ts: wrapping *)

Module TextWrapFacts.
Import Text.

Section WithExternals.
Context {Style : Type}.
Context (charWidth : string -> Z).
Context (printableChars : string -> list string).
Context (fromSGR : string -> Style).
Context (merge : Style -> option Style -> Style).
Context (themeText : Theme.t -> Style).

Abbreviation Text := (Text.t (Style := Style)).
Abbreviation renderChar := (Text.renderChar charWidth fromSGR).
Abbreviation renderLine := (Text.renderLine charWidth printableChars fromSGR).
Abbreviation render :=
  (Text.render charWidth printableChars fromSGR merge themeText).

(** Calls of [write] whose rows never go up, none above row [from]. *)
Fixpoint rowsAscend (from : Z) (ws : list (Write Style)) : Prop :=
  match ws with
  | [] => True
  | w :: more =>
      from <= Point.y (position w) /\ rowsAscend (Point.y (position w)) more
  end.

(** A call that starts left of the right edge of the content, or at
  column 0. *)
Definition inContent (viewport : Viewport.t) (w : Write Style) : Prop :=
  Point.x (position w) < Size.width (Viewport.contentSize viewport)
  \/ Point.x (position w) = 0.

Lemma rowsAscend_weaken from from' ws :
  from' <= from -> rowsAscend from ws -> rowsAscend from' ws.
Proof. destruct ws as [| w ws]; simpl; [auto |]. intros ? [? ?]. split; [lia | assumption]. Qed.

Lemma rowsAscend_app from ws upto more :
  rowsAscend from ws ->
  Forall (fun w => Point.y (position w) <= upto) ws ->
  from <= upto ->
  rowsAscend upto more ->
  rowsAscend from (ws ++ more).
Proof.
  revert from. induction ws as [| w ws IH]; intros from Hws Hall Hle Hmore.
  - simpl. apply (rowsAscend_weaken upto); assumption.
  - destruct Hws as [Hw Hws]. inversion Hall as [| ? ? Hwu Hall']; subst.
    simpl. split; [exact Hw |].
    apply IH; assumption.
Qed.

(** One character: the row stays or goes down by one, and a call that is
  added is on the row reached; with wrapping it is inside the content. *)
Lemma wrapChar_step (this : Text) viewport st c :
  let st' := renderChar this viewport st c in
  Point.y (point st) <= Point.y (point st') /\
  (writes st' = writes st
   \/ exists w,
       writes st' = writes st ++ [w] /\
       Point.y (position w) = Point.y (point st') /\
       (wrap this = true -> inContent viewport w)).
Proof.
  unfold Text.renderChar, inContent.
  destruct (charWidth c =? 0) eqn:Hw; simpl.
  { split; [lia | left; reflexivity]. }
  destruct (wrap this) eqn:Hwrap; simpl.
  - destruct (Size.width (Viewport.contentSize viewport) <=? Point.x (point st))
      eqn:Hedge; simpl.
    + destruct (matchesSpace c); simpl.
      * split; [lia | left; reflexivity].
      * destruct ((Rect.minX (Viewport.visibleRect viewport) <=? 0)
                  && (0 + charWidth c - 1
                        <? Rect.maxX (Viewport.visibleRect viewport)));
          simpl; (split; [lia |]); [right | left; reflexivity].
        eexists. split; [reflexivity |]. simpl. split; [reflexivity |].
        intros _. right. reflexivity.
    + apply Z.leb_gt in Hedge.
      destruct (didWrap st && matchesSpace c); simpl.
      * split; [lia | left; reflexivity].
      * destruct ((Rect.minX (Viewport.visibleRect viewport)
                     <=? Point.x (point st))
                  && (Point.x (point st) + charWidth c - 1
                        <? Rect.maxX (Viewport.visibleRect viewport)));
          simpl; (split; [lia |]); [right | left; reflexivity].
        eexists. split; [reflexivity |]. simpl. split; [reflexivity |].
        intros _. left. exact Hedge.
  - destruct (didWrap st && matchesSpace c); simpl.
    + split; [lia | left; reflexivity].
    + destruct ((Rect.minX (Viewport.visibleRect viewport)
                   <=? Point.x (point st))
                && (Point.x (point st) + charWidth c - 1
                      <? Rect.maxX (Viewport.visibleRect viewport)));
        simpl; (split; [lia |]); [right | left; reflexivity].
      eexists. split; [reflexivity |]. simpl. split; [reflexivity |].
      discriminate.
Qed.

(** What a run of the loops adds: calls on ascending rows between the row
  it starts on and the row it ends on. *)
Definition adds (this : Text) (viewport : Viewport.t) (st st' : Pass)
  : Prop :=
  Point.y (point st) <= Point.y (point st') /\
  exists added,
    writes st' = writes st ++ added /\
    rowsAscend (Point.y (point st)) added /\
    Forall (fun w => Point.y (position w) <= Point.y (point st')) added /\
    (wrap this = true -> Forall (inContent viewport) added).

Lemma adds_refl this viewport st : adds this viewport st st.
Proof.
  split; [lia |]. exists []. rewrite app_nil_r.
  repeat split; constructor.
Qed.

Lemma adds_trans this viewport st1 st2 st3 :
  adds this viewport st1 st2 -> adds this viewport st2 st3 ->
  adds this viewport st1 st3.
Proof.
  intros (Hle1 & a1 & Hw1 & Hasc1 & Hup1 & Hin1)
         (Hle2 & a2 & Hw2 & Hasc2 & Hup2 & Hin2).
  split; [lia |]. exists (a1 ++ a2).
  split; [rewrite Hw2, Hw1, app_assoc; reflexivity |].
  split; [| split].
  - apply (rowsAscend_app _ _ (Point.y (point st2))); assumption.
  - apply Forall_app. split; [| exact Hup2].
    eapply Forall_impl; [exact Hup1 |]. simpl. intros w Hw. lia.
  - intros Hwrap. apply Forall_app. split; auto.
Qed.

Lemma renderChar_adds this viewport st c :
  adds this viewport st (renderChar this viewport st c).
Proof.
  destruct (wrapChar_step this viewport st c) as [Hle [Hsame | (w & Hw & Hy & Hin)]].
  - split; [exact Hle |]. exists []. rewrite app_nil_r.
    repeat split; try constructor. exact Hsame.
  - split; [exact Hle |]. exists [w].
    split; [exact Hw |].
    split; [simpl; split; [lia | exact I] |].
    split; [repeat constructor; lia |].
    intros Hwrap. constructor; [exact (Hin Hwrap) | constructor].
Qed.

Lemma renderChars_adds this viewport chars st :
  adds this viewport st (foldl (renderChar this viewport) st chars).
Proof.
  revert st. induction chars as [| c chars IH]; intros st; cbn [foldl].
  - apply adds_refl.
  - eapply adds_trans; [apply renderChar_adds | apply IH].
Qed.

(** Moving the pen along its row, or down, adds nothing. *)
Lemma moved_adds this viewport st pen' x' dy wrapped :
  0 <= dy ->
  adds this viewport st
    (mkPass pen' (Point.mk x' (Point.y (point st) + dy)) wrapped (writes st)).
Proof.
  intros Hdy. split; [simpl; lia |]. exists []. rewrite app_nil_r.
  repeat split; constructor.
Qed.

Lemma renderLine_adds this viewport st entry :
  adds this viewport st (renderLine this viewport st entry).
Proof.
  destruct entry as [line width]. unfold Text.renderLine.
  destruct (String.eqb line "").
  - apply moved_adds. lia.
  - cbv zeta.
    match goal with
    | |- context [foldl _ ?s0 (printableChars line)] =>
        pose proof (renderChars_adds this viewport (printableChars line) s0)
          as Hchars;
        set (st1 := foldl (Text.renderChar charWidth fromSGR this viewport) s0
                      (printableChars line)) in *
    end.
    eapply adds_trans; [| eapply adds_trans; [exact Hchars |]].
    + replace (Point.y (point st)) with (Point.y (point st) + 0) by lia.
      apply moved_adds. lia.
    + apply moved_adds. lia.
Qed.

Lemma renderLines_adds this viewport ls st :
  adds this viewport st (foldl (renderLine this viewport) st ls).
Proof.
  revert st. induction ls as [| entry ls IH]; intros st; cbn [foldl].
  - apply adds_refl.
  - eapply adds_trans; [apply renderLine_adds | apply IH].
Qed.

(** X29.  A wrapping text stays inside the width of its content and
  works its way down.  With [wrap] and a content area at least one column
  wide, every call of [viewport.write] that [render] makes starts left of
  the right edge of the content, whatever the alignment and the width of
  the lines; and the rows of the calls, in the order they are made, never
  go up and start at row 0 or below. *)
Theorem wrapped_text_stays_in_content (this : Text) (viewport : Viewport.t) :
  wrap this = true ->
  0 < Size.width (Viewport.contentSize viewport) ->
  Forall
    (fun w => Point.x (position w) < Size.width (Viewport.contentSize viewport))
    (render this viewport) /\
  rowsAscend 0 (render this viewport).
Proof.
  intros Hwrap Hwide. unfold Text.render.
  destruct (Viewport.isEmpty viewport); [split; constructor |].
  cbv zeta.
  match goal with
  | |- context [foldl _ ?s0 (lines this)] =>
      destruct (renderLines_adds this viewport (lines this) s0)
        as (_ & added & Hw & Hasc & _ & Hin)
  end.
  rewrite Hw. simpl in *. split; [| exact Hasc].
  eapply Forall_impl; [exact (Hin Hwrap) |].
  intros w [Hx | Hx]; simpl; lia.
Qed.
End WithExternals.

(** Two columns for ["ab"] and ["cde"]. *)
Definition narrowPage : Viewport.t :=
  Viewport.mk (Size.new 2 4)
    (Rect.mk Point.zero (Size.new 2 4)) (Rect.mk Point.zero (Size.new 2 4)).

Lemma wrapped_text_stays_in_content_witness :
  Forall
    (fun w => Point.x (position w) < Size.width (Viewport.contentSize narrowPage))
    (Text.render Sample.charWidth Sample.printableChars Sample.fromSGR
       Sample.merge Sample.themeText TextSampleFacts.wrappingText narrowPage) /\
  rowsAscend 0
    (Text.render Sample.charWidth Sample.printableChars Sample.fromSGR
       Sample.merge Sample.themeText TextSampleFacts.wrappingText narrowPage).
Proof.
  apply (wrapped_text_stays_in_content Sample.charWidth Sample.printableChars
           Sample.fromSGR Sample.merge Sample.themeText
           TextSampleFacts.wrappingText narrowPage);
    reflexivity.
Defined.

(** The third character of ["cde"] goes to the next row. *)
Example wrapped_second_line :
  Text.render Sample.charWidth Sample.printableChars Sample.fromSGR
    Sample.merge Sample.themeText TextSampleFacts.wrappingText narrowPage
  = [ mkWrite "a" (Point.mk 0 0) ""; mkWrite "b" (Point.mk 1 0) "";
      mkWrite "c" (Point.mk 0 1) ""; mkWrite "d" (Point.mk 1 1) "";
      mkWrite "e" (Point.mk 0 2) "" ].
Proof. vm_compute. reflexivity. Qed.
End TextWrapFacts.

(** ** The "Select all" checkbox *)

Module SelectionMoreFacts.
Import Selection SelectionFacts.

Section WithValues.
Context {T : Type} `{EqDecision T}.

Abbreviation Selector := (Selection.t (T := T)).

Lemma mapM_rows (pre suf : list (list string * T)) :
  mapM (fun i => snd <$> (pre ++ suf) !! i) (seq (length pre) (length suf))
  = Some (map snd suf).
Proof.
  revert pre. induction suf as [| c suf IH]; intros pre; [reflexivity |].
  cbn [length seq map]. apply mapM_Some. constructor.
  - rewrite lookup_app_r by lia. rewrite Nat.sub_diag. reflexivity.
  - apply mapM_Some.
    replace (pre ++ c :: suf) with ((pre ++ [c]) ++ suf)
      by (rewrite <- app_assoc; reflexivity).
    replace (S (length pre)) with (length (pre ++ [c]))
      by (rewrite length_app; simpl; lia).
    apply IH.
Qed.

Lemma all_rows_values (this : Selector) :
  mapM (valueAt this) (seq 0 (length (choices this)))
  = Some (map snd (choices this)).
Proof. exact (mapM_rows [] (choices this)). Qed.

(** A selection without repetition over the rows that exist holds every
  row exactly when it has as many rows as there are choices. *)
Lemma all_rows_counted (n : nat) (sel : list nat) :
  NoDup sel ->
  Forall (fun r => (r < n)%nat) sel ->
  length sel = n <-> (forall r, (r < n)%nat -> r ∈ sel).
Proof.
  intros Hnd Hall. rewrite Forall_forall in Hall.
  assert (sel ⊆+ seq 0 n) as Hsub.
  { apply NoDup_submseteq; [exact Hnd |].
    intros r Hr. apply elem_of_seq. pose proof (Hall r Hr). lia. }
  split.
  - intros Hlen r Hr.
    assert (sel ≡ₚ seq 0 n) as Hperm
      by (apply submseteq_length_Permutation;
          [exact Hsub | rewrite length_seq; lia]).
    rewrite Hperm. apply elem_of_seq. lia.
  - intros Hevery.
    assert (seq 0 n ⊆+ sel) as Hsup.
    { apply NoDup_submseteq; [apply NoDup_seq |].
      intros r Hr. apply elem_of_seq in Hr. apply Hevery. lia. }
    apply submseteq_length in Hsub, Hsup. rewrite length_seq in *. lia.
Qed.

(** X30.  The "Select all" checkbox.  In a state a dropdown reaches,
  checking the box selects every row, in the order of the rows, so that
  [selectedValues] is the list of all values; unchecking it leaves
  nothing selected; and after a click on a row the box is checked exactly
  when every row is selected.  Neither call raises. *)
Theorem select_all_checkbox (m : bool) (this : Selector) :
  reachable m this ->
  (exists every,
      onCheck true this = Some every /\
      selected every = seq 0 (length (choices this)) /\
      selectedValues every = Some (map snd (choices this)) /\
      isChecked every = true) /\
  (exists none,
      onCheck false this = Some none /\
      selected none = [] /\
      isChecked none = false) /\
  (forall row this',
      (row < length (choices this))%nat ->
      click row this = Some this' ->
      (isChecked this' = true
       <-> forall r, (r < length (choices this'))%nat -> r ∈ selected this')).
Proof.
  intros Hreach.
  pose proof (newSet_spec (seq 0 (length (choices this)))) as (_ & _ & _ & Hid).
  specialize (Hid (NoDup_seq _ _)).
  split; [| split].
  - exists (mk (choices this) (seq 0 (length (choices this))) (multiple this)
              true).
    split; [| split; [reflexivity | split; [| reflexivity]]].
    + unfold onCheck. rewrite Hid.
      match goal with
      | |- _ <$> onSelect ?st = _ =>
          destruct (onSelect_inOrder st) as [u ->]; [| reflexivity]
      end.
      apply Forall_forall. intros r Hr. apply elem_of_seq in Hr. simpl. lia.
    + exact (all_rows_values
               (mk (choices this) (seq 0 (length (choices this)))
                  (multiple this) true)).
  - exists (mk (choices this) [] (multiple this) false).
    split; [| split; reflexivity].
    unfold onCheck.
    match goal with
    | |- _ <$> onSelect ?st = _ =>
        destruct (onSelect_inOrder st) as [u ->]; [constructor | reflexivity]
    end.
  - intros row this' Hrow Hclick.
    assert (reachable m this') as Hreach'
      by (eapply reach_click; eassumption).
    destruct (reachable_inOrder m this' Hreach') as [_ (Hnd & Hall & _)].
    assert (isChecked this'
            = isAllSelected (choices this') (selected this')) as ->.
    { unfold click in Hclick.
      destruct (mapM (valueAt this) (selected this)); [| discriminate].
      match type of Hclick with
      | _ <$> onSelect ?st = _ => destruct (onSelect st); [| discriminate]
      end.
      injection Hclick as <-. reflexivity. }
    unfold isAllSelected. rewrite Nat.eqb_eq.
    apply all_rows_counted; assumption.
Qed.
End WithValues.

Lemma select_all_checkbox_witness :
  reachable true SelectionSampleFacts.clicked /\
  exists every,
    onCheck true SelectionSampleFacts.clicked = Some every /\
    selected every = seq 0 (length (choices SelectionSampleFacts.clicked)) /\
    selectedValues every = Some (map snd (choices SelectionSampleFacts.clicked)) /\
    isChecked every = true.
Proof.
  assert (reachable true SelectionSampleFacts.clicked) as Hreach.
  { apply (reach_click true (dropdown true [3; 1]%nat sampleChoices) 1%nat).
    - apply reach_new.
    - vm_compute. lia.
    - vm_compute. reflexivity. }
  split; [exact Hreach |].
  apply (proj1 (select_all_checkbox true SelectionSampleFacts.clicked Hreach)).
Defined.

(** The third click selects the last row, and the box is checked; new
  choices leave the box as it is, although not every row is selected
  any more. *)
Example checkbox_after_choices :
  isChecked SelectionSampleFacts.clicked = true /\
  (fun s => (selected s, isChecked s))
    <$> set_choices SelectionSampleFacts.fewerChoices SelectionSampleFacts.clicked
  = Some ([2; 0]%nat, true).
Proof. vm_compute. split; reflexivity. Qed.
End SelectionMoreFacts.
